(** * Push activity tracking: campaign reconciliation and push de-duplication

    A shallow embedding of [backend/push_activity.py]: the SQLite store
    behind [PushActivityDatabase], the campaign and lead reconciliation, the
    change-log query, and the push-all / push-new operations of
    [PushActivityClient], followed by the properties the specification
    states about them.

    Modelling conventions.
    - A table with a [TEXT PRIMARY KEY] is a finite map from the key to the
      remaining columns; tables with an [AUTOINCREMENT] id are lists of rows
      in rowid order.
    - Python sets are [gset string], Python dicts are [gmap].
    - A statement that SQLite rejects raises; [outcome] is the error monad,
      [try_except] the handler, and a connection that is dropped without
      [commit] leaves the store as it was.
    - The HTTP collaborators (lead export, webhook) are inputs of the
      operation that calls them: the leads they return, and whether the
      delivery succeeded.
    - One process works on the database file.  A call that raises after a
      write leaves its connection open, and the connection keeps the write
      lock until the collector closes it; whether a later call finds the
      database held, and whether a mark is stored, are inputs of the call.
    - The clock reads of one call are identified: they all yield the
      instant [now]. *)

From Stdlib Require Import ZArith Ascii String List.
From stdpp Require Import base option list gmap sets strings pretty sorting.

Local Open Scope Z_scope.

(** ** Exceptions and the error monad *)

Inductive exn : Type :=
  | IntegrityError (msg : string)
  | OperationalError (msg : string)
  | KeyError (key : string)
  | OverflowError (msg : string)
  | AttributeError (msg : string).

(** [str(e)] *)
Definition str_exn (e : exn) : string :=
  match e with
  | IntegrityError msg => msg
  | OperationalError msg => msg
  | KeyError key => "'" +:+ key +:+ "'"
  | OverflowError msg => msg
  | AttributeError msg => msg
  end.

Inductive outcome (A : Type) : Type :=
  | Returned (a : A)
  | Raised (e : exn).
Arguments Returned {A} a.
Arguments Raised {A} e.

#[global] Instance outcome_ret : MRet outcome := fun A a => Returned a.
#[global] Instance outcome_bind : MBind outcome := fun A B f m =>
  match m with
  | Returned a => f a
  | Raised e => Raised e
  end.

(** [try: body except Exception as e: handler(e)] *)
Definition try_except {A : Type} (body : outcome A) (handler : exn -> outcome A)
  : outcome A :=
  match body with
  | Returned a => Returned a
  | Raised e => handler e
  end.

(** [for x in l: body(x)] over a threaded state; the first raise leaves the
    loop. *)
Fixpoint for_each {A S : Type} (body : A -> S -> outcome S) (l : list A) (s : S)
  : outcome S :=
  match l with
  | [] => Returned s
  | x :: l' => s' ← body x s; for_each body l' s'
  end.

(** ** Strings *)

(** The characters [str.strip()] removes, among code points below 256. *)
Definition is_py_space (a : ascii) : bool :=
  let n := nat_of_ascii a in
  ((9 <=? n)%nat && (n <=? 13)%nat)
  || ((28 <=? n)%nat && (n <=? 32)%nat)
  || (n =? 133)%nat || (n =? 160)%nat.

Fixpoint lstrip (l : list ascii) : list ascii :=
  match l with
  | [] => []
  | a :: l' => if is_py_space a then lstrip l' else l
  end.

Definition strip (s : string) : string :=
  string_of_list_ascii
    (rev (lstrip (rev (lstrip (list_ascii_of_string s))))).

(** Truthiness of a [str]. *)
Definition nonempty (s : string) : bool :=
  match s with
  | EmptyString => false
  | String _ _ => true
  end.

(** Truthiness of an optional [str]: [None] and the empty string are
    falsy. *)
Definition truthy (o : option string) : bool :=
  match o with
  | Some s => nonempty s
  | None => false
  end.

(** ** Rows and tables *)

Record CampaignRow : Type := mkCampaignRow {
  c_name : string;
  c_status : string;
  c_created_at : Z;
  c_last_updated : Z;
  c_is_active : bool
}.

Record LeadRow : Type := mkLeadRow {
  l_campaign_id : string;
  l_email : option string;
  l_first_name : option string;
  l_last_name : option string;
  l_company_name : option string;
  l_job_title : option string;
  l_linkedin_url : option string;
  l_state : option string;
  l_state_system : option string;
  l_created_at : Z;
  l_last_updated : Z;
  l_is_active : bool
}.

Record ChangeLogRow : Type := mkChangeLogRow {
  cl_id : Z;
  cl_change_type : string;
  cl_campaign_id : option string;
  cl_campaign_name : option string;
  cl_lead_id : option string;
  cl_lead_email : option string;
  cl_lead_company : option string;
  cl_old_value : option string;
  cl_new_value : option string;
  cl_change_timestamp : Z
}.

Record SyncRow : Type := mkSyncRow {
  sy_id : Z;
  sy_sync_type : string;
  sy_campaigns_processed : Z;
  sy_leads_processed : Z;
  sy_campaigns_added : Z;
  sy_campaigns_removed : Z;
  sy_leads_added : Z;
  sy_leads_removed : Z;
  sy_leads_updated : Z;
  sy_sync_timestamp : Z;
  sy_duration_seconds : option Z
}.

Record PushedRow : Type := mkPushedRow {
  p_id : Z;
  p_campaign_id : string;
  p_company_name : string;
  p_pushed_at : Z
}.

(** The five tables [_init_database] creates.  [pushed_seq] is the row
    SQLite keeps in [sqlite_sequence] for [pushed_companies]: the largest id
    an insert into that table has drawn so far. *)
Record DB : Type := mkDB {
  campaigns : gmap string CampaignRow;
  leads : gmap string LeadRow;
  change_log : list ChangeLogRow;
  sync_history : list SyncRow;
  pushed_companies : list PushedRow;
  pushed_seq : Z
}.

Definition empty_db : DB := mkDB ∅ ∅ [] [] [] 0.

(** The columns of [change_log], as [_init_database] declares them. *)
Definition change_log_columns : list string :=
  [ "id"; "change_type"; "campaign_id"; "campaign_name"; "lead_id";
    "lead_email"; "lead_company"; "old_value"; "new_value";
    "change_timestamp" ].

(** [AUTOINCREMENT]: one more than the largest id in the table (rows are
    never deleted, so this is the largest id ever used). *)
Definition next_id {R : Type} (id_of : R -> Z) (rows : list R) : Z :=
  1 + foldr (fun r m => Z.max (id_of r) m) 0 rows.

(** ** Statements *)

(** The value bound to column [col] by [INSERT INTO t (cols) VALUES (vals)];
    a column that is not listed is NULL. *)
Fixpoint bound (col : string) (cols : list string) (vals : list (option string))
  : option string :=
  match cols, vals with
  | c :: cols', v :: vals' =>
      if decide (c = col) then v else bound col cols' vals'
  | _, _ => None
  end.

(** [INSERT INTO change_log (cols) VALUES (vals)].  A column the table does
    not have makes the statement fail to prepare; [change_type] is
    [NOT NULL]; [id] and [change_timestamp] take their defaults. *)
Definition insert_change_log (cols : list string) (vals : list (option string))
    (now : Z) (db : DB) : outcome DB :=
  match filter (fun c => c ∉ change_log_columns) cols with
  | c :: _ =>
      Raised (OperationalError ("table change_log has no column named " +:+ c))
  | [] =>
      match bound "change_type" cols vals with
      | None =>
          Raised (IntegrityError "NOT NULL constraint failed: change_log.change_type")
      | Some ty =>
          let row :=
            mkChangeLogRow (next_id cl_id (change_log db)) ty
              (bound "campaign_id" cols vals)
              (bound "campaign_name" cols vals)
              (bound "lead_id" cols vals)
              (bound "lead_email" cols vals)
              (bound "lead_company" cols vals)
              (bound "old_value" cols vals)
              (bound "new_value" cols vals)
              now in
          Returned (mkDB (campaigns db) (leads db) (change_log db ++ [row])
                         (sync_history db)
                         (pushed_companies db) (pushed_seq db))
      end
  end.

(** [INSERT INTO campaigns (id, name, status, created_at, last_updated)]:
    [id] is the primary key, [is_active] defaults to 1. *)
Definition insert_campaign (id name status : string) (created updated : Z)
    (db : DB) : outcome DB :=
  match campaigns db !! id with
  | Some _ => Raised (IntegrityError "UNIQUE constraint failed: campaigns.id")
  | None =>
      Returned (mkDB (<[id := mkCampaignRow name status created updated true]>
                        (campaigns db))
                     (leads db) (change_log db) (sync_history db)
                     (pushed_companies db) (pushed_seq db))
  end.

(** [UPDATE campaigns SET is_active = 0, last_updated = ? WHERE id = ?] *)
Definition deactivate_campaign (now : Z) (id : string) (db : DB) : DB :=
  mkDB (alter (fun r => mkCampaignRow (c_name r) (c_status r) (c_created_at r)
                          now false) id (campaigns db))
       (leads db) (change_log db) (sync_history db)
       (pushed_companies db) (pushed_seq db).

(** [UPDATE campaigns SET name = ?, status = ?, last_updated = ? WHERE id = ?] *)
Definition rename_campaign (name status : string) (now : Z) (id : string)
    (db : DB) : DB :=
  mkDB (alter (fun r => mkCampaignRow name status (c_created_at r) now
                          (c_is_active r)) id (campaigns db))
       (leads db) (change_log db) (sync_history db)
       (pushed_companies db) (pushed_seq db).

(** [INSERT INTO sync_history (sync_type, campaigns_processed,
    campaigns_added, campaigns_removed)]; the other counters default to 0 and
    [duration_seconds] to NULL. *)
Definition insert_sync_history (sync_type : string)
    (processed added removed : Z) (now : Z) (db : DB) : DB :=
  mkDB (campaigns db) (leads db) (change_log db)
       (sync_history db ++
          [mkSyncRow (next_id sy_id (sync_history db)) sync_type processed 0
             added removed 0 0 0 now None])
       (pushed_companies db) (pushed_seq db).

(** [INSERT OR IGNORE INTO pushed_companies (campaign_id, company_name)]:
    the statement draws the next id, one more than the larger of the
    recorded sequence and the largest id in the table, and records it as the
    sequence; a row that would break [UNIQUE(campaign_id, company_name)] is
    then skipped, and its id is not used again. *)
Definition insert_or_ignore_pushed (campaign_id company_name : string)
    (now : Z) (db : DB) : DB :=
  let id := Z.max (1 + pushed_seq db) (next_id p_id (pushed_companies db)) in
  if existsb (fun r => bool_decide (p_campaign_id r = campaign_id
                                    ∧ p_company_name r = company_name))
             (pushed_companies db)
  then mkDB (campaigns db) (leads db) (change_log db) (sync_history db)
            (pushed_companies db) id
  else mkDB (campaigns db) (leads db) (change_log db) (sync_history db)
            (pushed_companies db ++ [mkPushedRow id campaign_id company_name now])
            id.

(** ** Push de-duplication: [PushActivityDatabase] *)

(** [get_pushed_companies]: the company names recorded for a campaign. *)
Definition get_pushed_companies (db : DB) (campaign_id : string) : gset string :=
  list_to_set
    (map p_company_name
       (filter (fun r => p_campaign_id r = campaign_id) (pushed_companies db))).

(** [mark_companies_as_pushed]: one [INSERT OR IGNORE] per name, committed
    together.  [stored] tells whether sqlite3 carries the statements out.  It
    does not when another connection holds the write lock or when a name
    cannot be bound; the exception is then logged and dropped, the call
    returns as it does otherwise, and nothing of the batch is stored. *)
Definition mark_companies_as_pushed (campaign_id : string)
    (company_names : list string) (now : Z) (stored : bool) (db : DB) : DB :=
  if stored
  then foldl (fun d company_name =>
                insert_or_ignore_pushed campaign_id company_name now d)
             db company_names
  else db.

(** [get_new_companies]: [current_companies - pushed_companies]. *)
Definition get_new_companies (db : DB) (campaign_id : string)
    (current_companies : gset string) : gset string :=
  current_companies ∖ get_pushed_companies db campaign_id.

(** [log_push_activity]: looks the campaign name up, then inserts into
    [change_log] naming the column [details]; whatever the statement raises
    is logged and dropped. *)
Definition log_push_activity (campaign_id push_type : string)
    (companies_count : nat) (now : Z) (db : DB) : DB :=
  let campaign_name :=
    match campaigns db !! campaign_id with
    | Some r => c_name r
    | None => "Campaign " +:+ campaign_id
    end in
  match
    try_except
      (insert_change_log
         ["change_type"; "campaign_id"; "campaign_name"; "details"]
         [Some push_type; Some campaign_id; Some campaign_name;
          Some ("Pushed " +:+ pretty companies_count +:+ " companies to webhook")]
         now db)
      (fun _ => Returned db)
  with
  | Returned db' => db'
  | Raised _ => db
  end.

(** ** Push operations: [PushActivityClient] *)

(** A lead as the export endpoint returns it: a dict that holds [_id] and
    may hold the other keys, each with a string or null. *)
Record Lead : Type := mkLead {
  lead_id : string;
  email : option string;
  firstName : option string;
  lastName : option string;
  companyName : option string;
  jobTitle : option string;
  linkedinUrl : option string;
  state : option string;
  stateSystem : option string
}.

(** The loop that collects the stripped, non-empty company names. *)
Definition extract_unique_companies (lead_list : list Lead) : gset string :=
  foldl (fun unique_companies lead =>
           match companyName lead with
           | Some c =>
               if nonempty c
               then let company_name := strip c in
                    if nonempty company_name
                    then {[company_name]} ∪ unique_companies
                    else unique_companies
               else unique_companies
           | None => unique_companies
           end)
        ∅ lead_list.

(** The dict a push operation returns: [{success: True, companies_pushed,
    companies}] or [{success: False, error}]. *)
Inductive PushResult : Type :=
  | PushOk (companies_pushed : nat) (companies : list string)
  | PushFail (error : string).

Definition is_success (r : PushResult) : bool :=
  match r with
  | PushOk _ _ => true
  | PushFail _ => false
  end.

Definition payload (r : PushResult) : list string :=
  match r with
  | PushOk _ companies => companies
  | PushFail _ => []
  end.

(** The [try] block of [push_all_companies].  [lead_list] is what
    [get_campaign_leads] returned, [webhook_ok] what
    [push_companies_to_webhook] returned, and [stored] whether the mark that
    follows a delivery is stored. *)
Definition push_all_body (campaign_id : string) (lead_list : list Lead)
    (webhook_ok stored : bool) (now : Z) (db : DB) : DB * outcome PushResult :=
  match lead_list with
  | [] => (db, Returned (PushFail "No leads found for campaign"))
  | _ :: _ =>
      let unique_companies := extract_unique_companies lead_list in
      if decide (unique_companies = ∅)
      then (db, Returned (PushFail "No company names found"))
      else if webhook_ok
      then
        let db1 := mark_companies_as_pushed campaign_id
                     (elements unique_companies) now stored db in
        let db2 := log_push_activity campaign_id "push_all"
                     (size unique_companies) now db1 in
        (db2, Returned (PushOk (size unique_companies)
                               (elements unique_companies)))
      else (db, Returned (PushFail "Failed to push to webhook"))
  end.

Definition push_all_companies (campaign_id : string) (lead_list : list Lead)
    (webhook_ok stored : bool) (now : Z) (db : DB) : DB * outcome PushResult :=
  let '(db', r) := push_all_body campaign_id lead_list webhook_ok stored now db in
  (db', try_except r (fun e => Returned (PushFail (str_exn e)))).

(** The [try] block of [push_new_companies]. *)
Definition push_new_body (campaign_id : string) (lead_list : list Lead)
    (webhook_ok stored : bool) (now : Z) (db : DB) : DB * outcome PushResult :=
  match lead_list with
  | [] => (db, Returned (PushFail "No leads found for campaign"))
  | _ :: _ =>
      let unique_companies := extract_unique_companies lead_list in
      if decide (unique_companies = ∅)
      then (db, Returned (PushFail "No company names found"))
      else
        let new_companies := get_new_companies db campaign_id unique_companies in
        if decide (new_companies = ∅)
        then (db, Returned (PushFail "No new companies to push"))
        else if webhook_ok
        then
          let db1 := mark_companies_as_pushed campaign_id
                       (elements new_companies) now stored db in
          let db2 := log_push_activity campaign_id "push_new"
                       (size new_companies) now db1 in
          (db2, Returned (PushOk (size new_companies) (elements new_companies)))
        else (db, Returned (PushFail "Failed to push to webhook"))
  end.

Definition push_new_companies (campaign_id : string) (lead_list : list Lead)
    (webhook_ok stored : bool) (now : Z) (db : DB) : DB * outcome PushResult :=
  let '(db', r) := push_new_body campaign_id lead_list webhook_ok stored now db in
  (db', try_except r (fun e => Returned (PushFail (str_exn e)))).

(** *** What the export hands on

    [get_campaign_leads] passes on whatever JSON the export returns.  The
    extraction loop reads an element with [lead.get('companyName')] and
    [.strip()]: an element that is no dict, or whose [companyName] is a
    truthy value other than a string, makes the read raise
    [AttributeError].  [Unreadable error] is such an element, with the text
    of the exception. *)
Inductive Exported : Type :=
  | Readable (lead : Lead)
  | Unreadable (error : string).

(** The extraction loop as far as reading goes: it comes through with the
    leads, or raises at the first element it cannot read. *)
Definition read_leads (exported : list Exported) : outcome (list Lead) :=
  for_each (fun x lead_list =>
              match x with
              | Readable lead => Returned (lead_list ++ [lead])
              | Unreadable error => Raised (AttributeError error)
              end)
           exported [].

(** [push_all_companies] and [push_new_companies] on what was exported.  A
    raise of the extraction loop comes before anything is sent or stored,
    and the handler of the operation answers it with [str(e)]. *)
Definition push_all_exported (campaign_id : string) (exported : list Exported)
    (webhook_ok stored : bool) (now : Z) (db : DB) : DB * outcome PushResult :=
  match read_leads exported with
  | Returned lead_list =>
      push_all_companies campaign_id lead_list webhook_ok stored now db
  | Raised e =>
      (db, try_except (Raised e) (fun e => Returned (PushFail (str_exn e))))
  end.

Definition push_new_exported (campaign_id : string) (exported : list Exported)
    (webhook_ok stored : bool) (now : Z) (db : DB) : DB * outcome PushResult :=
  match read_leads exported with
  | Returned lead_list =>
      push_new_companies campaign_id lead_list webhook_ok stored now db
  | Raised e =>
      (db, try_except (Raised e) (fun e => Returned (PushFail (str_exn e))))
  end.

(** The dict [get_campaign_push_status] returns. *)
Inductive PushStatus : Type :=
  | StatusOk (total_companies new_companies : nat)
             (has_new_companies has_ever_been_pushed show_push_new : bool)
  | StatusFail (error : string).

Definition get_campaign_push_status (campaign_id : string)
    (lead_list : list Lead) (db : DB) : PushStatus :=
  match lead_list with
  | [] => StatusFail "No leads found for campaign"
  | _ :: _ =>
      let unique_companies := extract_unique_companies lead_list in
      if decide (unique_companies = ∅)
      then StatusFail "No company names found"
      else
        let pushed := get_pushed_companies db campaign_id in
        let has_ever_been_pushed := bool_decide (0 < size pushed)%nat in
        let new_companies := get_new_companies db campaign_id unique_companies in
        StatusOk (size unique_companies) (size new_companies)
                 (bool_decide (0 < size new_companies)%nat)
                 has_ever_been_pushed
                 (has_ever_been_pushed && bool_decide (0 < size new_companies)%nat)
  end.

(** ** [json.dumps] of the [{name, status}] dict *)

Definition hex_digit (n : nat) : ascii :=
  ascii_of_nat (if (n <? 10)%nat then 48 + n else 87 + n)%nat.

(** One character of a JSON string with [ensure_ascii]: everything outside
    [' '..'~'], the quote and the backslash are escaped. *)
Definition json_escape_char (a : ascii) : list ascii :=
  let n := nat_of_ascii a in
  let bs := ascii_of_nat 92 in
  if (n =? 34)%nat then [bs; ascii_of_nat 34]
  else if (n =? 92)%nat then [bs; bs]
  else if (n =? 10)%nat then [bs; ascii_of_nat 110]
  else if (n =? 13)%nat then [bs; ascii_of_nat 114]
  else if (n =? 9)%nat then [bs; ascii_of_nat 116]
  else if (n =? 12)%nat then [bs; ascii_of_nat 102]
  else if (n =? 8)%nat then [bs; ascii_of_nat 98]
  else if ((32 <=? n)%nat && (n <=? 126)%nat) then [a]
  else [bs; ascii_of_nat 117; ascii_of_nat 48; ascii_of_nat 48;
        hex_digit (n / 16); hex_digit (n mod 16)].

Definition json_string (s : string) : string :=
  let q := String (ascii_of_nat 34) EmptyString in
  q +:+ string_of_list_ascii (concat (map json_escape_char (list_ascii_of_string s)))
    +:+ q.

Definition json_dumps_name_status (name status : string) : string :=
  let q := String (ascii_of_nat 34) EmptyString in
  "{" +:+ q +:+ "name" +:+ q +:+ ": " +:+ json_string name +:+ ", "
      +:+ q +:+ "status" +:+ q +:+ ": " +:+ json_string status +:+ "}".

(** ** Campaign reconciliation: [PushActivityDatabase.update_campaigns] *)

(** A campaign of the snapshot: the keys [_id], [name] and [status]. *)
Record Campaign : Type := mkCampaign {
  camp_id : string;
  camp_name : string;
  camp_status : string
}.

(** The [stats] dict. *)
Record Stats : Type := mkStats {
  campaigns_added : nat;
  campaigns_removed : nat;
  campaigns_updated : nat;
  stats_leads_added : nat;
  stats_leads_removed : nat;
  company_count_changes : gmap string Z
}.

Definition stats0 : Stats := mkStats 0 0 0 0 0 ∅.

Definition bump_added (s : Stats) : Stats :=
  mkStats (campaigns_added s + 1) (campaigns_removed s) (campaigns_updated s)
          (stats_leads_added s) (stats_leads_removed s) (company_count_changes s).

Definition bump_removed (s : Stats) : Stats :=
  mkStats (campaigns_added s) (campaigns_removed s + 1) (campaigns_updated s)
          (stats_leads_added s) (stats_leads_removed s) (company_count_changes s).

Definition bump_updated (s : Stats) : Stats :=
  mkStats (campaigns_added s) (campaigns_removed s) (campaigns_updated s + 1)
          (stats_leads_added s) (stats_leads_removed s) (company_count_changes s).

(** [SELECT id, name, status FROM campaigns WHERE is_active = 1], as the
    dict [current_campaigns]. *)
Definition current_campaigns (db : DB) : gmap string (string * string) :=
  (fun r => (c_name r, c_status r))
    <$> filter (fun kv => c_is_active kv.2 = true) (campaigns db).

Definition new_campaign_ids (new_campaigns : list Campaign) : gset string :=
  list_to_set (map camp_id new_campaigns).

Definition current_campaign_ids (db : DB) : gset string :=
  dom (current_campaigns db).

(** [new_campaign_ids - current_campaign_ids] *)
Definition added_campaigns (new_ids current_ids : gset string) : gset string :=
  new_ids ∖ current_ids.

(** [current_campaign_ids - new_campaign_ids] *)
Definition removed_campaigns (new_ids current_ids : gset string) : gset string :=
  current_ids ∖ new_ids.

(** Body of the loop "add new campaigns".  The insert reads the clock once
    for [created_at] and once for [last_updated]; both reads are [now]
    here. *)
Definition add_campaign_step (added : gset string) (now : Z)
    (campaign : Campaign) (st : DB * Stats) : outcome (DB * Stats) :=
  if decide (camp_id campaign ∈ added)
  then
    db1 ← insert_campaign (camp_id campaign) (camp_name campaign)
            (camp_status campaign) now now st.1;
    db2 ← insert_change_log ["change_type"; "campaign_id"; "campaign_name"]
            [Some "campaign_added"; Some (camp_id campaign);
             Some (camp_name campaign)] now db1;
    mret (db2, bump_added st.2)
  else mret st.

(** Body of the loop "mark removed campaigns as inactive". *)
Definition remove_campaign_step (current : gmap string (string * string))
    (now : Z) (campaign_id : string) (st : DB * Stats) : outcome (DB * Stats) :=
  match current !! campaign_id with
  | None => Raised (KeyError campaign_id)
  | Some (campaign_name, _) =>
      let db1 := deactivate_campaign now campaign_id st.1 in
      db2 ← insert_change_log ["change_type"; "campaign_id"; "campaign_name"]
              [Some "campaign_removed"; Some campaign_id; Some campaign_name]
              now db1;
      mret (db2, bump_removed st.2)
  end.

(** Body of the loop "update existing campaigns". *)
Definition update_campaign_step (current : gmap string (string * string))
    (now : Z) (campaign : Campaign) (st : DB * Stats) : outcome (DB * Stats) :=
  if decide (camp_id campaign ∈ dom current)
  then
    match current !! camp_id campaign with
    | None => Raised (KeyError (camp_id campaign))
    | Some (cur_name, cur_status) =>
        if bool_decide (cur_name ≠ camp_name campaign
                        ∨ cur_status ≠ camp_status campaign)
        then
          let db1 := rename_campaign (camp_name campaign) (camp_status campaign)
                       now (camp_id campaign) st.1 in
          db2 ← insert_change_log
                  ["change_type"; "campaign_id"; "campaign_name"; "old_value";
                   "new_value"]
                  [Some "campaign_updated"; Some (camp_id campaign);
                   Some (camp_name campaign);
                   Some (json_dumps_name_status cur_name cur_status);
                   Some (json_dumps_name_status (camp_name campaign)
                           (camp_status campaign))]
                  now db1;
          mret (db2, bump_updated st.2)
        else mret st
    end
  else mret st.

(** The statements of [update_campaigns] up to [commit]. *)
Definition update_campaigns_txn (new_campaigns : list Campaign) (now : Z)
    (db : DB) : outcome (DB * Stats) :=
  let current := current_campaigns db in
  let new_ids := new_campaign_ids new_campaigns in
  let current_ids := current_campaign_ids db in
  let added := added_campaigns new_ids current_ids in
  let removed := removed_campaigns new_ids current_ids in
  st1 ← for_each (add_campaign_step added now) new_campaigns (db, stats0);
  st2 ← for_each (remove_campaign_step current now) (elements removed) st1;
  st3 ← for_each (update_campaign_step current now) new_campaigns st2;
  mret (insert_sync_history "incremental"
          (Z.of_nat (length new_campaigns))
          (Z.of_nat (campaigns_added st3.2))
          (Z.of_nat (campaigns_removed st3.2)) now st3.1,
        st3.2).

(** [update_campaigns]: the store after the call and what the call returns
    or raises.  An exception is re-raised before [commit], so the store is
    the one the call started from. *)
Definition update_campaigns (new_campaigns : list Campaign) (now : Z) (db : DB)
  : DB * outcome Stats :=
  match update_campaigns_txn new_campaigns now db with
  | Returned (db', stats) => (db', Returned stats)
  | Raised e => (db, Raised e)
  end.

(** ** The change-log query: [get_change_log] *)

(** Insertion of a scanned row into the sort index of
    [ORDER BY change_timestamp DESC]: after every row that is at least as
    recent.  The query names no other sort key, so rows with equal
    timestamps stay in scan order. *)
Fixpoint index_insert (r : ChangeLogRow) (idx : list ChangeLogRow)
  : list ChangeLogRow :=
  match idx with
  | [] => [r]
  | r' :: idx' =>
      if (cl_change_timestamp r' <? cl_change_timestamp r)%Z
      then r :: idx
      else r' :: index_insert r idx'
  end.

Definition order_by_timestamp_desc (rows : list ChangeLogRow) : list ChangeLogRow :=
  foldl (fun idx r => index_insert r idx) [] rows.

(** [LIMIT ?]: a negative limit means no limit. *)
Definition sql_limit {A : Type} (limit : Z) (rows : list A) : list A :=
  if (limit <? 0)%Z then rows else take (Z.to_nat limit) rows.

(** The rows the [SELECT] of [get_change_log] yields, in order. *)
Definition select_change_log (limit : Z) (db : DB) : outcome (list ChangeLogRow) :=
  if (limit <? - 2 ^ 63)%Z || (2 ^ 63 <=? limit)%Z
  then Raised (OverflowError "Python int too large to convert to SQLite INTEGER")
  else Returned (sql_limit limit (order_by_timestamp_desc (change_log db))).

Definition get_change_log_rows (limit : Z) (db : DB) : list ChangeLogRow :=
  match try_except (select_change_log limit db) (fun _ => Returned []) with
  | Returned rows => rows
  | Raised _ => []
  end.

(** The dict built from one selected row. *)
Record Change : Type := mkChange {
  change_type : string;
  campaign_name : option string;
  lead_email : option string;
  lead_company : option string;
  old_value : option string;
  new_value : option string;
  change_timestamp : Z
}.

Definition change_of_row (r : ChangeLogRow) : Change :=
  mkChange (cl_change_type r) (cl_campaign_name r) (cl_lead_email r)
           (cl_lead_company r) (cl_old_value r) (cl_new_value r)
           (cl_change_timestamp r).

Definition get_change_log (limit : Z) (db : DB) : list Change :=
  map change_of_row (get_change_log_rows limit db).

(** ** Lead reconciliation: [PushActivityClient.track_lead_changes] *)

(** An entry of [added_leads] / [removed_leads]. *)
Record LeadSummary : Type := mkLeadSummary {
  sum_email : option string;
  sum_company : option string;
  sum_name : string
}.

(** The [changes] dict. *)
Record Changes : Type := mkChanges {
  leads_added : nat;
  leads_removed : nat;
  company_count_change : Z;
  added_leads : list LeadSummary;
  removed_leads : list LeadSummary
}.

Definition changes0 : Changes := mkChanges 0 0 0 [] [].

(** How an f-string renders an optional value read with a default. *)
Definition fmt (o : option string) (dflt : string) : string := default dflt o.

(** [SELECT ... FROM leads WHERE campaign_id = ? AND is_active = 1], as the
    dict [current_leads]. *)
Definition current_leads (db : DB) (campaign_id : string) : gmap string LeadRow :=
  filter (fun kv => l_campaign_id kv.2 = campaign_id ∧ l_is_active kv.2 = true)
         (leads db).

(** [INSERT INTO leads (...)]: [id] is the primary key of the whole table. *)
Definition insert_lead (campaign_id : string) (lead : Lead) (now : Z) (db : DB)
  : outcome DB :=
  match leads db !! lead_id lead with
  | Some _ => Raised (IntegrityError "UNIQUE constraint failed: leads.id")
  | None =>
      Returned (mkDB (campaigns db)
                     (<[lead_id lead :=
                          mkLeadRow campaign_id (email lead) (firstName lead)
                            (lastName lead) (companyName lead) (jobTitle lead)
                            (linkedinUrl lead) (state lead) (stateSystem lead)
                            now now true]> (leads db))
                     (change_log db) (sync_history db)
                     (pushed_companies db) (pushed_seq db))
  end.

(** [UPDATE leads SET is_active = 0, last_updated = ? WHERE id = ?] *)
Definition deactivate_lead (now : Z) (id : string) (db : DB) : DB :=
  mkDB (campaigns db)
       (alter (fun r => mkLeadRow (l_campaign_id r) (l_email r) (l_first_name r)
                          (l_last_name r) (l_company_name r) (l_job_title r)
                          (l_linkedin_url r) (l_state r) (l_state_system r)
                          (l_created_at r) now false) id (leads db))
       (change_log db) (sync_history db) (pushed_companies db) (pushed_seq db).

(** Body of the loop "process added leads". *)
Definition add_lead_step (added : gset string) (campaign_id campaign_name : string)
    (now : Z) (lead : Lead) (st : DB * Changes) : outcome (DB * Changes) :=
  if decide (lead_id lead ∈ added)
  then
    db1 ← insert_lead campaign_id lead now st.1;
    db2 ← insert_change_log
            ["change_type"; "campaign_id"; "campaign_name"; "lead_id";
             "lead_email"; "lead_company"; "details"]
            [Some "lead_added"; Some campaign_id; Some campaign_name;
             Some (lead_id lead); email lead; companyName lead;
             Some ("Lead added: " +:+ fmt (firstName lead) EmptyString +:+ " "
                     +:+ fmt (lastName lead) EmptyString +:+ " ("
                     +:+ fmt (email lead) EmptyString +:+ ") from "
                     +:+ fmt (companyName lead) "N/A")]
            now db1;
    mret (db2,
          mkChanges (leads_added st.2 + 1) (leads_removed st.2)
            (company_count_change st.2)
            (added_leads st.2 ++
               [mkLeadSummary (email lead) (companyName lead)
                  (strip (fmt (firstName lead) EmptyString +:+ " "
                            +:+ fmt (lastName lead) EmptyString))])
            (removed_leads st.2))
  else mret st.

(** Body of the loop "process removed leads". *)
Definition remove_lead_step (current : gmap string LeadRow)
    (campaign_id campaign_name : string) (now : Z) (id : string)
    (st : DB * Changes) : outcome (DB * Changes) :=
  match current !! id with
  | None => Raised (KeyError id)
  | Some lead_data =>
      let db1 := deactivate_lead now id st.1 in
      db2 ← insert_change_log
              ["change_type"; "campaign_id"; "campaign_name"; "lead_id";
               "lead_email"; "lead_company"; "details"]
              [Some "lead_removed"; Some campaign_id; Some campaign_name;
               Some id; l_email lead_data; l_company_name lead_data;
               Some ("Lead removed: " +:+ fmt (l_first_name lead_data) "None"
                       +:+ " " +:+ fmt (l_last_name lead_data) "None" +:+ " ("
                       +:+ fmt (l_email lead_data) "None" +:+ ") from "
                       +:+ (if truthy (l_company_name lead_data)
                           then fmt (l_company_name lead_data) EmptyString
                           else "N/A"))]
              now db1;
      mret (db2,
            mkChanges (leads_added st.2) (leads_removed st.2 + 1)
              (company_count_change st.2) (added_leads st.2)
              (removed_leads st.2 ++
                 [mkLeadSummary (l_email lead_data) (l_company_name lead_data)
                    (strip (fmt (l_first_name lead_data) "None" +:+ " "
                              +:+ fmt (l_last_name lead_data) "None"))]))
  end.

(** [len(set(lead['company_name'] for lead in current_leads.values()
    if lead['company_name']))] *)
Definition old_company_count (current : gmap string LeadRow) : nat :=
  size (list_to_set (C := gset string)
          (omap (fun kv => if truthy (l_company_name kv.2)
                           then l_company_name kv.2 else None)
                (map_to_list current))).

(** [len(set(lead.get('companyName', '') for lead in new_leads
    if lead.get('companyName')))] *)
Definition new_company_count (new_leads : list Lead) : nat :=
  size (list_to_set (C := gset string)
          (omap (fun lead => if truthy (companyName lead)
                             then companyName lead else None)
                new_leads)).

(** The statements of [track_lead_changes] up to [commit]. *)
Definition track_lead_changes_txn (campaign_id campaign_name : string)
    (new_leads : list Lead) (now : Z) (db : DB) : outcome (DB * Changes) :=
  let current := current_leads db campaign_id in
  let new_lead_ids : gset string := list_to_set (map lead_id new_leads) in
  let current_lead_ids := dom current in
  let added_lead_ids := new_lead_ids ∖ current_lead_ids in
  let removed_lead_ids := current_lead_ids ∖ new_lead_ids in
  st1 ← for_each (add_lead_step added_lead_ids campaign_id campaign_name now)
          new_leads (db, changes0);
  st2 ← for_each (remove_lead_step current campaign_id campaign_name now)
          (elements removed_lead_ids) st1;
  let old_count := old_company_count current in
  let new_count := new_company_count new_leads in
  let change := Z.of_nat new_count - Z.of_nat old_count in
  let changes := mkChanges (leads_added st2.2) (leads_removed st2.2) change
                   (added_leads st2.2) (removed_leads st2.2) in
  if decide (change ≠ 0)
  then
    db3 ← insert_change_log
            ["change_type"; "campaign_id"; "campaign_name"; "old_value";
             "new_value"]
            [Some "company_count_changed"; Some campaign_id; Some campaign_name;
             Some (pretty old_count); Some (pretty new_count)]
            now st2.1;
    mret (db3, changes)
  else mret (st2.1, changes).

(** [track_lead_changes]: any exception is logged and answered with the
    all-zero dict; nothing was committed. *)
Definition track_lead_changes (campaign_id campaign_name : string)
    (new_leads : list Lead) (now : Z) (db : DB) : DB * Changes :=
  match track_lead_changes_txn campaign_id campaign_name new_leads now db with
  | Returned (db', changes) => (db', changes)
  | Raised _ => (db, changes0)
  end.

(** ** Connections left open

    [update_campaigns] re-raises, and [track_lead_changes] answers with its
    all-zero dict, without closing the connection.  Every statement that
    raises in them comes at or after the first write of the call, so the
    connection that is left open holds the write lock of the file.  It keeps
    the lock until the collector closes it.  Meanwhile a write of another
    connection raises [OperationalError('database is locked')] once the busy
    timeout is over, and reads go through. *)

Definition database_is_locked : exn := OperationalError "database is locked".

(** [update_campaigns] on a database that another connection holds
    ([locked]) or not.  Every call writes at least its [sync_history] row, so
    on a locked database the first write of the call raises. *)
Definition update_campaigns_on (locked : bool) (new_campaigns : list Campaign)
    (now : Z) (db : DB) : DB * outcome Stats :=
  if locked then (db, Raised database_is_locked)
  else update_campaigns new_campaigns now db.

(** [track_lead_changes] on a database that another connection holds or
    not, with whether the database is held when the call is over.  On a
    locked database the first write raises and the handler answers with the
    all-zero dict; a call with nothing to write returns the dict it built,
    which counts no lead and a company count change of 0.  On a free
    database the call that raises leaves its own connection open. *)
Definition track_lead_changes_on (locked : bool)
    (campaign_id campaign_name : string) (new_leads : list Lead) (now : Z)
    (db : DB) : DB * Changes * bool :=
  if locked then (db, changes0, true)
  else
    match track_lead_changes_txn campaign_id campaign_name new_leads now db with
    | Returned (db', changes) => (db', changes, false)
    | Raised _ => (db, changes0, true)
    end.

(** ** The reconciliation pass: [PushActivityClient.update_campaigns] *)

(** The guard of [get_campaigns_with_company_data] on the leads fetched for
    one campaign: some lead carries a company name and more than one
    distinct stripped name results. *)
Definition qualifies (lead_list : list Lead) : bool :=
  existsb (fun lead => truthy (companyName lead)) lead_list
  && bool_decide (1 < size (extract_unique_companies lead_list))%nat.

(** [get_campaigns_with_company_data], from the running campaigns and the
    leads fetched for each. *)
Definition get_campaigns_with_company_data
    (fetched : list (Campaign * list Lead)) : list (Campaign * list Lead) :=
  filter (fun cl => qualifies cl.2 = true) fetched.

(** The [total_lead_changes] dict. *)
Record LeadTotals : Type := mkLeadTotals {
  total_leads_added : nat;
  total_leads_removed : nat;
  total_company_count_changes : gmap string Z;
  all_added_leads : list LeadSummary;
  all_removed_leads : list LeadSummary
}.

Definition aggregate (t : LeadTotals) (campaign_name : string) (ch : Changes)
  : LeadTotals :=
  mkLeadTotals (total_leads_added t + leads_added ch)
               (total_leads_removed t + leads_removed ch)
               (<[campaign_name := company_count_change ch]>
                  (total_company_count_changes t))
               (all_added_leads t ++ added_leads ch)
               (all_removed_leads t ++ removed_leads ch).

(** [SELECT id FROM sync_history ORDER BY sync_timestamp DESC LIMIT 1] *)
Fixpoint latest_sync (rows : list SyncRow) : option SyncRow :=
  match rows with
  | [] => None
  | r :: rows' =>
      match latest_sync rows' with
      | Some r' =>
          if (sy_sync_timestamp r <? sy_sync_timestamp r')%Z
          then Some r' else Some r
      | None => Some r
      end
  end.

(** [UPDATE sync_history SET duration_seconds = ?, leads_added = ?,
    leads_removed = ? WHERE id = (latest)] *)
Definition patch_latest_sync (duration : Z) (added removed : nat) (db : DB) : DB :=
  match latest_sync (sync_history db) with
  | None => db
  | Some latest =>
      mkDB (campaigns db) (leads db) (change_log db)
           (map (fun r =>
                   if decide (sy_id r = sy_id latest)
                   then mkSyncRow (sy_id r) (sy_sync_type r)
                          (sy_campaigns_processed r) (sy_leads_processed r)
                          (sy_campaigns_added r) (sy_campaigns_removed r)
                          (Z.of_nat added) (Z.of_nat removed)
                          (sy_leads_updated r) (sy_sync_timestamp r)
                          (Some duration)
                   else r)
                (sync_history db))
           (pushed_companies db) (pushed_seq db)
  end.

(** What the pass returns. *)
Record SyncResult : Type := mkSyncResult {
  campaigns_processed : nat;
  duration_seconds : Z;
  lead_changes : LeadTotals;
  campaign_stats : Stats
}.

(** The loop over the qualifying campaigns, from the [i]-th on.  [held]
    tells whether a call of the pass has left a connection open, and
    [collected i] whether the collector has closed it by the time the
    [i]-th campaign is tracked. *)
Fixpoint track_all (qualifying : list (Campaign * list Lead)) (now : Z)
    (collected : nat -> bool) (i : nat) (st : DB * LeadTotals) (held : bool)
  : DB * LeadTotals * bool :=
  match qualifying with
  | [] => (st, held)
  | cl :: qualifying' =>
      let res := track_lead_changes_on (held && negb (collected i))
                   (camp_id cl.1) (camp_name cl.1) cl.2 now st.1 in
      track_all qualifying' now collected (S i)
        (res.1.1, aggregate st.2 (camp_name cl.1) res.1.2) res.2
  end.

(** The pass on a database that another connection holds at its start
    ([locked]) or not.  [update_campaigns] has closed its connection when it
    returns; the [UPDATE] of [sync_history] that ends the pass runs on a
    connection of its own and raises when a connection that
    [track_lead_changes] left open is still there.  What was committed
    before stays. *)
Definition client_update_campaigns (locked : bool) (collected : nat -> bool)
    (fetched : list (Campaign * list Lead)) (now duration : Z) (db : DB)
  : DB * outcome SyncResult :=
  let qualifying := get_campaigns_with_company_data fetched in
  match update_campaigns_on locked (map fst qualifying) now db with
  | (db1, Raised e) => (db1, Raised e)
  | (db1, Returned stats) =>
      let st := track_all qualifying now collected 0
                  (db1, mkLeadTotals 0 0 ∅ [] []) false in
      if st.2 && negb (collected (length qualifying))
      then (st.1.1, Raised database_is_locked)
      else
        (patch_latest_sync duration (total_leads_added st.1.2)
           (total_leads_removed st.1.2) st.1.1,
         Returned (mkSyncResult (length qualifying) duration st.1.2 stats))
  end.

(** ** Sync statistics: [get_sync_stats] *)

(** The [latest_sync] dict. *)
Record LatestSync : Type := mkLatestSync {
  ls_type : string;
  ls_campaigns_processed : Z;
  ls_campaigns_added : Z;
  ls_campaigns_removed : Z;
  ls_timestamp : Z;
  ls_duration_seconds : option Z
}.

(** The dict [get_sync_stats] returns. *)
Record SyncStats : Type := mkSyncStats {
  total_campaigns : nat;
  total_leads : nat;
  latest_sync_info : option LatestSync
}.

(** [get_sync_stats]: the latest row of [sync_history] by timestamp, and
    the counts of active campaigns and of active leads. *)
Definition get_sync_stats (db : DB) : SyncStats :=
  mkSyncStats
    (size (filter (fun kv => c_is_active kv.2 = true) (campaigns db)))
    (size (filter (fun kv => l_is_active kv.2 = true) (leads db)))
    ((fun r => mkLatestSync (sy_sync_type r) (sy_campaigns_processed r)
                 (sy_campaigns_added r) (sy_campaigns_removed r)
                 (sy_sync_timestamp r) (sy_duration_seconds r))
       <$> latest_sync (sync_history db)).

(** ** The operations of the engine *)

(** An operation together with what it meets: whether the database is
    held by another connection, what the collector does during a pass,
    whether a mark is stored, what the export and the webhook answer. *)
Inductive Op : Type :=
  | OpUpdateCampaigns (locked : bool) (new_campaigns : list Campaign) (now : Z)
  | OpTrackLeadChanges (locked : bool) (campaign_id campaign_name : string)
      (new_leads : list Lead) (now : Z)
  | OpReconcile (locked : bool) (collected : nat -> bool)
      (fetched : list (Campaign * list Lead)) (now duration : Z)
  | OpMarkPushed (campaign_id : string) (company_names : list string) (now : Z)
      (stored : bool)
  | OpLogPush (campaign_id push_type : string) (companies_count : nat) (now : Z)
  | OpPushAll (campaign_id : string) (exported : list Exported)
      (webhook_ok stored : bool) (now : Z)
  | OpPushNew (campaign_id : string) (exported : list Exported)
      (webhook_ok stored : bool) (now : Z)
  | OpQuery.

(** The store after one operation; the queries ([get_campaigns],
    [get_change_log], [get_pushed_companies], [get_new_companies],
    [get_campaign_push_status]) leave it as it is. *)
Definition run_op (op : Op) (db : DB) : DB :=
  match op with
  | OpUpdateCampaigns locked new_campaigns now =>
      (update_campaigns_on locked new_campaigns now db).1
  | OpTrackLeadChanges locked c n new_leads now =>
      (track_lead_changes_on locked c n new_leads now db).1.1
  | OpReconcile locked collected fetched now duration =>
      (client_update_campaigns locked collected fetched now duration db).1
  | OpMarkPushed c names now stored => mark_companies_as_pushed c names now stored db
  | OpLogPush c ty n now => log_push_activity c ty n now db
  | OpPushAll c exported ok stored now =>
      (push_all_exported c exported ok stored now db).1
  | OpPushNew c exported ok stored now =>
      (push_new_exported c exported ok stored now db).1
  | OpQuery => db
  end.

Definition run_ops (ops : list Op) (db : DB) : DB :=
  foldl (fun d op => run_op op d) db ops.

(** A sequence of [push_new_companies] calls for one campaign. *)
Record PushCall : Type := mkPushCall {
  call_leads : list Lead;
  call_webhook_ok : bool;
  call_stored : bool;
  call_now : Z
}.

Fixpoint push_new_calls (campaign_id : string) (calls : list PushCall) (db : DB)
  : DB * list (outcome PushResult) :=
  match calls with
  | [] => (db, [])
  | k :: calls' =>
      let r := push_new_companies campaign_id (call_leads k)
                 (call_webhook_ok k) (call_stored k) (call_now k) db in
      let rest := push_new_calls campaign_id calls' r.1 in
      (rest.1, r.2 :: rest.2)
  end.

(** The [companies] payloads of the successful calls, one after the other. *)
Definition returned_companies (results : list (outcome PushResult)) : list string :=
  concat (map (fun r => match r with
                        | Returned res => payload res
                        | Raised _ => []
                        end) results).

(** The current company set is stable or grows from each call to the
    next: each call's set contains the one before it. *)
Fixpoint stable_or_growing_from (current : gset string) (calls : list PushCall)
  : Prop :=
  match calls with
  | [] => True
  | k :: calls' =>
      current ⊆ extract_unique_companies (call_leads k)
      ∧ stable_or_growing_from (extract_unique_companies (call_leads k)) calls'
  end.

Definition stable_or_growing (calls : list PushCall) : Prop :=
  match calls with
  | [] => True
  | k :: calls' =>
      stable_or_growing_from (extract_unique_companies (call_leads k)) calls'
  end.

(** The mark of every call whose delivery succeeded is stored. *)
Definition marks_stored (calls : list PushCall) : Prop :=
  Forall (fun k => call_webhook_ok k = true -> call_stored k = true) calls.

(** ** The statements of the specification that the code is compared with *)

(** What the specification says of [pushNew(campaignId, currentSet)] for a
    non-empty current set, whatever the delivery and the mark did: the
    failure "no new companies" exactly when the delta is empty, and
    otherwise the delta is added to the pushed set and returned. *)
Definition push_new_contract (campaign_id : string) (lead_list : list Lead)
    (webhook_ok stored : bool) (now : Z) (db : DB) : Prop :=
  let delta := extract_unique_companies lead_list
               ∖ get_pushed_companies db campaign_id in
  let r := push_new_companies campaign_id lead_list webhook_ok stored now db in
  (r.2 = Returned (PushFail "No new companies to push") ↔ delta = ∅)
  ∧ (delta ≠ ∅ →
       r.2 = Returned (PushOk (size delta) (elements delta))
       ∧ get_pushed_companies r.1 campaign_id
         = get_pushed_companies db campaign_id ∪ delta).

(** What the specification says of reconciling the same snapshot twice,
    at [now1] and then at [now2]: the second call returns all-zero campaign
    counters and leaves the change log as the first call left it. *)
Definition reconcile_idempotent (db : DB) (new_campaigns : list Campaign)
    (now1 now2 : Z) : Prop :=
  let db1 := (update_campaigns new_campaigns now1 db).1 in
  let second := update_campaigns new_campaigns now2 db1 in
  ∃ stats, second.2 = Returned stats
           ∧ campaigns_added stats = 0%nat
           ∧ campaigns_removed stats = 0%nat
           ∧ campaigns_updated stats = 0%nat
           ∧ change_log second.1 = change_log db1.

(** Newest first: no row is followed by a more recent one. *)
Definition newest_first (rows : list ChangeLogRow) : Prop :=
  StronglySorted (fun a b => cl_change_timestamp b ≤ cl_change_timestamp a) rows.

(** What the specification says of the order of the rows [GetChangeLog]
    returns: newest first, and of two rows with the same timestamp the one
    with the larger identifier first. *)
Definition newest_first_ties_descending_id (rows : list ChangeLogRow) : Prop :=
  StronglySorted
    (fun a b => cl_change_timestamp b < cl_change_timestamp a
                ∨ (cl_change_timestamp b = cl_change_timestamp a
                   ∧ cl_id b < cl_id a))
    rows.

(** What the query does with rows of the same timestamp: it keeps them in
    the order of the table, the smaller identifier first. *)
Definition newest_first_ties_ascending_id (rows : list ChangeLogRow) : Prop :=
  StronglySorted
    (fun a b => cl_change_timestamp b < cl_change_timestamp a
                ∨ (cl_change_timestamp a = cl_change_timestamp b
                   ∧ cl_id a < cl_id b))
    rows.

(** The identifiers of a table in rowid order increase. *)
Definition ids_increase (rows : list ChangeLogRow) : Prop :=
  StronglySorted (fun a b => cl_id a < cl_id b) rows.

(** A failure value carries the campaign id when the id can be read off
    the value. *)
Definition failure_carries_campaign_id : Prop :=
  ∃ id_of : PushResult → string,
    ∀ (c : string) (exported : list Exported) (ok stored : bool) (now : Z)
      (db : DB) (e : string),
      (push_all_exported c exported ok stored now db).2 = Returned (PushFail e)
      ∨ (push_new_exported c exported ok stored now db).2 = Returned (PushFail e) →
      id_of (PushFail e) = c.

(** A change-log entry that records the removal of campaign [id]. *)
Definition is_removal_of (id : string) (e : ChangeLogRow) : Prop :=
  cl_change_type e = "campaign_removed" ∧ cl_campaign_id e = Some id.

#[global] Instance is_removal_of_dec id e : Decision (is_removal_of id e).
Proof. unfold is_removal_of. apply _. Defined.

(** The row of a campaign after its soft-delete at [now]. *)
Definition soft_deleted (now : Z) (r : CampaignRow) : CampaignRow :=
  mkCampaignRow (c_name r) (c_status r) (c_created_at r) now false.

(** What the specification says of reconciling a snapshot that no longer
    lists the active campaign [id], stored as row [r]: afterwards the row is
    the soft-deleted one, and exactly one entry that records the removal has
    been appended to the change log. *)
Definition soft_delete_contract (db : DB) (new_campaigns : list Campaign)
    (now : Z) (id : string) (r : CampaignRow) : Prop :=
  let db' := (update_campaigns new_campaigns now db).1 in
  campaigns db' !! id = Some (soft_deleted now r)
  ∧ ∃ appended, change_log db' = change_log db ++ appended
                ∧ length (filter (is_removal_of id) appended) = 1%nat.

(** The table holds a soft-deleted row under [id]. *)
Definition inactive_at (id : string) (m : gmap string CampaignRow) : Prop :=
  ∃ r, m !! id = Some r ∧ c_is_active r = false.

(** A snapshot the store can take: its ids are pairwise distinct and none
    of them is the id of a soft-deleted row. *)
Definition reconcilable (db : DB) (new_campaigns : list Campaign) : Prop :=
  NoDup (map camp_id new_campaigns)
  ∧ ∀ c, c ∈ new_campaigns → ¬ inactive_at (camp_id c) (campaigns db).

(** The constraint [UNIQUE(campaign_id, company_name)] of
    [pushed_companies]. *)
Definition pushed_unique (db : DB) : Prop :=
  NoDup (map (fun r => (p_campaign_id r, p_company_name r)) (pushed_companies db)).

(** The snapshot campaign is stored as an active row under another name or
    status. *)
Definition campaign_changed (current : gmap string (string * string))
    (c : Campaign) : bool :=
  match current !! camp_id c with
  | Some (cur_name, cur_status) =>
      bool_decide (cur_name ≠ camp_name c ∨ cur_status ≠ camp_status c)
  | None => false
  end.


(** What a loop of [update_campaigns] counts and what it leaves alone: the
    counters grow by [a], [r] and [u], the change log by as many entries,
    and the leads and the sync history stay as they are. *)
Definition loop_effect (st st' : DB * Stats) (a r u : nat) : Prop :=
  campaigns_added st'.2 = (campaigns_added st.2 + a)%nat
  ∧ campaigns_removed st'.2 = (campaigns_removed st.2 + r)%nat
  ∧ campaigns_updated st'.2 = (campaigns_updated st.2 + u)%nat
  ∧ stats_leads_added st'.2 = stats_leads_added st.2
  ∧ stats_leads_removed st'.2 = stats_leads_removed st.2
  ∧ company_count_changes st'.2 = company_count_changes st.2
  ∧ length (change_log st'.1) = (length (change_log st.1) + (a + r + u))%nat
  ∧ leads st'.1 = leads st.1
  ∧ sync_history st'.1 = sync_history st.1.

(** The company name one lead contributes to the unique companies, if
    any. *)
Definition company_of (lead : Lead) : option string :=
  match companyName lead with
  | Some c =>
      if nonempty c
      then if nonempty (strip c) then Some (strip c) else None
      else None
  | None => None
  end.

(** The entry [track_lead_changes] writes for a changed company count. *)
Definition count_changed_row (db : DB) (campaign_id campaign_name : string)
    (old_count new_count : nat) (now : Z) : ChangeLogRow :=
  mkChangeLogRow (next_id cl_id (change_log db)) "company_count_changed"
    (Some campaign_id) (Some campaign_name) None None None
    (Some (pretty old_count)) (Some (pretty new_count)) now.

(** The store with one more change-log entry. *)
Definition with_log_entry (db : DB) (row : ChangeLogRow) : DB :=
  mkDB (campaigns db) (leads db) (change_log db ++ [row]) (sync_history db)
       (pushed_companies db) (pushed_seq db).

(** The snapshot of a campaign lists exactly the ids of its stored active
    leads. *)
Definition lists_stored_leads (db : DB) (cl : Campaign * list Lead) : Prop :=
  list_to_set (map lead_id cl.2) = dom (current_leads db (camp_id cl.1)).

#[global] Instance lists_stored_leads_dec db cl : Decision (lists_stored_leads db cl).
Proof. unfold lists_stored_leads. apply _. Defined.


(** The table still holds a row under [id], created when [r] was, and
    active only if [r] is. *)
Definition row_kept (id : string) (r : CampaignRow) (m : gmap string CampaignRow)
  : Prop :=
  ∃ r', m !! id = Some r'
        ∧ c_created_at r' = c_created_at r
        ∧ (c_is_active r' = true → c_is_active r = true).

(** ** Sample data *)

Definition acme : Lead := mkLead "1" None None None (Some "Acme") None None None None.
Definition beta : Lead := mkLead "2" None None None (Some "Beta") None None None None.
Definition gamma : Lead := mkLead "3" None None None (Some "Gamma") None None None None.

Definition campaign_a : Campaign := mkCampaign "A" "X" "running".
Definition campaign_a_renamed : Campaign := mkCampaign "A" "Y" "running".
Definition campaign_b : Campaign := mkCampaign "B" "Z" "running".

(** The store after campaign A was seen in one snapshot. *)
Definition db_with_a : DB := (update_campaigns [campaign_a] 10 empty_db).1.

(** The store after campaign A then disappeared from the next snapshot. *)
Definition db_a_removed : DB := (update_campaigns [] 20 db_with_a).1.

(** The store after campaigns A and B were seen in one snapshot: their two
    change-log entries carry the same timestamp. *)
Definition db_with_a_b : DB :=
  (update_campaigns [campaign_a; campaign_b] 10 empty_db).1.

(** The store after campaign B then disappeared from the next snapshot:
    A is active, B soft-deleted. *)
Definition db_b_removed : DB := (update_campaigns [campaign_a] 20 db_with_a_b).1.

(** * Properties *)

(** ** The pushed set *)

Lemma get_pushed_insert_or_ignore c n now db c' :
  get_pushed_companies (insert_or_ignore_pushed c n now db) c'
  = if decide (c = c') then {[n]} ∪ get_pushed_companies db c'
    else get_pushed_companies db c'.
Proof.
  unfold insert_or_ignore_pushed, get_pushed_companies.
  destruct (existsb _ _) eqn:Hex.
  - case_decide as Hc; [|done]. subst c'.
    apply existsb_exists in Hex as (r & Hin & Hr).
    apply bool_decide_eq_true in Hr as [Hrc Hrn].
    assert (n ∈ (list_to_set (map p_company_name
              (filter (λ r, p_campaign_id r = c) (pushed_companies db))) : gset string)).
    { apply elem_of_list_to_set, list_elem_of_fmap. exists r. split; [done|].
      apply list_elem_of_filter. split; [done|]. by apply list_elem_of_In. }
    set_solver.
  - simpl. rewrite filter_app, map_app, list_to_set_app_L.
    case_decide as Hc.
    + rewrite filter_cons_True by done. rewrite filter_nil. simpl. set_solver.
    + rewrite filter_cons_False by done. rewrite filter_nil. simpl. set_solver.
Qed.

Lemma get_pushed_mark c names now db c' :
  get_pushed_companies (mark_companies_as_pushed c names now true db) c'
  = if decide (c = c') then list_to_set names ∪ get_pushed_companies db c'
    else get_pushed_companies db c'.
Proof.
  unfold mark_companies_as_pushed.
  revert db. induction names as [|n names IH]; intros db; simpl.
  - case_decide; set_solver.
  - rewrite IH, get_pushed_insert_or_ignore. case_decide; set_solver.
Qed.

Lemma get_pushed_mark_mono c names now stored db c' :
  get_pushed_companies db c'
  ⊆ get_pushed_companies (mark_companies_as_pushed c names now stored db) c'.
Proof.
  destruct stored; [|done]. rewrite get_pushed_mark. case_decide; set_solver.
Qed.

Lemma log_push_activity_id c ty n now db : log_push_activity c ty n now db = db.
Proof. reflexivity. Qed.


Lemma bind_Returned {A B} (m : outcome A) (f : A → outcome B) b :
  (x ← m; f x) = Returned b → ∃ a, m = Returned a ∧ f a = Returned b.
Proof. destruct m as [a|e]; simpl; [eauto | discriminate]. Qed.

Lemma for_each_inv {A S} (P : S → Prop) (body : A → S → outcome S) l :
  (∀ x s s', x ∈ l → body x s = Returned s' → P s → P s') →
  ∀ s s', for_each body l s = Returned s' → P s → P s'.
Proof.
  induction l as [|x l IH]; intros Hstep s s' Hrun HP; simpl in Hrun.
  - by inversion Hrun; subst.
  - apply bind_Returned in Hrun as (s1 & H1 & Hrest).
    eapply IH; [|exact Hrest|].
    + intros y t t' Hy. apply Hstep. by right.
    + eapply Hstep; [by left|exact H1|exact HP].
Qed.

Lemma insert_change_log_frame cols vals now db db' :
  insert_change_log cols vals now db = Returned db' →
  campaigns db' = campaigns db ∧ leads db' = leads db
  ∧ sync_history db' = sync_history db
  ∧ pushed_companies db' = pushed_companies db
  ∧ ∃ row, change_log db' = change_log db ++ [row]
      ∧ cl_id row = next_id cl_id (change_log db)
      ∧ cl_change_timestamp row = now
      ∧ Some (cl_change_type row) = bound "change_type" cols vals
      ∧ cl_campaign_id row = bound "campaign_id" cols vals.
Proof.
  unfold insert_change_log. destruct (filter _ cols); [|discriminate].
  destruct (bound "change_type" cols vals) eqn:Hty; [|discriminate].
  intros [= <-]. simpl. repeat split; eauto 10.
Qed.

Lemma insert_campaign_frame id name status t1 t2 db db' :
  insert_campaign id name status t1 t2 db = Returned db' →
  campaigns db !! id = None
  ∧ campaigns db' = <[id := mkCampaignRow name status t1 t2 true]> (campaigns db)
  ∧ leads db' = leads db ∧ change_log db' = change_log db
  ∧ sync_history db' = sync_history db
  ∧ pushed_companies db' = pushed_companies db.
Proof.
  unfold insert_campaign. destruct (campaigns db !! id) eqn:Hl; [discriminate|].
  by intros [= <-].
Qed.

Lemma insert_lead_frame c lead now db db' :
  insert_lead c lead now db = Returned db' →
  leads db !! lead_id lead = None
  ∧ campaigns db' = campaigns db ∧ change_log db' = change_log db
  ∧ sync_history db' = sync_history db
  ∧ pushed_companies db' = pushed_companies db.
Proof.
  unfold insert_lead. destruct (leads db !! lead_id lead) eqn:Hl; [discriminate|].
  by intros [= <-].
Qed.

Lemma update_campaigns_txn_pushed l now db db' st :
  update_campaigns_txn l now db = Returned (db', st) →
  pushed_companies db' = pushed_companies db.
Proof.
  unfold update_campaigns_txn. intros H.
  apply bind_Returned in H as (st1 & H1 & H).
  apply bind_Returned in H as (st2 & H2 & H).
  apply bind_Returned in H as (st3 & H3 & H).
  injection H as <- <-. simpl.
  eapply (for_each_inv (λ s, pushed_companies s.1 = pushed_companies db)) in H3; [done| |].
  - intros x s s' _ Hb Hs. unfold update_campaign_step in Hb.
    case_decide; [|by injection Hb as <-].
    destruct (_ !! _) as [[??]|]; [|discriminate].
    case_bool_decide; [|by injection Hb as <-].
    apply bind_Returned in Hb as (d & Hd & Hb). injection Hb as <-.
    apply insert_change_log_frame in Hd as (_ & _ & _ & Hp & _). simpl in *. congruence.
  - eapply (for_each_inv (λ s, pushed_companies s.1 = pushed_companies db)) in H2; [done| |].
    + intros x s s' _ Hb Hs. unfold remove_campaign_step in Hb.
      destruct (_ !! _) as [[??]|]; [|discriminate].
      apply bind_Returned in Hb as (d & Hd & Hb). injection Hb as <-.
      apply insert_change_log_frame in Hd as (_ & _ & _ & Hp & _). simpl in *. congruence.
    + eapply (for_each_inv (λ s, pushed_companies s.1 = pushed_companies db)) in H1; [done| |done].
      intros x s s' _ Hb Hs. unfold add_campaign_step in Hb.
      case_decide; [|by injection Hb as <-].
      apply bind_Returned in Hb as (d1 & Hd1 & Hb).
      apply bind_Returned in Hb as (d2 & Hd2 & Hb). injection Hb as <-.
      apply insert_change_log_frame in Hd2 as (_ & _ & _ & Hp & _).
      apply insert_campaign_frame in Hd1 as (_ & _ & _ & _ & _ & Hq).
      simpl in *. congruence.
Qed.

Lemma update_campaigns_pushed l now db :
  pushed_companies (update_campaigns l now db).1 = pushed_companies db.
Proof.
  unfold update_campaigns.
  destruct (update_campaigns_txn l now db) as [[db' st]|e] eqn:H; [|done].
  simpl. by eapply update_campaigns_txn_pushed.
Qed.

Lemma track_lead_changes_txn_frame c n l now db db' ch :
  track_lead_changes_txn c n l now db = Returned (db', ch) →
  campaigns db' = campaigns db ∧ pushed_companies db' = pushed_companies db.
Proof.
  unfold track_lead_changes_txn. intros H.
  apply bind_Returned in H as (st1 & H1 & H).
  apply bind_Returned in H as (st2 & H2 & H).
  set (P := λ s : DB * Changes,
         campaigns s.1 = campaigns db ∧ pushed_companies s.1 = pushed_companies db).
  assert (P st2) as [Hc Hp].
  { eapply (for_each_inv P) in H2; [done| |].
    - intros x s s' _ Hb [Hs1 Hs2]. unfold remove_lead_step in Hb.
      destruct (_ !! _); [|discriminate].
      apply bind_Returned in Hb as (d & Hd & Hb). injection Hb as <-.
      apply insert_change_log_frame in Hd as (Hq & _ & _ & Hp & _).
      split; simpl in *; congruence.
    - eapply (for_each_inv P) in H1; [done| |done].
      intros x s s' _ Hb [Hs1 Hs2]. unfold add_lead_step in Hb.
      case_decide; [|by injection Hb as <-].
      apply bind_Returned in Hb as (d1 & Hd1 & Hb).
      apply bind_Returned in Hb as (d2 & Hd2 & Hb). injection Hb as <-.
      apply insert_change_log_frame in Hd2 as (Hq2 & _ & _ & Hp2 & _).
      apply insert_lead_frame in Hd1 as (_ & Hq1 & _ & _ & Hp1).
      split; simpl in *; congruence. }
  case_decide.
  - apply bind_Returned in H as (d & Hd & H). injection H as <- _.
    apply insert_change_log_frame in Hd as (Hq & _ & _ & Hp' & _).
    split; congruence.
  - by injection H as <- _.
Qed.

Lemma track_lead_changes_frame c n l now db :
  campaigns (track_lead_changes c n l now db).1 = campaigns db
  ∧ pushed_companies (track_lead_changes c n l now db).1 = pushed_companies db.
Proof.
  unfold track_lead_changes.
  destruct (track_lead_changes_txn c n l now db) as [[db' st]|e] eqn:H; [|done].
  simpl. by eapply track_lead_changes_txn_frame.
Qed.

Lemma track_lead_changes_pushed c n l now db :
  pushed_companies (track_lead_changes c n l now db).1 = pushed_companies db.
Proof. apply track_lead_changes_frame. Qed.

(** *** What a call on a held database, a pass and a push on an export do
    to the store *)

Lemma update_campaigns_on_store locked l now db :
  (update_campaigns_on locked l now db).1
  = if locked then db else (update_campaigns l now db).1.
Proof. unfold update_campaigns_on. by destruct locked. Qed.

Lemma track_lead_changes_on_store locked c n l now db :
  (track_lead_changes_on locked c n l now db).1.1
  = if locked then db else (track_lead_changes c n l now db).1.
Proof.
  unfold track_lead_changes_on, track_lead_changes. destruct locked; [done|].
  by destruct (track_lead_changes_txn c n l now db) as [[??]|?].
Qed.

(** What every [track_lead_changes] keeps, the loop of the pass keeps. *)
Lemma track_all_inv (P : DB → Prop) q now collected :
  (∀ c n l db, P db → P (track_lead_changes c n l now db).1) →
  ∀ i st held, P st.1 → P (track_all q now collected i st held).1.1.
Proof.
  intros Hstep. induction q as [|x q IH]; intros i st held HP; simpl; [done|].
  apply IH. simpl. rewrite track_lead_changes_on_store.
  destruct (held && negb (collected i)); [done|by apply Hstep].
Qed.

(** What the three writers of the pass keep, the pass keeps. *)
Lemma client_update_campaigns_inv (P : DB → Prop) locked collected f now d db :
  (∀ l db, P db → P (update_campaigns l now db).1) →
  (∀ c n l db, P db → P (track_lead_changes c n l now db).1) →
  (∀ a r db, P db → P (patch_latest_sync d a r db)) →
  P db → P (client_update_campaigns locked collected f now d db).1.
Proof.
  intros Hu Ht Hp HP. unfold client_update_campaigns, update_campaigns_on.
  destruct locked; [done|].
  specialize (Hu (map fst (get_campaigns_with_company_data f)) db HP).
  destruct (update_campaigns _ now db) as [db1 [stats|e]]; simpl in *; [|done].
  destruct (_ && negb _); simpl; [|apply Hp]; by apply track_all_inv.
Qed.

Lemma push_all_exported_inv (P : DB → Prop) c exported ok stored now db :
  (∀ l, P (push_all_companies c l ok stored now db).1) → P db →
  P (push_all_exported c exported ok stored now db).1.
Proof.
  intros Hl HP. unfold push_all_exported. by destruct (read_leads exported).
Qed.

Lemma push_new_exported_inv (P : DB → Prop) c exported ok stored now db :
  (∀ l, P (push_new_companies c l ok stored now db).1) → P db →
  P (push_new_exported c exported ok stored now db).1.
Proof.
  intros Hl HP. unfold push_new_exported. by destruct (read_leads exported).
Qed.

Lemma push_all_store c l ok stored now db :
  ∃ names st, (push_all_companies c l ok stored now db).1
              = mark_companies_as_pushed c names now st db.
Proof.
  unfold push_all_companies, push_all_body.
  destruct l as [|x l]; [by exists [], false|].
  case_decide; [by exists [], false|]. destruct ok; [|by exists [], false].
  simpl. eauto.
Qed.

Lemma push_new_store c l ok stored now db :
  ∃ names st, (push_new_companies c l ok stored now db).1
              = mark_companies_as_pushed c names now st db.
Proof.
  unfold push_new_companies, push_new_body.
  destruct l as [|x l]; [by exists [], false|].
  case_decide; [by exists [], false|]. case_decide; [by exists [], false|].
  destruct ok; [|by exists [], false]. simpl. eauto.
Qed.

(** What the four writers keep, every operation keeps. *)
Lemma run_op_inv (P : DB → Prop) :
  (∀ l now db, P db → P (update_campaigns l now db).1) →
  (∀ c n l now db, P db → P (track_lead_changes c n l now db).1) →
  (∀ d a r db, P db → P (patch_latest_sync d a r db)) →
  (∀ c names now stored db, P db →
     P (mark_companies_as_pushed c names now stored db)) →
  ∀ op db, P db → P (run_op op db).
Proof.
  intros Hu Ht Hp Hm op db HP.
  destruct op as [lk l t|lk c0 n l t|lk gc f t d|c0 names t st|c0 ty k t
                 |c0 ex ok st t|c0 ex ok st t|]; simpl.
  - rewrite update_campaigns_on_store. destruct lk; auto.
  - rewrite track_lead_changes_on_store. destruct lk; auto.
  - apply client_update_campaigns_inv; auto.
  - auto.
  - done.
  - apply push_all_exported_inv; [|done]. intros l0.
    destruct (push_all_store c0 l0 ok st t db) as (names & st' & ->). auto.
  - apply push_new_exported_inv; [|done]. intros l0.
    destruct (push_new_store c0 l0 ok st t db) as (names & st' & ->). auto.
  - done.
Qed.

Lemma read_leads_app exported acc :
  for_each (λ x lead_list,
              match x with
              | Readable lead => Returned (lead_list ++ [lead])
              | Unreadable error => Raised (AttributeError error)
              end) (map Readable exported) acc
  = Returned (acc ++ exported).
Proof.
  revert acc. induction exported as [|x l IH]; intros acc; simpl.
  - by rewrite app_nil_r.
  - rewrite IH. by rewrite <- app_assoc.
Qed.

(** An export of readable leads is read as it is. *)
Lemma read_leads_readable l : read_leads (map Readable l) = Returned l.
Proof. unfold read_leads. by rewrite read_leads_app. Qed.

Lemma patch_latest_sync_campaigns d a r db :
  campaigns (patch_latest_sync d a r db) = campaigns db.
Proof. unfold patch_latest_sync. by destruct (latest_sync _). Qed.

Lemma insert_or_ignore_campaigns c n now db :
  campaigns (insert_or_ignore_pushed c n now db) = campaigns db.
Proof. unfold insert_or_ignore_pushed. by destruct (existsb _ _). Qed.

Lemma mark_campaigns c names now stored db :
  campaigns (mark_companies_as_pushed c names now stored db) = campaigns db.
Proof.
  unfold mark_companies_as_pushed. destruct stored; [|done]. revert db.
  induction names as [|n names IH]; intros db; [done|].
  simpl. by rewrite IH, insert_or_ignore_campaigns.
Qed.

Lemma push_all_campaigns c l ok stored now db :
  campaigns (push_all_companies c l ok stored now db).1 = campaigns db.
Proof.
  unfold push_all_companies, push_all_body.
  destruct l as [|x l]; [done|].
  case_decide; [done|]. destruct ok; [|done]. simpl.
  by rewrite log_push_activity_id, mark_campaigns.
Qed.

Lemma push_new_campaigns c l ok stored now db :
  campaigns (push_new_companies c l ok stored now db).1 = campaigns db.
Proof.
  unfold push_new_companies, push_new_body.
  destruct l as [|x l]; [done|].
  case_decide; [done|]. case_decide; [done|]. destruct ok; [|done]. simpl.
  by rewrite log_push_activity_id, mark_campaigns.
Qed.

Lemma patch_latest_sync_pushed d a r db :
  pushed_companies (patch_latest_sync d a r db) = pushed_companies db.
Proof. unfold patch_latest_sync. by destruct (latest_sync _). Qed.

Lemma client_update_campaigns_pushed locked collected f now d db :
  pushed_companies (client_update_campaigns locked collected f now d db).1
  = pushed_companies db.
Proof.
  apply (client_update_campaigns_inv
           (λ db', pushed_companies db' = pushed_companies db)); [| | |done].
  - intros l db' <-. apply update_campaigns_pushed.
  - intros c n l db' <-. apply track_lead_changes_pushed.
  - intros a r db' <-. apply patch_latest_sync_pushed.
Qed.

Lemma push_all_pushed c l ok stored now db c' :
  get_pushed_companies db c'
  ⊆ get_pushed_companies (push_all_companies c l ok stored now db).1 c'.
Proof.
  unfold push_all_companies, push_all_body.
  destruct l as [|x l]; [done|].
  case_decide; [done|]. destruct ok; [|done]. simpl.
  rewrite log_push_activity_id. apply get_pushed_mark_mono.
Qed.

Lemma push_new_pushed c l ok stored now db c' :
  get_pushed_companies db c'
  ⊆ get_pushed_companies (push_new_companies c l ok stored now db).1 c'.
Proof.
  unfold push_new_companies, push_new_body.
  destruct l as [|x l]; [done|].
  case_decide; [done|]. case_decide; [done|]. destruct ok; [|done]. simpl.
  rewrite log_push_activity_id. apply get_pushed_mark_mono.
Qed.

Lemma get_pushed_ext db db' c :
  pushed_companies db' = pushed_companies db →
  get_pushed_companies db' c = get_pushed_companies db c.
Proof. unfold get_pushed_companies. by intros ->. Qed.

Lemma run_op_pushed_mono op db c :
  get_pushed_companies db c ⊆ get_pushed_companies (run_op op db) c.
Proof.
  destruct op as [lk l t|lk c0 n l t|lk gc f t d|c0 names t st|c0 ty k t
                 |c0 ex ok st t|c0 ex ok st t|]; simpl.
  - rewrite update_campaigns_on_store. destruct lk; [done|].
    by rewrite (get_pushed_ext _ _ _ (update_campaigns_pushed _ _ _)).
  - rewrite track_lead_changes_on_store. destruct lk; [done|].
    by rewrite (get_pushed_ext _ _ _ (track_lead_changes_pushed _ _ _ _ _)).
  - by rewrite (get_pushed_ext _ _ _ (client_update_campaigns_pushed _ _ _ _ _ _)).
  - apply get_pushed_mark_mono.
  - by rewrite log_push_activity_id.
  - apply (push_all_exported_inv
             (λ db', get_pushed_companies db c ⊆ get_pushed_companies db' c));
      [|done]. intros l0. apply push_all_pushed.
  - apply (push_new_exported_inv
             (λ db', get_pushed_companies db c ⊆ get_pushed_companies db' c));
      [|done]. intros l0. apply push_new_pushed.
  - done.
Qed.

Lemma run_ops_pushed_mono ops db c :
  get_pushed_companies db c ⊆ get_pushed_companies (run_ops ops db) c.
Proof.
  unfold run_ops. revert db. induction ops as [|op ops IH]; intros db; [done|].
  simpl. etrans; [apply (run_op_pushed_mono op)|apply IH].
Qed.

(** C3.  After a [mark_companies_as_pushed c S] that is stored, whatever
    operations follow, the pushed set read for [c] contains every name of
    [S]; a mark that is not stored leaves the store as it was; and no
    operation of the engine removes a name from the pushed set of any
    campaign. *)
Theorem pushed_set_only_grows (c : string) (S : list string) (now : Z) (db : DB)
    (ops : list Op) :
  list_to_set S ⊆ get_pushed_companies
                    (run_ops ops (mark_companies_as_pushed c S now true db)) c
  ∧ mark_companies_as_pushed c S now false db = db
  ∧ (∀ (op : Op) (db0 : DB) (c0 x : string),
       x ∈ get_pushed_companies db0 c0 →
       x ∈ get_pushed_companies (run_op op db0) c0).
Proof.
  split; [|split].
  - etrans; [|apply run_ops_pushed_mono]. rewrite get_pushed_mark.
    rewrite decide_True by done. set_solver.
  - reflexivity.
  - intros op db0 c0 x. apply run_op_pushed_mono.
Qed.

(** A mark that is not stored: the read that follows does not contain the
    marked name. *)
Lemma mark_dropped_is_not_read :
  "Acme" ∈ (list_to_set ["Acme"] : gset string)
  ∧ "Acme" ∉ get_pushed_companies
               (mark_companies_as_pushed "A" ["Acme"] 1 false empty_db) "A".
Proof.
  split; apply (bool_decide_unpack _); vm_compute; exact I.
Qed.

Lemma push_new_payload c l ok stored now db :
  ∃ res, (push_new_companies c l ok stored now db).2 = Returned res
    ∧ NoDup (payload res)
    ∧ ∀ x, x ∈ payload res →
        (x ∉ get_pushed_companies db c)
        ∧ ok = true
        ∧ (stored = true →
           x ∈ get_pushed_companies (push_new_companies c l ok stored now db).1 c).
Proof.
  unfold push_new_companies, push_new_body.
  destruct l as [|x0 l]; simpl.
  { eexists; split; [done|]. split; [constructor|]. intros x Hx. inversion Hx. }
  case_decide; simpl.
  { eexists; split; [done|]. split; [constructor|]. intros x Hx. inversion Hx. }
  case_decide; simpl.
  { eexists; split; [done|]. split; [constructor|]. intros x Hx. inversion Hx. }
  destruct ok; simpl.
  - eexists; split; [done|]. simpl. split; [apply NoDup_elements|].
    intros x Hx. apply elem_of_elements in Hx.
    split; [unfold get_new_companies in *; set_solver|]. split; [done|].
    intros ->. rewrite log_push_activity_id, get_pushed_mark.
    rewrite decide_True by done. set_solver.
  - eexists; split; [done|]. split; [constructor|]. intros x Hx. inversion Hx.
Qed.

Lemma returned_companies_cons r rs :
  returned_companies (r :: rs)
  = match r with
    | Returned res => payload res
    | Raised _ => []
    end ++ returned_companies rs.
Proof. reflexivity. Qed.

(** No call of the sequence returns a company that was pushed before the
    sequence started. *)
Lemma push_new_calls_unpushed c calls db x :
  x ∈ returned_companies (push_new_calls c calls db).2 →
  x ∉ get_pushed_companies db c.
Proof.
  revert db. induction calls as [|k calls IH]; intros db Hx.
  { inversion Hx. }
  simpl in Hx. rewrite returned_companies_cons in Hx.
  destruct (push_new_payload c (call_leads k) (call_webhook_ok k) (call_stored k)
              (call_now k) db) as (res & Hres & _ & Hfresh).
  rewrite Hres in Hx. apply elem_of_app in Hx as [Hx|Hx].
  - exact (proj1 (Hfresh x Hx)).
  - apply IH in Hx. intros Hdb. apply Hx. by apply push_new_pushed.
Qed.

(** C1.  Over a sequence of [push_new_companies] calls for one campaign
    whose current company set is stable or grows from call to call and in
    which the mark of every delivered payload is stored, the [companies]
    payloads of the successful calls, taken together, repeat no company
    name. *)
Theorem no_duplicate_notification (c : string) (calls : list PushCall) (db : DB) :
  stable_or_growing calls →
  marks_stored calls →
  NoDup (returned_companies (push_new_calls c calls db).2).
Proof.
  intros _ Hst. revert db. induction calls as [|k calls IH]; intros db.
  { constructor. }
  apply Forall_cons in Hst as [Hk Hst].
  simpl. rewrite returned_companies_cons.
  destruct (push_new_payload c (call_leads k) (call_webhook_ok k) (call_stored k)
              (call_now k) db) as (res & Hres & Hnd & Hfresh).
  rewrite Hres. apply NoDup_app. split; [done|]. split; [|by apply IH].
  intros x Hx Hx'. apply push_new_calls_unpushed in Hx'.
  apply Hx'. destruct (Hfresh x Hx) as (_ & Hok & Hin). apply Hin, Hk, Hok.
Qed.

(** Two calls, the second with one more company. *)
Lemma no_duplicate_notification_witness :
  NoDup (returned_companies
           (push_new_calls "A"
              [mkPushCall [acme; beta] true true 1;
               mkPushCall [acme; beta; gamma] true true 2]
              empty_db).2).
Proof.
  apply no_duplicate_notification.
  - simpl. split; [|exact I]. apply (bool_decide_unpack _). vm_compute. exact I.
  - repeat constructor.
Defined.

(** Two calls on the same two companies, the mark of the first one not
    stored: the second call returns the two companies again. *)
Lemma notification_repeated :
  let calls := [mkPushCall [acme; beta] true false 1;
                mkPushCall [acme; beta] true true 2] in
  stable_or_growing calls
  ∧ ¬ NoDup (returned_companies (push_new_calls "A" calls empty_db).2).
Proof.
  split.
  - simpl. split; [|exact I]. apply (bool_decide_unpack _). vm_compute. exact I.
  - apply (bool_decide_unpack _). vm_compute. exact I.
Qed.

(** C2.  For a non-empty current company set, [push_new_companies] computes
    the delta of the current set against the pushed set.  It answers "No new
    companies to push" exactly when the delta is empty.  With a non-empty
    delta and a delivery that succeeded it returns the delta as payload; a
    mark that is stored adds exactly the delta to the pushed set of the
    campaign, touching no other campaign, and a mark that is not stored
    leaves the store as it was.  With a delivery that failed it answers
    "Failed to push to webhook" and leaves the store as it was. *)
Theorem push_new_delta (c : string) (l : list Lead) (ok stored : bool) (now : Z)
    (db : DB) :
  extract_unique_companies l ≠ ∅ →
  let delta := get_new_companies db c (extract_unique_companies l) in
  let r := push_new_companies c l ok stored now db in
  (r.2 = Returned (PushFail "No new companies to push") ↔ delta = ∅)
  ∧ (delta ≠ ∅ → ok = true →
       r.2 = Returned (PushOk (size delta) (elements delta))
       ∧ (stored = true →
          get_pushed_companies r.1 c = get_pushed_companies db c ∪ delta
          ∧ ∀ c', c' ≠ c → get_pushed_companies r.1 c' = get_pushed_companies db c')
       ∧ (stored = false → r.1 = db))
  ∧ (delta ≠ ∅ → ok = false →
       r = (db, Returned (PushFail "Failed to push to webhook"))).
Proof.
  intros Hne delta r. subst delta r.
  unfold push_new_companies, push_new_body.
  destruct l as [|x0 l].
  { exfalso. apply Hne. reflexivity. }
  rewrite decide_False by done.
  case_decide as Hd; simpl.
  - split; [done|]. split; intros Hd'; by destruct Hd'.
  - split.
    { split; [|done]. destruct ok; simpl; discriminate. }
    split.
    + intros _ ->. simpl. split; [done|].
      rewrite log_push_activity_id. split.
      * intros ->. split.
        -- rewrite get_pushed_mark, decide_True by done.
           rewrite list_to_set_elements_L. set_solver.
        -- intros c' Hc'. rewrite get_pushed_mark, decide_False by done. done.
      * by intros ->.
    + by intros _ ->.
Qed.

(** A first push of two companies. *)
Lemma push_new_delta_witness :
  let r := push_new_companies "A" [acme; beta] true true 1 empty_db in
  r.2 = Returned (PushOk 2 (elements ({[ "Acme"; "Beta" ]} : gset string)))
  ∧ get_pushed_companies r.1 "A" = {[ "Acme"; "Beta" ]}.
Proof.
  assert (extract_unique_companies [acme; beta] ≠ ∅) as Hne.
  { apply (bool_decide_unpack _). vm_compute. exact I. }
  destruct (push_new_delta "A" [acme; beta] true true 1 empty_db Hne) as (_ & Hok & _).
  assert (get_new_companies empty_db "A" (extract_unique_companies [acme; beta]) ≠ ∅) as Hd.
  { apply (bool_decide_unpack _). vm_compute. exact I. }
  destruct (Hok Hd eq_refl) as (Hr & Hp & _). destruct (Hp eq_refl) as [Hp' _].
  split.
  - rewrite Hr. vm_compute. reflexivity.
  - rewrite Hp'. apply (bool_decide_unpack _). vm_compute. exact I.
Defined.

(** With a delivery that failed, a non-empty delta is neither returned nor
    recorded; with a delivery that succeeded and a mark that is not stored,
    it is returned and not recorded. *)
Lemma push_new_contract_counterexample :
  extract_unique_companies [acme] ≠ ∅
  ∧ ¬ push_new_contract "A" [acme] false true 1 empty_db
  ∧ ¬ push_new_contract "A" [acme] true false 1 empty_db.
Proof.
  assert (extract_unique_companies [acme] ∖ get_pushed_companies empty_db "A" ≠ ∅)
    as Hd.
  { apply (bool_decide_unpack _). vm_compute. exact I. }
  split; [|split].
  - apply (bool_decide_unpack _). vm_compute. exact I.
  - intros [_ H]. destruct (H Hd) as [Hr _]. vm_compute in Hr. discriminate Hr.
  - intros [_ H]. destruct (H Hd) as [_ Hp]. revert Hp.
    apply (bool_decide_unpack _). vm_compute. exact I.
Qed.

(** C8.  [push_all_companies] and [push_new_companies] never raise, whatever
    the export hands on: each call returns a result value, and a failing
    call returns [{success: False, error}]. *)
Theorem push_failure_is_returned (c : string) (exported : list Exported)
    (ok stored : bool) (now : Z) (db : DB) :
  (∃ r, (push_all_exported c exported ok stored now db).2 = Returned r
        ∧ (is_success r = false → ∃ e, r = PushFail e))
  ∧ (∃ r, (push_new_exported c exported ok stored now db).2 = Returned r
          ∧ (is_success r = false → ∃ e, r = PushFail e)).
Proof.
  split.
  - unfold push_all_exported.
    destruct (read_leads exported) as [l|e]; simpl; [|by eauto].
    unfold push_all_companies, push_all_body.
    destruct l as [|x0 l]; simpl; [by eauto|].
    case_decide; simpl; [by eauto|].
    destruct ok; simpl; [|by eauto].
    eexists; split; [done|]. discriminate.
  - unfold push_new_exported.
    destruct (read_leads exported) as [l|e]; simpl; [|by eauto].
    unfold push_new_companies, push_new_body.
    destruct l as [|x0 l]; simpl; [by eauto|].
    case_decide; simpl; [by eauto|].
    case_decide; simpl; [by eauto|].
    destruct ok; simpl; [|by eauto].
    eexists; split; [done|]. discriminate.
Qed.

(** Two campaigns get the same failure value, so the id cannot be read
    off it. *)
Lemma failure_without_campaign_id :
  (push_new_exported "A" [] true true 1 empty_db).2
    = Returned (PushFail "No leads found for campaign")
  ∧ (push_new_exported "B" [] true true 1 empty_db).2
    = Returned (PushFail "No leads found for campaign")
  ∧ ¬ failure_carries_campaign_id.
Proof.
  split; [reflexivity|]. split; [reflexivity|].
  intros [id_of H].
  assert (id_of (PushFail "No leads found for campaign") = "A") as HA.
  { apply (H "A" [] true true 1 empty_db). right. reflexivity. }
  assert (id_of (PushFail "No leads found for campaign") = "B") as HB.
  { apply (H "B" [] true true 1 empty_db). right. reflexivity. }
  rewrite HA in HB. discriminate HB.
Qed.

(** ** Campaign reconciliation *)

(** C5.  For the id sets of the store and of the snapshot, the added and
    the removed ids are disjoint, and together with the ids common to both
    they make up exactly the union of the two sets. *)
Theorem campaign_diff_partition (new_ids current_ids : gset string) :
  added_campaigns new_ids current_ids ## removed_campaigns new_ids current_ids
  ∧ added_campaigns new_ids current_ids ∪ (current_ids ∩ new_ids)
      ∪ removed_campaigns new_ids current_ids
    = current_ids ∪ new_ids.
Proof.
  unfold added_campaigns, removed_campaigns. split; [set_solver|].
  apply set_eq. intros x.
  destruct (decide (x ∈ new_ids)), (decide (x ∈ current_ids)); set_solver.
Qed.

Lemma current_campaigns_lookup db id :
  current_campaigns db !! id
  = match campaigns db !! id with
    | Some r => if c_is_active r then Some (c_name r, c_status r) else None
    | None => None
    end.
Proof.
  unfold current_campaigns. rewrite lookup_fmap, map_lookup_filter.
  destruct (campaigns db !! id) as [r|]; simpl; [|done].
  case_guard as Hg; simpl; destruct (c_is_active r); done.
Qed.

Lemma elem_of_current_campaign_ids db id :
  id ∈ current_campaign_ids db
  ↔ ∃ r, campaigns db !! id = Some r ∧ c_is_active r = true.
Proof.
  unfold current_campaign_ids. rewrite elem_of_dom, current_campaigns_lookup.
  destruct (campaigns db !! id) as [r|]; [destruct (c_is_active r) eqn:Ha|].
  - split; [eauto|]. by intros _.
  - split; [by intros [? ?]|]. intros (r' & [= <-] & ?). congruence.
  - split; [by intros [? ?]|]. by intros (? & ? & _).
Qed.

Lemma elem_of_new_campaign_ids l id :
  id ∈ new_campaign_ids l ↔ id ∈ map camp_id l.
Proof. unfold new_campaign_ids. by rewrite elem_of_list_to_set. Qed.

Lemma insert_change_log_campaign ty id name now db :
  insert_change_log ["change_type"; "campaign_id"; "campaign_name"]
    [Some ty; Some id; Some name] now db
  = Returned (mkDB (campaigns db) (leads db)
                (change_log db ++
                   [mkChangeLogRow (next_id cl_id (change_log db)) ty (Some id)
                      (Some name) None None None None None now])
                (sync_history db) (pushed_companies db) (pushed_seq db)).
Proof. reflexivity. Qed.

Lemma insert_change_log_update ty id name old new now db :
  insert_change_log
    ["change_type"; "campaign_id"; "campaign_name"; "old_value"; "new_value"]
    [Some ty; Some id; Some name; Some old; Some new] now db
  = Returned (mkDB (campaigns db) (leads db)
                (change_log db ++
                   [mkChangeLogRow (next_id cl_id (change_log db)) ty (Some id)
                      (Some name) None None None (Some old) (Some new) now])
                (sync_history db) (pushed_companies db) (pushed_seq db)).
Proof. reflexivity. Qed.

Lemma for_each_cons {A S} (body : A → S → outcome S) x l s :
  for_each body (x :: l) s = body x s ≫= for_each body l.
Proof. reflexivity. Qed.

Lemma add_campaign_step_in added now x st :
  camp_id x ∈ added →
  add_campaign_step added now x st
  = match campaigns st.1 !! camp_id x with
    | Some _ => Raised (IntegrityError "UNIQUE constraint failed: campaigns.id")
    | None =>
        Returned
          (mkDB (<[camp_id x := mkCampaignRow (camp_name x) (camp_status x) now now true]>
                   (campaigns st.1))
                (leads st.1)
                (change_log st.1 ++
                   [mkChangeLogRow (next_id cl_id (change_log st.1))
                      "campaign_added" (Some (camp_id x)) (Some (camp_name x))
                      None None None None None now])
                (sync_history st.1) (pushed_companies st.1)
                (pushed_seq st.1),
           bump_added st.2)
    end.
Proof.
  intros Hx. unfold add_campaign_step. rewrite decide_True by done.
  unfold insert_campaign. destruct (campaigns st.1 !! camp_id x); reflexivity.
Qed.

Lemma add_campaign_step_out added now x st :
  camp_id x ∉ added → add_campaign_step added now x st = Returned st.
Proof. intros Hx. unfold add_campaign_step. by rewrite decide_False. Qed.

Lemma add_loop_raises added now id l :
  id ∈ added → id ∈ map camp_id l →
  ∀ st, is_Some (campaigns st.1 !! id) →
  for_each (add_campaign_step added now) l st
  = Raised (IntegrityError "UNIQUE constraint failed: campaigns.id").
Proof.
  intros Hadded. induction l as [|x l IH]; intros Hin st Hsome.
  { inversion Hin. }
  rewrite for_each_cons.
  destruct (decide (camp_id x ∈ added)) as [Hx|Hx].
  - rewrite add_campaign_step_in by done.
    destruct (campaigns st.1 !! camp_id x) eqn:Hl; [reflexivity|].
    simpl. apply IH.
    + apply elem_of_cons in Hin as [->|Hin]; [|done].
      rewrite Hl in Hsome. by destruct Hsome.
    + simpl. rewrite lookup_insert_ne; [done|].
      intros Heq. rewrite <- Heq, Hl in Hsome. by destruct Hsome.
  - rewrite add_campaign_step_out by done. simpl. apply IH; [|done].
    apply elem_of_cons in Hin as [->|Hin]; [done|done].
Qed.

Lemma remove_campaign_step_eq current now id st n s :
  current !! id = Some (n, s) →
  remove_campaign_step current now id st
  = Returned
      (mkDB (alter (λ r, mkCampaignRow (c_name r) (c_status r) (c_created_at r)
                           now false) id (campaigns st.1))
            (leads st.1)
            (change_log st.1 ++
               [mkChangeLogRow (next_id cl_id (change_log st.1))
                  "campaign_removed" (Some id) (Some n)
                  None None None None None now])
            (sync_history st.1) (pushed_companies st.1)
                (pushed_seq st.1),
       bump_removed st.2).
Proof. intros H. unfold remove_campaign_step. rewrite H. reflexivity. Qed.

Lemma update_campaign_step_absent current now x st :
  current !! camp_id x = None →
  update_campaign_step current now x st = Returned st.
Proof.
  intros H. unfold update_campaign_step.
  rewrite decide_False; [done|]. by apply not_elem_of_dom.
Qed.

Lemma update_campaign_step_same current now x st :
  current !! camp_id x = Some (camp_name x, camp_status x) →
  update_campaign_step current now x st = Returned st.
Proof.
  intros H. unfold update_campaign_step. rewrite H.
  rewrite decide_True by (apply elem_of_dom; eauto).
  rewrite bool_decide_eq_false_2; [done|]. intros [?|?]; congruence.
Qed.

Lemma update_campaign_step_diff current now x st n s :
  current !! camp_id x = Some (n, s) →
  n ≠ camp_name x ∨ s ≠ camp_status x →
  update_campaign_step current now x st
  = Returned
      (mkDB (alter (λ r, mkCampaignRow (camp_name x) (camp_status x)
                           (c_created_at r) now (c_is_active r))
                   (camp_id x) (campaigns st.1))
            (leads st.1)
            (change_log st.1 ++
               [mkChangeLogRow (next_id cl_id (change_log st.1))
                  "campaign_updated" (Some (camp_id x)) (Some (camp_name x))
                  None None None
                  (Some (json_dumps_name_status n s))
                  (Some (json_dumps_name_status (camp_name x) (camp_status x)))
                  now])
            (sync_history st.1) (pushed_companies st.1)
                (pushed_seq st.1),
       bump_updated st.2).
Proof.
  intros H Hd. unfold update_campaign_step. rewrite H.
  rewrite decide_True by (apply elem_of_dom; eauto).
  rewrite bool_decide_eq_true_2 by done. reflexivity.
Qed.

(** The three loops never raise on their own account: the only statement
    of [update_campaigns] that can fail is the insert of a campaign. *)
Lemma update_campaign_step_cases current now x st :
  update_campaign_step current now x st = Returned st
  ∨ ∃ n s, current !! camp_id x = Some (n, s)
           ∧ (n ≠ camp_name x ∨ s ≠ camp_status x).
Proof.
  destruct (current !! camp_id x) as [[n s]|] eqn:H.
  - destruct (decide (n ≠ camp_name x ∨ s ≠ camp_status x)) as [Hd|Hd].
    + right. eauto.
    + left. apply update_campaign_step_same. rewrite H.
      destruct (decide (n = camp_name x)) as [->|Hn]; [|tauto].
      destruct (decide (s = camp_status x)) as [->|Hs]; [done|tauto].
  - left. by apply update_campaign_step_absent.
Qed.

(** A soft-deleted row stays soft-deleted through every step of the three
    loops. *)
Lemma add_step_inactive added now id x (s s' : DB * Stats) :
  add_campaign_step added now x s = Returned s' →
  inactive_at id (campaigns s.1) → inactive_at id (campaigns s'.1).
Proof.
  intros Hb (r & Hr & Ha).
  destruct (decide (camp_id x ∈ added)) as [Hx|Hx].
  - rewrite add_campaign_step_in in Hb by done.
    destruct (campaigns s.1 !! camp_id x) eqn:Hl; [discriminate|].
    injection Hb as <-. exists r. split; [|done]. simpl.
    rewrite lookup_insert_ne; [done|]. congruence.
  - rewrite add_campaign_step_out in Hb by done. injection Hb as <-. by exists r.
Qed.

Lemma remove_step_inactive current now id x (s s' : DB * Stats) :
  remove_campaign_step current now x s = Returned s' →
  inactive_at id (campaigns s.1) → inactive_at id (campaigns s'.1).
Proof.
  intros Hb (r & Hr & Ha). unfold remove_campaign_step in Hb.
  destruct (current !! x) as [[n st]|] eqn:Hc; [|discriminate].
  injection Hb as <-. simpl. unfold inactive_at. rewrite lookup_alter.
  case_decide; subst; rewrite Hr; simpl; eauto.
Qed.

Lemma update_step_inactive current now id x (s s' : DB * Stats) :
  update_campaign_step current now x s = Returned s' →
  inactive_at id (campaigns s.1) → inactive_at id (campaigns s'.1).
Proof.
  intros Hb (r & Hr & Ha).
  destruct (update_campaign_step_cases current now x s) as [He|(n & st & Hc & Hd)].
  - rewrite He in Hb. injection Hb as <-. by exists r.
  - rewrite (update_campaign_step_diff _ _ _ _ _ _ Hc Hd) in Hb.
    injection Hb as <-. simpl. unfold inactive_at. rewrite lookup_alter.
    case_decide; subst; rewrite Hr; simpl; eauto.
Qed.

Lemma update_campaigns_inactive l now db id :
  inactive_at id (campaigns db) →
  inactive_at id (campaigns (update_campaigns l now db).1).
Proof.
  intros Hin. unfold update_campaigns.
  destruct (update_campaigns_txn l now db) as [[db' st]|e] eqn:H; [|done].
  simpl. unfold update_campaigns_txn in H.
  apply bind_Returned in H as (st1 & H1 & H).
  apply bind_Returned in H as (st2 & H2 & H).
  apply bind_Returned in H as (st3 & H3 & H).
  injection H as <- <-. simpl.
  eapply (for_each_inv (λ s, inactive_at id (campaigns s.1))) in H3; [done| |].
  { intros x s s' _. apply update_step_inactive. }
  eapply (for_each_inv (λ s, inactive_at id (campaigns s.1))) in H2; [done| |].
  { intros x s s' _. apply remove_step_inactive. }
  eapply (for_each_inv (λ s, inactive_at id (campaigns s.1))) in H1; [done| |done].
  intros x s s' _. apply add_step_inactive.
Qed.

Lemma run_op_inactive op db id :
  inactive_at id (campaigns db) → inactive_at id (campaigns (run_op op db)).
Proof.
  apply (run_op_inv (λ d, inactive_at id (campaigns d))).
  - intros l now d H. by apply update_campaigns_inactive.
  - intros c n l now d H. by rewrite (proj1 (track_lead_changes_frame _ _ _ _ _)).
  - intros d a r d0 H. by rewrite patch_latest_sync_campaigns.
  - intros c names now stored d H. by rewrite mark_campaigns.
Qed.

Lemma run_ops_inactive ops db id :
  inactive_at id (campaigns db) → inactive_at id (campaigns (run_ops ops db)).
Proof.
  unfold run_ops. revert db. induction ops as [|op ops IH]; intros db Hin; [done|].
  simpl. apply IH. by apply run_op_inactive.
Qed.

(** C10.  When the snapshot lists the id of a soft-deleted row, the id
    counts as added (the current ids are read from active rows only), the
    insert of a second row under the same primary key makes
    [update_campaigns] raise with the store unchanged, and the row stays
    inactive through every later operation. *)
Theorem soft_deleted_campaign_reappears (db : DB) (id : string) (r : CampaignRow)
    (new_campaigns : list Campaign) (now : Z) :
  campaigns db !! id = Some r →
  c_is_active r = false →
  id ∈ map camp_id new_campaigns →
  id ∈ added_campaigns (new_campaign_ids new_campaigns) (current_campaign_ids db)
  ∧ update_campaigns new_campaigns now db
    = (db, Raised (IntegrityError "UNIQUE constraint failed: campaigns.id"))
  ∧ ∀ ops : list Op,
      ∃ r', campaigns (run_ops ops db) !! id = Some r' ∧ c_is_active r' = false.
Proof.
  intros Hr Ha Hin.
  assert (id ∈ added_campaigns (new_campaign_ids new_campaigns)
                 (current_campaign_ids db)) as Hadded.
  { unfold added_campaigns. apply elem_of_difference. split.
    - by apply elem_of_new_campaign_ids.
    - rewrite elem_of_current_campaign_ids. intros (r' & Hr' & Ha'). congruence. }
  split; [done|]. split.
  - unfold update_campaigns, update_campaigns_txn.
    rewrite (add_loop_raises _ now id new_campaigns Hadded Hin (db, stats0));
      [reflexivity|]. simpl. rewrite Hr. eauto.
  - intros ops. apply run_ops_inactive. exists r. eauto.
Qed.

(** Campaign A comes back after its soft-delete. *)
Lemma soft_deleted_campaign_reappears_witness :
  update_campaigns [campaign_a] 30 db_a_removed
  = (db_a_removed, Raised (IntegrityError "UNIQUE constraint failed: campaigns.id")).
Proof.
  refine (proj1 (proj2 (soft_deleted_campaign_reappears db_a_removed "A"
                    (mkCampaignRow "X" "running" 10 20 false) [campaign_a] 30
                    _ _ _))).
  - vm_compute. reflexivity.
  - reflexivity.
  - simpl. apply list_elem_of_here.
Defined.

(** *** What each loop does to the campaigns table and to the change log *)

Lemma add_loop_other added now id l (st st' : DB * Stats) :
  for_each (add_campaign_step added now) l st = Returned st' →
  id ∉ map camp_id l ∨ id ∉ added →
  campaigns st'.1 !! id = campaigns st.1 !! id.
Proof.
  intros Hrun Hid.
  eapply (for_each_inv (λ s, campaigns s.1 !! id = campaigns st.1 !! id)) in Hrun;
    [done| |done].
  intros x s s' Hx Hb Hs.
  destruct (decide (camp_id x ∈ added)) as [Hxa|Hxa].
  - rewrite add_campaign_step_in in Hb by done.
    destruct (campaigns s.1 !! camp_id x) eqn:Hl; [discriminate|].
    injection Hb as <-. simpl. rewrite lookup_insert_ne; [done|].
    intros <-. destruct Hid as [Hid|Hid]; [|done].
    apply Hid, list_elem_of_fmap. eauto.
  - rewrite add_campaign_step_out in Hb by done. by injection Hb as <-.
Qed.

Lemma for_each_log_ext {A} (P : ChangeLogRow → Prop)
    (body : A → DB * Stats → outcome (DB * Stats)) l :
  (∀ x s s', body x s = Returned s' →
     ∃ ext, change_log s'.1 = change_log s.1 ++ ext ∧ Forall P ext) →
  ∀ s s', for_each body l s = Returned s' →
    ∃ ext, change_log s'.1 = change_log s.1 ++ ext ∧ Forall P ext.
Proof.
  intros Hstep s s' Hrun.
  eapply (for_each_inv
            (λ t, ∃ ext, change_log t.1 = change_log s.1 ++ ext ∧ Forall P ext))
    in Hrun; [done| |].
  - intros x t t' _ Hb (ext & He & HP).
    destruct (Hstep x t t' Hb) as (ext' & He' & HP').
    exists (ext ++ ext'). split.
    + by rewrite He', He, app_assoc.
    + by apply Forall_app.
  - exists []. split; [by rewrite app_nil_r|constructor].
Qed.

Lemma add_loop_log added now l (st st' : DB * Stats) :
  for_each (add_campaign_step added now) l st = Returned st' →
  ∃ ext, change_log st'.1 = change_log st.1 ++ ext
         ∧ Forall (λ e, cl_change_type e = "campaign_added") ext.
Proof.
  apply for_each_log_ext. intros x s s' Hb.
  destruct (decide (camp_id x ∈ added)) as [Hxa|Hxa].
  - rewrite add_campaign_step_in in Hb by done.
    destruct (campaigns s.1 !! camp_id x) eqn:Hl; [discriminate|].
    injection Hb as <-. simpl. eexists. split; [done|]. by repeat constructor.
  - rewrite add_campaign_step_out in Hb by done. injection Hb as <-.
    exists []. split; [by rewrite app_nil_r|constructor].
Qed.

Lemma update_loop_other current now id l (st st' : DB * Stats) :
  for_each (update_campaign_step current now) l st = Returned st' →
  id ∉ map camp_id l ∨ current !! id = None →
  campaigns st'.1 !! id = campaigns st.1 !! id.
Proof.
  intros Hrun Hid.
  eapply (for_each_inv (λ s, campaigns s.1 !! id = campaigns st.1 !! id)) in Hrun;
    [done| |done].
  intros x s s' Hx Hb Hs.
  destruct (update_campaign_step_cases current now x s) as [He|(n & t & Hc & Hd)].
  - rewrite He in Hb. by injection Hb as <-.
  - rewrite (update_campaign_step_diff _ _ _ _ _ _ Hc Hd) in Hb.
    injection Hb as <-. simpl. rewrite lookup_alter_ne; [done|].
    intros <-. destruct Hid as [Hid|Hid]; [|congruence].
    apply Hid, list_elem_of_fmap. eauto.
Qed.

Lemma update_loop_log current now l (st st' : DB * Stats) :
  for_each (update_campaign_step current now) l st = Returned st' →
  ∃ ext, change_log st'.1 = change_log st.1 ++ ext
         ∧ Forall (λ e, cl_change_type e = "campaign_updated") ext.
Proof.
  apply for_each_log_ext. intros x s s' Hb.
  destruct (update_campaign_step_cases current now x s) as [He|(n & t & Hc & Hd)].
  - rewrite He in Hb. injection Hb as <-.
    exists []. split; [by rewrite app_nil_r|constructor].
  - rewrite (update_campaign_step_diff _ _ _ _ _ _ Hc Hd) in Hb.
    injection Hb as <-. simpl. eexists. split; [done|]. by repeat constructor.
Qed.

Lemma soft_deleted_idemp now (o : option CampaignRow) :
  soft_deleted now <$> (soft_deleted now <$> o) = soft_deleted now <$> o.
Proof. by destruct o. Qed.

Lemma remove_loop_spec current now ids :
  ∀ st st' : DB * Stats,
  for_each (remove_campaign_step current now) ids st = Returned st' →
  (∀ j, campaigns st'.1 !! j
        = if decide (j ∈ ids) then soft_deleted now <$> campaigns st.1 !! j
          else campaigns st.1 !! j)
  ∧ ∃ ext, change_log st'.1 = change_log st.1 ++ ext
           ∧ ∀ id, length (filter (is_removal_of id) ext)
                   = length (filter (λ j, j = id) ids).
Proof.
  induction ids as [|i ids IH]; intros st st' Hrun.
  { injection Hrun as <-. split; [done|]. exists []. by rewrite app_nil_r. }
  rewrite for_each_cons in Hrun.
  apply bind_Returned in Hrun as (s1 & H1 & Hrest).
  unfold remove_campaign_step in H1.
  destruct (current !! i) as [[n t]|] eqn:Hc; [|discriminate].
  injection H1 as <-.
  destruct (IH _ _ Hrest) as (Hlook & ext & Hlog & Hcount). simpl in *.
  split.
  - intros j. rewrite Hlook. fold (soft_deleted now).
    destruct (decide (j = i)) as [->|Hji].
    + rewrite lookup_alter_eq.
      rewrite (decide_True (P := i ∈ i :: ids)) by apply list_elem_of_here.
      case_decide; [apply soft_deleted_idemp|done].
    + rewrite lookup_alter_ne by done.
      destruct (decide (j ∈ ids)) as [Hj|Hj].
      * rewrite decide_True; [done|]. by apply list_elem_of_further.
      * rewrite decide_False; [done|]. intros [?|?]%elem_of_cons; done.
  - eexists. split; [rewrite Hlog, <- app_assoc; reflexivity|].
    intros id. rewrite filter_app, length_app, Hcount.
    rewrite filter_cons. simpl.
    destruct (decide (i = id)) as [->|Hne].
    + rewrite (decide_True (P := is_removal_of id _)) by done.
      rewrite filter_cons_True by done. done.
    + rewrite (decide_False (P := is_removal_of id _)).
      * rewrite filter_cons_False by done. done.
      * intros [_ Hid]. simpl in Hid. congruence.
Qed.

Lemma filter_none {A} (P : A → Prop) `{!∀ x, Decision (P x)} (l : list A) :
  Forall (λ x, ¬ P x) l → filter P l = [].
Proof.
  induction 1 as [|x l Hx _ IH]; [done|].
  by rewrite filter_cons_False.
Qed.

Lemma filter_eq_NoDup (id : string) (ids : list string) :
  NoDup ids → id ∈ ids → length (filter (λ j, j = id) ids) = 1%nat.
Proof.
  induction 1 as [|x ids Hx Hnd IH]; intros Hin; [inversion Hin|].
  destruct (decide (x = id)) as [->|Hne].
  - rewrite filter_cons_True by done. simpl. f_equal.
    apply length_zero_iff_nil. apply filter_none.
    apply Forall_forall. intros y Hy ->. done.
  - rewrite filter_cons_False by done. apply IH.
    apply elem_of_cons in Hin as [?|?]; [congruence|done].
Qed.

Lemma filter_removal_other id ty (ext : list ChangeLogRow) :
  ty ≠ "campaign_removed" →
  Forall (λ e, cl_change_type e = ty) ext →
  filter (is_removal_of id) ext = [].
Proof.
  intros Hty HF. apply filter_none. eapply Forall_impl; [exact HF|].
  intros e He [Hr _]. congruence.
Qed.

Lemma update_campaigns_txn_inv l now db db' st :
  update_campaigns_txn l now db = Returned (db', st) →
  ∃ st1 st2 st3,
    for_each (add_campaign_step
                (added_campaigns (new_campaign_ids l) (current_campaign_ids db)) now)
      l (db, stats0) = Returned st1
    ∧ for_each (remove_campaign_step (current_campaigns db) now)
        (elements (removed_campaigns (new_campaign_ids l) (current_campaign_ids db)))
        st1 = Returned st2
    ∧ for_each (update_campaign_step (current_campaigns db) now) l st2 = Returned st3
    ∧ campaigns db' = campaigns st3.1
    ∧ change_log db' = change_log st3.1
    ∧ st = st3.2.
Proof.
  unfold update_campaigns_txn. intros H.
  apply bind_Returned in H as (st1 & H1 & H).
  apply bind_Returned in H as (st2 & H2 & H).
  apply bind_Returned in H as (st3 & H3 & H).
  injection H as <- <-. exists st1, st2, st3. done.
Qed.

(** The effect of a completed reconciliation on an active campaign that the
    snapshot no longer lists. *)
Lemma soft_delete_effect (db : DB) (id : string) (r : CampaignRow)
    (new_campaigns : list Campaign) (now : Z) (db' : DB) (stats : Stats) :
  campaigns db !! id = Some r →
  c_is_active r = true →
  id ∉ map camp_id new_campaigns →
  update_campaigns new_campaigns now db = (db', Returned stats) →
  campaigns db' !! id
  = Some (mkCampaignRow (c_name r) (c_status r) (c_created_at r) now false)
  ∧ ∃ appended, change_log db' = change_log db ++ appended
                ∧ length (filter (is_removal_of id) appended) = 1%nat.
Proof.
  intros Hr Ha Hnot Hrun. unfold update_campaigns in Hrun.
  destruct (update_campaigns_txn new_campaigns now db) as [[d s]|e] eqn:Htxn;
    [|discriminate].
  injection Hrun as -> ->.
  apply update_campaigns_txn_inv in Htxn
    as (st1 & st2 & st3 & H1 & H2 & H3 & Hc & Hl & _).
  assert (id ∈ removed_campaigns (new_campaign_ids new_campaigns)
                 (current_campaign_ids db)) as Hrem.
  { unfold removed_campaigns. apply elem_of_difference. split.
    - apply elem_of_current_campaign_ids. eauto.
    - by rewrite elem_of_new_campaign_ids. }
  destruct (remove_loop_spec _ _ _ _ _ H2) as (Hlook & ext2 & Hlog2 & Hcount).
  destruct (add_loop_log _ _ _ _ _ H1) as (ext1 & Hlog1 & HF1).
  destruct (update_loop_log _ _ _ _ _ H3) as (ext3 & Hlog3 & HF3).
  split.
  - rewrite Hc, (update_loop_other _ _ id _ _ _ H3) by (by left).
    rewrite Hlook, decide_True by (by apply elem_of_elements).
    rewrite (add_loop_other _ _ id _ _ _ H1) by (by left).
    simpl. by rewrite Hr.
  - exists (ext1 ++ ext2 ++ ext3). split.
    + rewrite Hl, Hlog3, Hlog2, Hlog1. simpl. by rewrite <- !app_assoc.
    + rewrite !filter_app, !length_app, Hcount.
      rewrite (filter_removal_other id "campaign_added" ext1 ltac:(done) HF1).
      rewrite (filter_removal_other id "campaign_updated" ext3 ltac:(done) HF3).
      simpl. rewrite Nat.add_0_r. apply filter_eq_NoDup.
      * apply NoDup_elements.
      * by apply elem_of_elements.
Qed.

(** *** Reconciling the same snapshot twice *)

Lemma add_loop_added added now l :
  NoDup (map camp_id l) →
  ∀ st st' : DB * Stats,
  for_each (add_campaign_step added now) l st = Returned st' →
  ∀ c, c ∈ l → camp_id c ∈ added →
  campaigns st'.1 !! camp_id c
  = Some (mkCampaignRow (camp_name c) (camp_status c) now now true).
Proof.
  induction l as [|x l IH]; intros Hnd st st' Hrun c Hc Hadded.
  { inversion Hc. }
  apply NoDup_cons in Hnd as [Hx Hnd].
  rewrite for_each_cons in Hrun.
  apply bind_Returned in Hrun as (s1 & H1 & Hrest).
  apply elem_of_cons in Hc as [->|Hc].
  - rewrite add_campaign_step_in in H1 by done.
    destruct (campaigns st.1 !! camp_id x) eqn:Hl; [discriminate|].
    injection H1 as <-.
    rewrite (add_loop_other _ _ (camp_id x) _ _ _ Hrest) by (by left).
    simpl. by rewrite lookup_insert_eq.
  - by eapply IH.
Qed.

Lemma update_step_other current now id x (s s' : DB * Stats) :
  update_campaign_step current now x s = Returned s' →
  id ≠ camp_id x →
  campaigns s'.1 !! id = campaigns s.1 !! id.
Proof.
  intros Hb Hne.
  apply (update_loop_other current now id [x] s s').
  - rewrite for_each_cons, Hb. reflexivity.
  - left. simpl. intros [?|?]%elem_of_cons; [done|]. by eapply not_elem_of_nil.
Qed.

Lemma update_loop_at current now l :
  NoDup (map camp_id l) →
  ∀ st st' : DB * Stats,
  for_each (update_campaign_step current now) l st = Returned st' →
  ∀ c n s r, c ∈ l →
    current !! camp_id c = Some (n, s) →
    campaigns st.1 !! camp_id c = Some r → c_name r = n → c_status r = s →
    ∃ r', campaigns st'.1 !! camp_id c = Some r'
          ∧ c_name r' = camp_name c ∧ c_status r' = camp_status c
          ∧ c_is_active r' = c_is_active r.
Proof.
  induction l as [|x l IH]; intros Hnd st st' Hrun c n s r Hc Hcur Hr Hn Hs.
  { inversion Hc. }
  apply NoDup_cons in Hnd as [Hx Hnd].
  rewrite for_each_cons in Hrun.
  apply bind_Returned in Hrun as (s1 & H1 & Hrest).
  apply elem_of_cons in Hc as [->|Hc].
  - rewrite (update_loop_other _ _ (camp_id x) _ _ _ Hrest) by (by left).
    destruct (decide (n ≠ camp_name x ∨ s ≠ camp_status x)) as [Hd|Hd].
    + rewrite (update_campaign_step_diff _ _ _ _ _ _ Hcur Hd) in H1.
      injection H1 as <-. simpl. rewrite lookup_alter_eq, Hr. simpl. eauto.
    + assert (n = camp_name x ∧ s = camp_status x) as [-> ->].
      { destruct (decide (n = camp_name x)); destruct (decide (s = camp_status x));
          tauto. }
      rewrite update_campaign_step_same in H1 by done. injection H1 as <-.
      exists r. eauto.
  - assert (camp_id c ≠ camp_id x) as Hne.
    { intros Heq. apply Hx. rewrite <- Heq. apply list_elem_of_fmap. eauto. }
    eapply IH; eauto.
    by rewrite (update_step_other _ _ _ _ _ _ H1 Hne).
Qed.

Lemma first_run_current l now db db1 st :
  NoDup (map camp_id l) →
  update_campaigns_txn l now db = Returned (db1, st) →
  (∀ c, c ∈ l → current_campaigns db1 !! camp_id c
                = Some (camp_name c, camp_status c))
  ∧ (∀ id, id ∉ map camp_id l → current_campaigns db1 !! id = None).
Proof.
  intros Hnd Htxn.
  apply update_campaigns_txn_inv in Htxn
    as (st1 & st2 & st3 & H1 & H2 & H3 & Hc & _ & _).
  destruct (remove_loop_spec _ _ _ _ _ H2) as (Hlook & _).
  split.
  - intros c Hin. rewrite current_campaigns_lookup, Hc.
    assert (camp_id c ∈ new_campaign_ids l) as Hnew.
    { apply elem_of_new_campaign_ids, list_elem_of_fmap. eauto. }
    assert (camp_id c ∉ elements (removed_campaigns (new_campaign_ids l)
                                    (current_campaign_ids db))) as Hnr.
    { rewrite elem_of_elements. unfold removed_campaigns. set_solver. }
    destruct (current_campaigns db !! camp_id c) as [[n s]|] eqn:Hcur.
    + pose proof Hcur as Hcur'. rewrite current_campaigns_lookup in Hcur'.
      destruct (campaigns db !! camp_id c) as [r|] eqn:Hr; [|discriminate].
      destruct (c_is_active r) eqn:Ha; [|discriminate].
      injection Hcur' as Hn Hs.
      assert (campaigns st2.1 !! camp_id c = Some r) as Hr2.
      { rewrite Hlook, decide_False by done.
        rewrite (add_loop_other _ _ (camp_id c) _ _ _ H1); [done|].
        right. unfold added_campaigns. intros [_ Hno]%elem_of_difference.
        apply Hno, elem_of_current_campaign_ids. eauto. }
      destruct (update_loop_at _ _ _ Hnd _ _ H3 c n s r Hin Hcur Hr2 Hn Hs)
        as (r' & -> & -> & -> & ->).
      by rewrite Ha.
    + rewrite (update_loop_other _ _ (camp_id c) _ _ _ H3) by (by right).
      rewrite Hlook, decide_False by done.
      rewrite (add_loop_added _ _ _ Hnd _ _ H1 c Hin); [done|].
      unfold added_campaigns. apply elem_of_difference. split; [done|].
      unfold current_campaign_ids. by apply not_elem_of_dom.
  - intros id Hid. rewrite current_campaigns_lookup, Hc.
    rewrite (update_loop_other _ _ id _ _ _ H3) by (by left).
    rewrite Hlook.
    rewrite (add_loop_other _ _ id _ _ _ H1) by (by left). simpl.
    case_decide as Hrem.
    + by destruct (campaigns db !! id).
    + destruct (campaigns db !! id) as [r|] eqn:Hr; [|done].
      destruct (c_is_active r) eqn:Ha; [|done].
      exfalso. apply Hrem. apply elem_of_elements.
      unfold removed_campaigns. apply elem_of_difference. split.
      * apply elem_of_current_campaign_ids. eauto.
      * by rewrite elem_of_new_campaign_ids.
Qed.

Lemma add_loop_noop added now l (st : DB * Stats) :
  (∀ c, c ∈ l → camp_id c ∉ added) →
  for_each (add_campaign_step added now) l st = Returned st.
Proof.
  induction l as [|x l IH]; intros H; [done|].
  rewrite for_each_cons, add_campaign_step_out by (apply H; left).
  simpl. apply IH. intros c Hc. apply H. by right.
Qed.

Lemma update_loop_noop current now l (st : DB * Stats) :
  (∀ c, c ∈ l → current !! camp_id c = Some (camp_name c, camp_status c)) →
  for_each (update_campaign_step current now) l st = Returned st.
Proof.
  induction l as [|x l IH]; intros H; [done|].
  rewrite for_each_cons, update_campaign_step_same by (apply H; left).
  simpl. apply IH. intros c Hc. apply H. by right.
Qed.

(** When the active rows of the store are exactly the campaigns of the
    snapshot, with the same names and statuses, a reconciliation changes
    nothing but the sync history. *)
Lemma reconcile_in_sync (db : DB) (new_campaigns : list Campaign) (now : Z) :
  (∀ c, c ∈ new_campaigns →
        current_campaigns db !! camp_id c = Some (camp_name c, camp_status c)) →
  (∀ id, id ∉ map camp_id new_campaigns → current_campaigns db !! id = None) →
  ∃ db', update_campaigns new_campaigns now db = (db', Returned stats0)
         ∧ change_log db' = change_log db.
Proof.
  intros Hin Hout.
  assert (current_campaign_ids db = new_campaign_ids new_campaigns) as Hids.
  { apply set_eq. intros id. unfold current_campaign_ids.
    rewrite elem_of_dom, elem_of_new_campaign_ids.
    destruct (decide (id ∈ map camp_id new_campaigns)) as [Hid|Hid].
    - apply list_elem_of_fmap in Hid as (c & -> & Hc). rewrite (Hin c Hc).
      split; [|eauto]. intros _. apply list_elem_of_fmap. eauto.
    - rewrite (Hout id Hid). split; [by intros [? ?]|done]. }
  unfold update_campaigns, update_campaigns_txn.
  rewrite Hids. unfold added_campaigns, removed_campaigns.
  rewrite difference_diag_L, elements_empty.
  rewrite add_loop_noop by (intros; apply not_elem_of_empty).
  simpl. rewrite update_loop_noop by done. simpl.
  eexists. split; reflexivity.
Qed.




(** *** When the reconciliation completes *)

Lemma add_loop_returns added now l :
  NoDup (map camp_id l) →
  ∀ st : DB * Stats,
  (∀ c, c ∈ l → camp_id c ∈ added → campaigns st.1 !! camp_id c = None) →
  ∃ st', for_each (add_campaign_step added now) l st = Returned st'.
Proof.
  induction l as [|x l IH]; intros Hnd st Hfree; [by eexists|].
  apply NoDup_cons in Hnd as [Hx Hnd].
  rewrite for_each_cons.
  destruct (decide (camp_id x ∈ added)) as [Hxa|Hxa].
  - rewrite add_campaign_step_in by done.
    rewrite (Hfree x) by (done || by left). simpl.
    apply IH; [done|]. intros c Hc Hca. simpl.
    rewrite lookup_insert_ne.
    + apply Hfree; [by right|done].
    + intros Heq. apply Hx. rewrite Heq. apply list_elem_of_fmap. eauto.
  - rewrite add_campaign_step_out by done. simpl.
    apply IH; [done|]. intros c Hc. apply Hfree. by right.
Qed.

Lemma remove_loop_returns current now ids :
  (∀ i, i ∈ ids → is_Some (current !! i)) →
  ∀ st : DB * Stats,
  ∃ st', for_each (remove_campaign_step current now) ids st = Returned st'.
Proof.
  induction ids as [|i ids IH]; intros Hcur st; [by eexists|].
  rewrite for_each_cons.
  destruct (Hcur i) as [[n s] Hi]; [by left|].
  rewrite (remove_campaign_step_eq _ _ _ _ _ _ Hi). simpl.
  apply IH. intros j Hj. apply Hcur. by right.
Qed.

Lemma update_loop_returns current now l :
  ∀ st : DB * Stats,
  ∃ st', for_each (update_campaign_step current now) l st = Returned st'.
Proof.
  induction l as [|x l IH]; intros st; [by eexists|].
  rewrite for_each_cons.
  destruct (update_campaign_step_cases current now x st) as [He|(n & s & Hc & Hd)].
  - rewrite He. simpl. apply IH.
  - rewrite (update_campaign_step_diff _ _ _ _ _ _ Hc Hd). simpl. apply IH.
Qed.

Lemma update_campaigns_returns l now db :
  reconcilable db l →
  ∃ db' stats, update_campaigns l now db = (db', Returned stats).
Proof.
  intros [Hnd Hnone]. unfold update_campaigns, update_campaigns_txn.
  destruct (add_loop_returns
              (added_campaigns (new_campaign_ids l) (current_campaign_ids db))
              now l Hnd (db, stats0)) as [st1 ->].
  { intros c Hc Hadded. simpl.
    destruct (campaigns db !! camp_id c) as [r|] eqn:Hr; [|done].
    exfalso. destruct (c_is_active r) eqn:Ha.
    - unfold added_campaigns in Hadded.
      apply elem_of_difference in Hadded as [_ Hno].
      apply Hno, elem_of_current_campaign_ids. eauto.
    - apply (Hnone c Hc). exists r. eauto. }
  cbv [mbind outcome_bind].
  destruct (remove_loop_returns (current_campaigns db) now
              (elements (removed_campaigns (new_campaign_ids l)
                           (current_campaign_ids db)))) with (st := st1)
    as [st2 ->].
  { intros i Hi. apply elem_of_elements in Hi. unfold removed_campaigns in Hi.
    apply elem_of_difference in Hi as [Hi _].
    unfold current_campaign_ids in Hi. by apply elem_of_dom in Hi. }
  destruct (update_loop_returns (current_campaigns db) now l st2) as [st3 ->].
  simpl. eauto.
Qed.

(** Reconciling twice is idempotent for every snapshot the store can
    take. *)
Corollary reconcile_twice_total (db : DB) (new_campaigns : list Campaign)
    (now1 now2 : Z) :
  reconcilable db new_campaigns →
  reconcile_idempotent db new_campaigns now1 now2.
Proof.
  intros Hok. destruct (update_campaigns_returns _ now1 _ Hok) as (db1 & st1 & H1).
  unfold reconcile_idempotent. rewrite H1. simpl.
  unfold update_campaigns in H1.
  destruct (update_campaigns_txn new_campaigns now1 db) as [[d s]|e] eqn:Htxn;
    [|discriminate].
  injection H1 as -> ->.
  destruct (first_run_current _ _ _ _ _ (proj1 Hok) Htxn) as [Hin Hout].
  destruct (reconcile_in_sync db1 new_campaigns now2 Hin Hout) as (db2 & -> & Hl).
  simpl. exists stats0. by repeat split.
Qed.

(** C6.  For an active campaign whose id the snapshot no longer lists, a
    reconciliation that returns leaves its row stored under the same id with
    name, status and creation time unchanged, [is_active = 0] and the new
    [last_updated], and appends exactly one [campaign_removed] entry for that
    campaign; a reconciliation that raises leaves the store as it was. *)
Theorem soft_delete_retains_history (locked : bool) (db : DB) (id : string)
    (r : CampaignRow) (new_campaigns : list Campaign) (now : Z) :
  campaigns db !! id = Some r →
  c_is_active r = true →
  id ∉ map camp_id new_campaigns →
  (∀ db' stats,
     update_campaigns_on locked new_campaigns now db = (db', Returned stats) →
     campaigns db' !! id
     = Some (mkCampaignRow (c_name r) (c_status r) (c_created_at r) now false)
     ∧ ∃ appended, change_log db' = change_log db ++ appended
                   ∧ length (filter (is_removal_of id) appended) = 1%nat)
  ∧ (∀ db' e,
       update_campaigns_on locked new_campaigns now db = (db', Raised e) →
       db' = db).
Proof.
  intros Hr Ha Hnot. unfold update_campaigns_on. split.
  - intros db' stats Hrun. destruct locked; [discriminate Hrun|].
    by eapply soft_delete_effect.
  - intros db' e Hrun. destruct locked; [by injection Hrun as <-|].
    unfold update_campaigns in Hrun.
    destruct (update_campaigns_txn new_campaigns now db) as [[d s]|e'];
      [discriminate Hrun|]. by injection Hrun as <-.
Qed.

(** Campaign A disappears from the snapshot. *)
Lemma soft_delete_retains_history_witness :
  campaigns db_a_removed !! "A" = Some (mkCampaignRow "X" "running" 10 20 false)
  ∧ ∃ appended, change_log db_a_removed = change_log db_with_a ++ appended
                ∧ length (filter (is_removal_of "A") appended) = 1%nat.
Proof.
  refine (proj1 (soft_delete_retains_history false db_with_a "A"
                   (mkCampaignRow "X" "running" 10 10 true) [] 20 _ _ _)
            db_a_removed (mkStats 0 1 0 0 0 ∅) _).
  - vm_compute. reflexivity.
  - reflexivity.
  - simpl. apply not_elem_of_nil.
  - vm_compute. reflexivity.
Defined.

(** Campaign A is active and campaign B soft-deleted; the snapshot lists B
    alone.  The insert of B raises before the loop that soft-deletes is
    reached: A stays active and no removal is logged. *)
Lemma soft_delete_skipped :
  ∃ r, campaigns db_b_removed !! "A" = Some r
       ∧ c_is_active r = true
       ∧ ("A" ∉ map camp_id [campaign_b])
       ∧ update_campaigns [campaign_b] 30 db_b_removed
         = (db_b_removed,
            Raised (IntegrityError "UNIQUE constraint failed: campaigns.id"))
       ∧ ¬ soft_delete_contract db_b_removed [campaign_b] 30 "A" r.
Proof.
  exists (mkCampaignRow "X" "running" 10 10 true).
  split; [vm_compute; reflexivity|]. split; [reflexivity|]. split.
  { apply (bool_decide_unpack _). vm_compute. exact I. }
  assert (update_campaigns [campaign_b] 30 db_b_removed
          = (db_b_removed,
             Raised (IntegrityError "UNIQUE constraint failed: campaigns.id")))
    as Hrun by (vm_compute; reflexivity).
  split; [exact Hrun|].
  unfold soft_delete_contract. rewrite Hrun. intros [Hrow _].
  vm_compute in Hrow. discriminate Hrow.
Qed.

(** ** The change-log query *)

Lemma index_insert_Permutation r idx : index_insert r idx ≡ₚ r :: idx.
Proof.
  induction idx as [|r' idx IH]; simpl; [done|].
  destruct (cl_change_timestamp r' <? cl_change_timestamp r); [done|].
  rewrite IH. apply Permutation_swap.
Qed.

Lemma foldl_index_insert_Permutation rows idx :
  foldl (λ idx r, index_insert r idx) idx rows ≡ₚ idx ++ rows.
Proof.
  revert idx. induction rows as [|r rows IH]; intros idx; simpl.
  - by rewrite app_nil_r.
  - rewrite IH, index_insert_Permutation.
    by rewrite (Permutation_middle idx rows r).
Qed.

Lemma order_by_timestamp_desc_Permutation rows :
  order_by_timestamp_desc rows ≡ₚ rows.
Proof. apply foldl_index_insert_Permutation. Qed.

(** Inserting into a sorted index keeps it sorted, for every order that
    agrees with the timestamps and accepts the new row at its place. *)
Lemma index_insert_sorted (R : relation ChangeLogRow) r idx :
  (∀ a b, R a b → cl_change_timestamp b ≤ cl_change_timestamp a) →
  (∀ a, a ∈ idx → cl_change_timestamp r ≤ cl_change_timestamp a → R a r) →
  (∀ b, b ∈ idx → cl_change_timestamp b < cl_change_timestamp r → R r b) →
  StronglySorted R idx → StronglySorted R (index_insert r idx).
Proof.
  intros Hdesc. induction idx as [|r' idx IH]; intros Hbefore Hafter Hs; simpl.
  { repeat constructor. }
  apply StronglySorted_cons in Hs as [Hall Hs].
  destruct (cl_change_timestamp r' <? cl_change_timestamp r) eqn:Hlt.
  - apply Z.ltb_lt in Hlt. constructor; [by constructor|].
    constructor.
    + apply Hafter; [by left|done].
    + apply Forall_forall. intros b Hb. apply Hafter; [by right|].
      rewrite Forall_forall in Hall. specialize (Hdesc _ _ (Hall b Hb)). lia.
  - apply Z.ltb_ge in Hlt. constructor.
    + apply IH; [| |done].
      * intros a Ha. apply Hbefore. by right.
      * intros b Hb. apply Hafter. by right.
    + apply Forall_forall. intros b Hb.
      rewrite index_insert_Permutation in Hb.
      apply elem_of_cons in Hb as [->|Hb].
      * apply Hbefore; [by left|done].
      * rewrite Forall_forall in Hall. by apply Hall.
Qed.

Lemma order_by_timestamp_desc_newest_first rows :
  newest_first (order_by_timestamp_desc rows).
Proof.
  unfold newest_first, order_by_timestamp_desc.
  assert (∀ idx, StronglySorted
                   (λ a b, cl_change_timestamp b ≤ cl_change_timestamp a) idx →
                 StronglySorted
                   (λ a b, cl_change_timestamp b ≤ cl_change_timestamp a)
                   (foldl (λ idx r, index_insert r idx) idx rows)) as H.
  { induction rows as [|r rows IH]; intros idx Hs; simpl; [done|].
    apply IH. apply index_insert_sorted; [done| |intros; lia|done].
    intros a _ Hle. done. }
  apply H. constructor.
Qed.

Lemma order_by_timestamp_desc_stable rows :
  ids_increase rows →
  newest_first_ties_ascending_id (order_by_timestamp_desc rows).
Proof.
  unfold newest_first_ties_ascending_id, order_by_timestamp_desc, ids_increase.
  set (R := λ a b : ChangeLogRow,
         cl_change_timestamp b < cl_change_timestamp a
         ∨ (cl_change_timestamp a = cl_change_timestamp b ∧ cl_id a < cl_id b)).
  assert (∀ idx, StronglySorted R idx →
                 (∀ a b, a ∈ idx → b ∈ rows → cl_id a < cl_id b) →
                 StronglySorted (λ a b, cl_id a < cl_id b) rows →
                 StronglySorted R (foldl (λ idx r, index_insert r idx) idx rows))
    as H.
  { induction rows as [|r rows IH]; intros idx Hs Hids Hinc; simpl; [done|].
    apply StronglySorted_cons in Hinc as [Hr Hinc].
    apply IH; [| |done].
    - apply index_insert_sorted; [| | |done].
      + intros a b [?|[? _]]; lia.
      + intros a Ha Hle. unfold R.
        assert (cl_id a < cl_id r) by (apply Hids; [done|by left]). lia.
      + intros b _ Hlt. by left.
    - intros a b Ha Hb. rewrite index_insert_Permutation in Ha.
      apply elem_of_cons in Ha as [->|Ha].
      + rewrite Forall_forall in Hr. by apply Hr.
      + apply Hids; [done|by right]. }
  intros Hinc. apply H; [constructor| |done].
  intros a b Ha. inversion Ha.
Qed.

Lemma get_change_log_rows_eq limit db :
  0 ≤ limit < 2 ^ 63 →
  get_change_log_rows limit db
  = take (Z.to_nat limit) (order_by_timestamp_desc (change_log db)).
Proof.
  intros [Hlo Hhi]. unfold get_change_log_rows, select_change_log, sql_limit.
  rewrite (proj2 (Z.ltb_ge limit (- 2 ^ 63))) by lia.
  rewrite (proj2 (Z.leb_gt (2 ^ 63) limit)) by lia.
  simpl. by rewrite (proj2 (Z.ltb_ge limit 0)) by lia.
Qed.

(** *** The identifiers of the change log increase *)

Lemma next_id_gt (rows : list ChangeLogRow) r :
  r ∈ rows → cl_id r < next_id cl_id rows.
Proof.
  unfold next_id. induction rows as [|x rows IH]; intros Hin; [inversion Hin|].
  simpl. apply elem_of_cons in Hin as [->|Hin]; [lia|].
  specialize (IH Hin). lia.
Qed.

Lemma ids_increase_snoc rows row :
  ids_increase rows → cl_id row = next_id cl_id rows →
  ids_increase (rows ++ [row]).
Proof.
  intros Hinc Hid. apply StronglySorted_app_2; [|done|by repeat constructor].
  intros a b Ha Hb. apply list_elem_of_singleton in Hb as ->.
  rewrite Hid. by apply next_id_gt.
Qed.

Lemma insert_change_log_ids cols vals now db db' :
  insert_change_log cols vals now db = Returned db' →
  ids_increase (change_log db) → ids_increase (change_log db').
Proof.
  intros H Hinc.
  apply insert_change_log_frame in H as (_ & _ & _ & _ & row & -> & Hid & _).
  by apply ids_increase_snoc.
Qed.

Lemma update_campaigns_ids l now db :
  ids_increase (change_log db) →
  ids_increase (change_log (update_campaigns l now db).1).
Proof.
  intros Hinc. unfold update_campaigns.
  destruct (update_campaigns_txn l now db) as [[db' st]|e] eqn:Htxn; [|done].
  simpl. apply update_campaigns_txn_inv in Htxn
    as (st1 & st2 & st3 & H1 & H2 & H3 & _ & -> & _).
  eapply (for_each_inv (λ s : DB * Stats, ids_increase (change_log s.1))) in H3;
    [done| |].
  { intros x s s' _ Hb Hs.
    destruct (update_campaign_step_cases (current_campaigns db) now x s)
      as [He|(n & t & Hc & Hd)].
    - rewrite He in Hb. by injection Hb as <-.
    - rewrite (update_campaign_step_diff _ _ _ _ _ _ Hc Hd) in Hb.
      injection Hb as <-. simpl. by apply ids_increase_snoc. }
  eapply (for_each_inv (λ s : DB * Stats, ids_increase (change_log s.1))) in H2;
    [done| |].
  { intros x s s' _ Hb Hs. unfold remove_campaign_step in Hb.
    destruct (current_campaigns db !! x) as [[n t]|]; [|discriminate].
    injection Hb as <-. simpl. by apply ids_increase_snoc. }
  eapply (for_each_inv (λ s : DB * Stats, ids_increase (change_log s.1))) in H1;
    [done| |done].
  intros x s s' _ Hb Hs.
  destruct (decide (camp_id x ∈ added_campaigns (new_campaign_ids l)
                                  (current_campaign_ids db))) as [Hx|Hx].
  - rewrite add_campaign_step_in in Hb by done.
    destruct (campaigns s.1 !! camp_id x); [discriminate|].
    injection Hb as <-. simpl. by apply ids_increase_snoc.
  - rewrite add_campaign_step_out in Hb by done. by injection Hb as <-.
Qed.

Lemma track_lead_changes_ids c n l now db :
  ids_increase (change_log db) →
  ids_increase (change_log (track_lead_changes c n l now db).1).
Proof.
  intros Hinc. unfold track_lead_changes.
  destruct (track_lead_changes_txn c n l now db) as [[db' ch]|e] eqn:Htxn; [|done].
  simpl. unfold track_lead_changes_txn in Htxn.
  apply bind_Returned in Htxn as (st1 & H1 & H).
  apply bind_Returned in H as (st2 & H2 & H).
  assert (ids_increase (change_log st2.1)) as Hst2.
  { eapply (for_each_inv (λ s : DB * Changes, ids_increase (change_log s.1))) in H2;
      [done| |].
    - intros x s s' _ Hb Hs. unfold remove_lead_step in Hb.
      destruct (_ !! _); [|discriminate].
      apply bind_Returned in Hb as (d & Hd & Hb). injection Hb as <-.
      by apply insert_change_log_ids in Hd.
    - eapply (for_each_inv (λ s : DB * Changes, ids_increase (change_log s.1))) in H1;
        [done| |done].
      intros x s s' _ Hb Hs. unfold add_lead_step in Hb.
      case_decide; [|by injection Hb as <-].
      apply bind_Returned in Hb as (d1 & Hd1 & Hb).
      apply bind_Returned in Hb as (d2 & Hd2 & Hb). injection Hb as <-.
      apply insert_change_log_ids in Hd2; [done|].
      apply insert_lead_frame in Hd1 as (_ & _ & -> & _). done. }
  case_decide.
  - apply bind_Returned in H as (d & Hd & H). injection H as <- _.
    by apply insert_change_log_ids in Hd.
  - by injection H as <- _.
Qed.

Lemma mark_change_log c names now stored db :
  change_log (mark_companies_as_pushed c names now stored db) = change_log db.
Proof.
  unfold mark_companies_as_pushed. destruct stored; [|done]. revert db.
  induction names as [|n names IH]; intros db; [done|].
  simpl. rewrite IH. unfold insert_or_ignore_pushed. by destruct (existsb _ _).
Qed.

Lemma patch_latest_sync_change_log d a r db :
  change_log (patch_latest_sync d a r db) = change_log db.
Proof. unfold patch_latest_sync. by destruct (latest_sync _). Qed.

Lemma run_op_ids op db :
  ids_increase (change_log db) → ids_increase (change_log (run_op op db)).
Proof.
  apply (run_op_inv (λ d, ids_increase (change_log d))).
  - intros l now d H. by apply update_campaigns_ids.
  - intros c n l now d H. by apply track_lead_changes_ids.
  - intros d a r d0 H. by rewrite patch_latest_sync_change_log.
  - intros c names now stored d H. by rewrite mark_change_log.
Qed.

(** Starting from the empty store, the identifiers of the change log
    increase along the table after every sequence of operations. *)
Lemma run_ops_ids ops : ids_increase (change_log (run_ops ops empty_db)).
Proof.
  assert (∀ db, ids_increase (change_log db) →
                ids_increase (change_log (run_ops ops db))) as H.
  { unfold run_ops. induction ops as [|op ops IH]; intros db Hdb; [done|].
    simpl. apply IH. by apply run_op_ids. }
  apply H. constructor.
Qed.

(** C7.  For a limit [0 <= N < 2^63], [get_change_log] returns
    [min N (size of the log)] rows, newest first, none of them older than a
    row it leaves out; rows with equal timestamps come in the order of the
    table, the smaller identifier first. *)
Theorem change_log_newest_first (limit : Z) (db : DB) :
  0 ≤ limit < 2 ^ 63 →
  let rows := get_change_log_rows limit db in
  length rows = Nat.min (Z.to_nat limit) (length (change_log db))
  ∧ newest_first rows
  ∧ (∃ rest, rows ++ rest ≡ₚ change_log db
             ∧ ∀ a b, a ∈ rows → b ∈ rest →
                      cl_change_timestamp b ≤ cl_change_timestamp a)
  ∧ (ids_increase (change_log db) → newest_first_ties_ascending_id rows).
Proof.
  intros Hlimit rows. subst rows. rewrite (get_change_log_rows_eq _ _ Hlimit).
  set (sorted := order_by_timestamp_desc (change_log db)).
  pose proof (order_by_timestamp_desc_newest_first (change_log db)) as Hs.
  fold sorted in Hs. unfold newest_first in *.
  rewrite <- (take_drop (Z.to_nat limit) sorted) in Hs.
  split; [|split; [|split]].
  - rewrite length_take. f_equal.
    apply Permutation_length, order_by_timestamp_desc_Permutation.
  - by eapply StronglySorted_app_1_l.
  - exists (drop (Z.to_nat limit) sorted). split.
    + rewrite take_drop. apply order_by_timestamp_desc_Permutation.
    + intros a b Ha Hb.
      by apply (StronglySorted_app_1_elem_of _ _ _ _ _ Hs).
  - intros Hinc. apply order_by_timestamp_desc_stable in Hinc.
    fold sorted in Hinc. unfold newest_first_ties_ascending_id in *.
    rewrite <- (take_drop (Z.to_nat limit) sorted) in Hinc.
    by eapply StronglySorted_app_1_l.
Qed.

(** The two entries of one reconciliation, written in the same second. *)
Lemma change_log_newest_first_witness :
  let rows := get_change_log_rows 2 db_with_a_b in
  length rows = 2%nat ∧ newest_first rows ∧ newest_first_ties_ascending_id rows.
Proof.
  destruct (change_log_newest_first 2 db_with_a_b) as (Hlen & Hs & _ & Hties).
  - vm_compute. split; [discriminate|reflexivity].
  - split; [exact Hlen|]. split; [exact Hs|]. apply Hties.
    unfold ids_increase. apply (bool_decide_unpack _). vm_compute. exact I.
Defined.

(** Two entries written in the same second come out with identifier 1
    before identifier 2. *)
Lemma change_log_ties_ascending_id :
  map cl_id (get_change_log_rows 2 db_with_a_b) = [1; 2]
  ∧ map cl_change_timestamp (get_change_log_rows 2 db_with_a_b) = [10; 10]
  ∧ ¬ newest_first_ties_descending_id (get_change_log_rows 2 db_with_a_b).
Proof.
  split; [vm_compute; reflexivity|]. split; [vm_compute; reflexivity|].
  intros H.
  assert (get_change_log_rows 2 db_with_a_b
          = [mkChangeLogRow 1 "campaign_added" (Some "A") (Some "X")
               None None None None None 10;
             mkChangeLogRow 2 "campaign_added" (Some "B") (Some "Z")
               None None None None None 10]) as Heq
    by (vm_compute; reflexivity).
  rewrite Heq in H. unfold newest_first_ties_descending_id in H.
  apply StronglySorted_cons in H as [Hall _].
  apply Forall_cons in Hall as [[Hlt|[_ Hlt]] _]; simpl in Hlt; lia.
Qed.

(** ** Lead reconciliation *)

(** The insert that logs an added or a removed lead names the column
    [details], which [change_log] does not have. *)
Lemma insert_change_log_details vals now db :
  insert_change_log
    ["change_type"; "campaign_id"; "campaign_name"; "lead_id"; "lead_email";
     "lead_company"; "details"] vals now db
  = Raised (OperationalError "table change_log has no column named details").
Proof. reflexivity. Qed.

Lemma add_lead_step_raises added c n now lead (st : DB * Changes) :
  lead_id lead ∈ added →
  ∃ e, add_lead_step added c n now lead st = Raised e.
Proof.
  intros Hin. unfold add_lead_step. rewrite decide_True by done.
  destruct (insert_lead c lead now st.1) as [db1|e]; cbv [mbind outcome_bind];
    [|eauto].
  rewrite insert_change_log_details. eauto.
Qed.

Lemma remove_lead_step_raises current c n now id (st : DB * Changes) :
  ∃ e, remove_lead_step current c n now id st = Raised e.
Proof.
  unfold remove_lead_step. destruct (current !! id); [|eauto].
  cbv [mbind outcome_bind]. rewrite insert_change_log_details. eauto.
Qed.

Lemma for_each_raises {A S} (body : A → S → outcome S) (l : list A) x :
  x ∈ l → (∀ s, ∃ e, body x s = Raised e) →
  ∀ s, ∃ e, for_each body l s = Raised e.
Proof.
  intros Hin Hx. induction l as [|y l IH]; intros s; [inversion Hin|].
  rewrite for_each_cons.
  apply elem_of_cons in Hin as [<-|Hin].
  - destruct (Hx s) as [e ->]. simpl. eauto.
  - destruct (body y s) as [s1|e]; simpl; [by apply IH|eauto].
Qed.

(** As soon as the snapshot brings one lead the store does not hold as an
    active lead of the campaign, the call answers with the all-zero dict and
    commits nothing. *)
Lemma track_lead_changes_added_lead c n new_leads now db lead :
  lead ∈ new_leads →
  lead_id lead ∉ dom (current_leads db c) →
  track_lead_changes c n new_leads now db = (db, changes0).
Proof.
  intros Hin Hnew. unfold track_lead_changes, track_lead_changes_txn.
  edestruct (for_each_raises
               (add_lead_step
                  (list_to_set (map lead_id new_leads) ∖ dom (current_leads db c))
                  c n now) new_leads lead Hin) as [e ->]; [|reflexivity].
  intros s. apply add_lead_step_raises. apply elem_of_difference. split; [|done].
  apply elem_of_list_to_set, list_elem_of_fmap. eauto.
Qed.

(** The same when an active lead of the campaign is missing from the
    snapshot. *)
Lemma track_lead_changes_removed_lead c n new_leads now db id :
  id ∈ dom (current_leads db c) →
  id ∉ map lead_id new_leads →
  track_lead_changes c n new_leads now db = (db, changes0).
Proof.
  intros Hcur Hgone. unfold track_lead_changes, track_lead_changes_txn.
  destruct (for_each _ new_leads (db, changes0)) as [st1|e]; simpl; [|done].
  edestruct (for_each_raises
               (remove_lead_step (current_leads db c) c n now)
               (elements (dom (current_leads db c)
                            ∖ list_to_set (map lead_id new_leads))) id)
    as [e ->]; [| |reflexivity].
  - apply elem_of_elements, elem_of_difference. split; [done|].
    by rewrite elem_of_list_to_set.
  - intros s. apply remove_lead_step_raises.
Qed.

Lemma add_lead_step_out added c n now lead (st : DB * Changes) :
  lead_id lead ∉ added → add_lead_step added c n now lead st = Returned st.
Proof. intros H. unfold add_lead_step. by rewrite decide_False. Qed.

Lemma add_lead_loop_noop added c n now l (st : DB * Changes) :
  (∀ lead, lead ∈ l → lead_id lead ∉ added) →
  for_each (add_lead_step added c n now) l st = Returned st.
Proof.
  induction l as [|x l IH]; intros H; [done|].
  rewrite for_each_cons, add_lead_step_out by (apply H; left). simpl.
  apply IH. intros lead Hl. apply H. by right.
Qed.

(** When the snapshot holds exactly the ids of the stored active leads, the
    count change is computed, returned, and logged when it is not zero. *)
Lemma track_lead_changes_same_leads c n new_leads now db :
  list_to_set (map lead_id new_leads) = dom (current_leads db c) →
  let change := Z.of_nat (new_company_count new_leads)
                - Z.of_nat (old_company_count (current_leads db c)) in
  (track_lead_changes c n new_leads now db).2 = mkChanges 0 0 change [] []
  ∧ (change = 0 → (track_lead_changes c n new_leads now db).1 = db)
  ∧ (change ≠ 0 →
       ∃ row, change_log (track_lead_changes c n new_leads now db).1
              = change_log db ++ [row]
              ∧ cl_change_type row = "company_count_changed"
              ∧ cl_campaign_id row = Some c).
Proof.
  intros Hids change. unfold track_lead_changes, track_lead_changes_txn.
  rewrite Hids, difference_diag_L, elements_empty.
  rewrite add_lead_loop_noop by (intros; apply not_elem_of_empty).
  simpl. fold change. case_decide as Hc; simpl.
  - split; [done|]. split; [done|]. intros _. eexists. split; [done|]. done.
  - split; [done|]. split; [done|]. intros Hne. by destruct Hne.
Qed.

(** C9.  On the first snapshot of campaign A, with leads of two companies
    and no lead stored yet, the count change is 2, yet [track_lead_changes]
    answers with the all-zero dict and commits nothing: the insert that logs
    the added lead fails first. *)
Lemma company_count_change_lost :
  Z.of_nat (new_company_count [acme; beta])
  - Z.of_nat (old_company_count (current_leads db_with_a "A")) = 2
  ∧ track_lead_changes "A" "X" [acme; beta] 20 db_with_a = (db_with_a, changes0).
Proof.
  split.
  - vm_compute. reflexivity.
  - apply (track_lead_changes_added_lead "A" "X" [acme; beta] 20 db_with_a acme).
    + by left.
    + apply (bool_decide_unpack _). vm_compute. exact I.
Qed.

(** * Further properties *)

(** ** Push operations *)

Lemma mark_frame c names now stored db :
  campaigns (mark_companies_as_pushed c names now stored db) = campaigns db
  ∧ leads (mark_companies_as_pushed c names now stored db) = leads db
  ∧ change_log (mark_companies_as_pushed c names now stored db) = change_log db
  ∧ sync_history (mark_companies_as_pushed c names now stored db) = sync_history db.
Proof.
  unfold mark_companies_as_pushed. destruct stored; [|done]. revert db.
  induction names as [|n names IH]; intros db; [done|].
  simpl. destruct (IH (insert_or_ignore_pushed c n now db)) as (-> & -> & -> & ->).
  unfold insert_or_ignore_pushed. by destruct (existsb _ _).
Qed.

(** X1.  [push_all_companies] answers "No leads found for campaign" for no
    leads and "No company names found" when no lead carries a usable name,
    both without touching the store; with company names and a failed delivery
    it answers "Failed to push to webhook" and leaves the store as it was;
    with a delivery that succeeded it returns every current company, pushed
    before or not.  When the mark is stored the pushed set of the campaign
    becomes its union with the current set, no other campaign being touched;
    when it is not, the store stays as it was. *)
Theorem push_all_contract (c : string) (l : list Lead) (ok stored : bool) (now : Z)
    (db : DB) :
  let current := extract_unique_companies l in
  let r := push_all_companies c l ok stored now db in
  (l = [] → r = (db, Returned (PushFail "No leads found for campaign")))
  ∧ (l ≠ [] → current = ∅ →
     r = (db, Returned (PushFail "No company names found")))
  ∧ (current ≠ ∅ → ok = false →
     r = (db, Returned (PushFail "Failed to push to webhook")))
  ∧ (current ≠ ∅ → ok = true →
     r.2 = Returned (PushOk (size current) (elements current))
     ∧ (stored = true →
        get_pushed_companies r.1 c = get_pushed_companies db c ∪ current
        ∧ ∀ c', c' ≠ c → get_pushed_companies r.1 c' = get_pushed_companies db c')
     ∧ (stored = false → r.1 = db)).
Proof.
  intros current r. subst current r. unfold push_all_companies, push_all_body.
  destruct l as [|x l].
  { split; [done|]. split; [done|]. split; intros H; by destruct H. }
  split; [done|].
  destruct (decide (extract_unique_companies (x :: l) = ∅)) as [He|He].
  { split; [done|]. split; intros H; by destruct H. }
  split; [done|]. split.
  - by intros _ ->.
  - intros _ ->. simpl. split; [done|]. rewrite log_push_activity_id. split.
    + intros ->. split.
      * rewrite get_pushed_mark, decide_True by done.
        rewrite list_to_set_elements_L. set_solver.
      * intros c' Hc'. by rewrite get_pushed_mark, decide_False.
    + by intros ->.
Qed.

(** Two companies pushed from the empty store, the mark stored. *)
Lemma push_all_contract_witness :
  let r := push_all_companies "A" [acme; beta] true true 1 empty_db in
  r.2 = Returned (PushOk 2 (elements ({[ "Acme"; "Beta" ]} : gset string)))
  ∧ get_pushed_companies r.1 "A" = {[ "Acme"; "Beta" ]}.
Proof.
  assert (extract_unique_companies [acme; beta] ≠ ∅) as Hne.
  { apply (bool_decide_unpack _). vm_compute. exact I. }
  destruct (push_all_contract "A" [acme; beta] true true 1 empty_db)
    as (_ & _ & _ & Hok).
  destruct (Hok Hne eq_refl) as (Hr & Hp & _). destruct (Hp eq_refl) as [Hp' _].
  split.
  - rewrite Hr. vm_compute. reflexivity.
  - rewrite Hp'. apply (bool_decide_unpack _). vm_compute. exact I.
Defined.

Lemma push_all_covers c l now db :
  extract_unique_companies l
    ⊆ get_pushed_companies (push_all_companies c l true true now db).1 c.
Proof.
  unfold push_all_companies, push_all_body.
  destruct l as [|x l]; [set_solver|].
  case_decide as He; cbn [fst snd]; [rewrite He; set_solver|].
  rewrite log_push_activity_id, get_pushed_mark, decide_True by done.
  rewrite list_to_set_elements_L. set_solver.
Qed.

Lemma push_new_covers c l now db :
  extract_unique_companies l
    ⊆ get_pushed_companies (push_new_companies c l true true now db).1 c.
Proof.
  unfold push_new_companies, push_new_body.
  destruct l as [|x l]; [set_solver|].
  case_decide as He; cbn [fst snd]; [rewrite He; set_solver|].
  unfold get_new_companies. case_decide as Hd; cbn [fst snd].
  - intros y Hy. destruct (decide (y ∈ get_pushed_companies db c)); [done|].
    set_solver.
  - rewrite log_push_activity_id, get_pushed_mark, decide_True by done.
    rewrite list_to_set_elements_L. intros y Hy.
    destruct (decide (y ∈ get_pushed_companies db c)); set_solver.
Qed.

Lemma push_new_nothing_new c l ok stored now db :
  extract_unique_companies l ≠ ∅ →
  extract_unique_companies l ⊆ get_pushed_companies db c →
  push_new_companies c l ok stored now db
  = (db, Returned (PushFail "No new companies to push")).
Proof.
  intros Hne Hsub. unfold push_new_companies, push_new_body.
  destruct l as [|x l]; [by destruct Hne|].
  rewrite decide_False by done.
  rewrite decide_True; [done|]. unfold get_new_companies. set_solver.
Qed.

(** X2.  After a [push_all_companies] or a [push_new_companies] whose
    delivery succeeded and whose mark was stored, a [push_new_companies] for
    leads whose companies were all among those of that call answers "No new
    companies to push" and leaves the store as it is, whatever its own
    delivery and mark would do. *)
Theorem push_new_after_push (c : string) (l l' : list Lead) (ok stored : bool)
    (now now' : Z) (db : DB) :
  extract_unique_companies l' ≠ ∅ →
  extract_unique_companies l' ⊆ extract_unique_companies l →
  (let db1 := (push_all_companies c l true true now db).1 in
   push_new_companies c l' ok stored now' db1
   = (db1, Returned (PushFail "No new companies to push")))
  ∧ (let db1 := (push_new_companies c l true true now db).1 in
     push_new_companies c l' ok stored now' db1
     = (db1, Returned (PushFail "No new companies to push"))).
Proof.
  intros Hne Hsub. split; simpl.
  - apply push_new_nothing_new; [done|]. etrans; [done|apply push_all_covers].
  - apply push_new_nothing_new; [done|]. etrans; [done|apply push_new_covers].
Qed.

(** Push all for two companies, then push new for one of them. *)
Lemma push_new_after_push_witness :
  let db1 := (push_all_companies "A" [acme; beta] true true 1 empty_db).1 in
  push_new_companies "A" [beta] true true 2 db1
  = (db1, Returned (PushFail "No new companies to push")).
Proof.
  refine (proj1 (push_new_after_push "A" [acme; beta] [beta] true true 1 2
                   empty_db _ _)).
  - apply (bool_decide_unpack _). vm_compute. exact I.
  - apply (bool_decide_unpack _). vm_compute. exact I.
Defined.

Lemma push_status_value c l db :
  extract_unique_companies l ≠ ∅ →
  let current := extract_unique_companies l in
  let pushed := get_pushed_companies db c in
  let delta := current ∖ pushed in
  get_campaign_push_status c l db
  = StatusOk (size current) (size delta) (bool_decide (delta ≠ ∅))
      (bool_decide (pushed ≠ ∅)) (bool_decide (pushed ≠ ∅ ∧ delta ≠ ∅)).
Proof.
  intros Hne current pushed delta. subst current pushed delta.
  assert (∀ X : gset string, bool_decide (0 < size X)%nat = bool_decide (X ≠ ∅))
    as Hpos.
  { intros X. apply bool_decide_ext.
    rewrite <- (leibniz_equiv_iff X ∅), <- size_non_empty_iff. lia. }
  unfold get_campaign_push_status. destruct l as [|x l]; [by destruct Hne|].
  rewrite decide_False by done. unfold get_new_companies.
  rewrite !Hpos. f_equal.
  destruct (decide (get_pushed_companies db c ≠ ∅)) as [Hp|Hp];
    destruct (decide (extract_unique_companies (x :: l)
                        ∖ get_pushed_companies db c ≠ ∅)) as [Hd|Hd].
  - by rewrite !bool_decide_eq_true_2.
  - rewrite (bool_decide_eq_false_2 _ Hd), andb_false_r.
    symmetry. apply bool_decide_eq_false_2. tauto.
  - rewrite (bool_decide_eq_false_2 _ Hp). simpl.
    symmetry. apply bool_decide_eq_false_2. tauto.
  - rewrite (bool_decide_eq_false_2 _ Hp). simpl.
    symmetry. apply bool_decide_eq_false_2. tauto.
Qed.

(** X3.  For leads with at least one company, [get_campaign_push_status]
    reports the number of current companies, the number not yet pushed
    (never more than the current ones), whether there are any, whether
    anything was ever pushed, and the conjunction of the last two; and
    [has_new_companies] is true exactly when [push_new_companies] would
    succeed with a working delivery. *)
Theorem push_status_agrees_with_push_new (c : string) (l : list Lead) (db : DB) :
  extract_unique_companies l ≠ ∅ →
  let current := extract_unique_companies l in
  let pushed := get_pushed_companies db c in
  let delta := current ∖ pushed in
  get_campaign_push_status c l db
  = StatusOk (size current) (size delta) (bool_decide (delta ≠ ∅))
      (bool_decide (pushed ≠ ∅)) (bool_decide (pushed ≠ ∅ ∧ delta ≠ ∅))
  ∧ (size delta ≤ size current)%nat
  ∧ ∀ stored now, (bool_decide (delta ≠ ∅)
                   = match (push_new_companies c l true stored now db).2 with
                     | Returned res => is_success res
                     | Raised _ => false
                     end).
Proof.
  intros Hne current pushed delta. subst current pushed delta.
  split; [by apply push_status_value|]. split.
  - apply subseteq_size. set_solver.
  - intros stored now. unfold push_new_companies, push_new_body.
    destruct l as [|x l]; [by destruct Hne|].
    rewrite decide_False by done. unfold get_new_companies.
    case_decide as Hd; simpl.
    + apply bool_decide_eq_false_2. by intros H.
    + by apply bool_decide_eq_true_2.
Qed.

(** Two companies pushed, a third one new. *)
Lemma push_status_agrees_with_push_new_witness :
  get_campaign_push_status "A" [acme; beta; gamma]
    (push_all_companies "A" [acme; beta] true true 1 empty_db).1
  = StatusOk 3 1 true true true.
Proof.
  destruct (push_status_agrees_with_push_new "A" [acme; beta; gamma]
              (push_all_companies "A" [acme; beta] true true 1 empty_db).1)
    as (Hs & _).
  - apply (bool_decide_unpack _). vm_compute. exact I.
  - rewrite Hs. vm_compute. reflexivity.
Defined.

(** X4.  Right after a [push_all_companies] or [push_new_companies] whose
    delivery succeeded and whose mark was stored, the status for the same
    leads shows no new company, [has_ever_been_pushed] true and
    [show_push_new] false. *)
Theorem push_status_after_push (c : string) (l : list Lead) (now : Z) (db : DB) :
  extract_unique_companies l ≠ ∅ →
  get_campaign_push_status c l (push_all_companies c l true true now db).1
  = StatusOk (size (extract_unique_companies l)) 0 false true false
  ∧ get_campaign_push_status c l (push_new_companies c l true true now db).1
    = StatusOk (size (extract_unique_companies l)) 0 false true false.
Proof.
  intros Hne.
  assert (∀ db1, extract_unique_companies l ⊆ get_pushed_companies db1 c →
                 get_campaign_push_status c l db1
                 = StatusOk (size (extract_unique_companies l)) 0 false true false)
    as H.
  { intros db1 Hsub.
    rewrite (push_status_value c l db1 Hne).
    assert (extract_unique_companies l ∖ get_pushed_companies db1 c = ∅) as ->
      by set_solver.
    rewrite size_empty.
    rewrite (bool_decide_eq_true_2 (get_pushed_companies db1 c ≠ ∅)) by set_solver.
    rewrite (bool_decide_eq_false_2 ((∅ : gset string) ≠ ∅)) by (by intros H).
    rewrite bool_decide_eq_false_2; [done|]. by intros [_ H]. }
  split; apply H; [apply push_all_covers|apply push_new_covers].
Qed.

(** The status right after a push of two companies. *)
Lemma push_status_after_push_witness :
  get_campaign_push_status "A" [acme; beta]
    (push_all_companies "A" [acme; beta] true true 1 empty_db).1
  = StatusOk 2 0 false true false.
Proof.
  destruct (push_status_after_push "A" [acme; beta] 1 empty_db) as [H _].
  - apply (bool_decide_unpack _). vm_compute. exact I.
  - rewrite H. vm_compute. reflexivity.
Defined.

Lemma push_all_frame c l ok stored now db :
  let db' := (push_all_companies c l ok stored now db).1 in
  campaigns db' = campaigns db ∧ leads db' = leads db
  ∧ change_log db' = change_log db ∧ sync_history db' = sync_history db.
Proof.
  simpl. unfold push_all_companies, push_all_body.
  destruct l as [|x l]; [done|]. case_decide; [done|].
  destruct ok; [|done]. simpl. rewrite log_push_activity_id.
  apply mark_frame.
Qed.

Lemma push_new_frame c l ok stored now db :
  let db' := (push_new_companies c l ok stored now db).1 in
  campaigns db' = campaigns db ∧ leads db' = leads db
  ∧ change_log db' = change_log db ∧ sync_history db' = sync_history db.
Proof.
  simpl. unfold push_new_companies, push_new_body.
  destruct l as [|x l]; [done|]. case_decide; [done|]. case_decide; [done|].
  destruct ok; [|done]. simpl. rewrite log_push_activity_id.
  apply mark_frame.
Qed.

(** X5.  [log_push_activity] never changes the store (its insert names the
    column [details], which [change_log] lacks, and the error is dropped), so
    [push_all_companies] and [push_new_companies] write nothing but
    [pushed_companies]: campaigns, leads, change log and sync history stay as
    they were, and no push is ever logged. *)
Theorem push_writes_only_pushed_companies (c ty : string) (l : list Lead)
    (ok stored : bool) (n : nat) (now : Z) (db : DB) :
  log_push_activity c ty n now db = db
  ∧ (let db' := (push_all_companies c l ok stored now db).1 in
     campaigns db' = campaigns db ∧ leads db' = leads db
     ∧ change_log db' = change_log db ∧ sync_history db' = sync_history db)
  ∧ (let db' := (push_new_companies c l ok stored now db).1 in
     campaigns db' = campaigns db ∧ leads db' = leads db
     ∧ change_log db' = change_log db ∧ sync_history db' = sync_history db).
Proof.
  split; [reflexivity|]. split; [apply push_all_frame|apply push_new_frame].
Qed.

(** ** The pushed-companies table *)

Lemma pushed_row_exists c n db :
  existsb (λ r, bool_decide (p_campaign_id r = c ∧ p_company_name r = n))
          (pushed_companies db) = true
  ↔ (c, n) ∈ map (λ r, (p_campaign_id r, p_company_name r)) (pushed_companies db).
Proof.
  rewrite existsb_exists, list_elem_of_fmap. split.
  - intros (r & Hin & Hr). apply bool_decide_eq_true in Hr as [<- <-].
    exists r. split; [done|]. by apply list_elem_of_In.
  - intros (r & [= -> ->] & Hin). exists r. split; [by apply list_elem_of_In|].
    by apply bool_decide_eq_true.
Qed.

Lemma pushed_row_iff c n db :
  (c, n) ∈ map (λ r, (p_campaign_id r, p_company_name r)) (pushed_companies db)
  ↔ n ∈ get_pushed_companies db c.
Proof.
  unfold get_pushed_companies.
  rewrite elem_of_list_to_set, !list_elem_of_fmap. split.
  - intros (r & [= -> ->] & Hin). exists r. split; [done|].
    by apply list_elem_of_filter.
  - intros (r & -> & Hin). apply list_elem_of_filter in Hin as [<- Hin]. eauto.
Qed.

Lemma insert_or_ignore_known c n now db :
  n ∈ get_pushed_companies db c →
  pushed_companies (insert_or_ignore_pushed c n now db) = pushed_companies db.
Proof.
  intros Hin. unfold insert_or_ignore_pushed.
  by rewrite (proj2 (pushed_row_exists c n db)) by by apply pushed_row_iff.
Qed.

Lemma mark_known c names now stored db :
  list_to_set names ⊆ get_pushed_companies db c →
  pushed_companies (mark_companies_as_pushed c names now stored db)
  = pushed_companies db.
Proof.
  unfold mark_companies_as_pushed. destruct stored; [|done]. revert db.
  induction names as [|n names IH]; intros db Hsub; [done|].
  assert (pushed_companies (insert_or_ignore_pushed c n now db)
          = pushed_companies db) as Hn
    by (apply insert_or_ignore_known; set_solver).
  simpl. rewrite IH; [done|].
  rewrite (get_pushed_ext _ _ _ Hn). set_solver.
Qed.

(** X6.  After a [mark_companies_as_pushed] that is stored,
    [get_pushed_companies] returns for the campaign exactly the names it
    returned before together with the marked ones, and the other campaigns
    read as before; marking the same names again, at any later time, leaves
    the rows of the table as they are; and a mark that is not stored leaves
    the store as it was. *)
Theorem mark_then_read (c : string) (names : list string) (now now' : Z)
    (stored : bool) (db : DB) :
  get_pushed_companies (mark_companies_as_pushed c names now true db) c
  = get_pushed_companies db c ∪ list_to_set names
  ∧ (∀ c', c' ≠ c →
       get_pushed_companies (mark_companies_as_pushed c names now true db) c'
       = get_pushed_companies db c')
  ∧ pushed_companies
      (mark_companies_as_pushed c names now' stored
         (mark_companies_as_pushed c names now true db))
    = pushed_companies (mark_companies_as_pushed c names now true db)
  ∧ mark_companies_as_pushed c names now false db = db.
Proof.
  split; [|split; [|split]].
  - rewrite get_pushed_mark, decide_True by done. set_solver.
  - intros c' Hc'. by rewrite get_pushed_mark, decide_False.
  - apply mark_known. rewrite get_pushed_mark, decide_True by done. set_solver.
  - reflexivity.
Qed.

Lemma insert_or_ignore_unique c n now db :
  pushed_unique db → pushed_unique (insert_or_ignore_pushed c n now db).
Proof.
  unfold pushed_unique, insert_or_ignore_pushed. intros Hnd.
  destruct (existsb _ _) eqn:Hex; [done|]. simpl.
  rewrite map_app. simpl. apply NoDup_app. split; [done|]. split.
  - intros p Hp Hp'. apply list_elem_of_singleton in Hp' as ->.
    apply pushed_row_exists in Hp. congruence.
  - apply NoDup_singleton.
Qed.

Lemma mark_unique c names now stored db :
  pushed_unique db → pushed_unique (mark_companies_as_pushed c names now stored db).
Proof.
  unfold mark_companies_as_pushed. destruct stored; [|done]. revert db.
  induction names as [|n names IH]; intros db Hu; [done|].
  simpl. by apply IH, insert_or_ignore_unique.
Qed.

Lemma pushed_unique_ext db db' :
  pushed_companies db' = pushed_companies db → pushed_unique db → pushed_unique db'.
Proof. unfold pushed_unique. by intros ->. Qed.

Lemma run_op_unique op db : pushed_unique db → pushed_unique (run_op op db).
Proof.
  apply (run_op_inv pushed_unique).
  - intros l now d Hu. by eapply pushed_unique_ext; [apply update_campaigns_pushed|].
  - intros c n l now d Hu.
    by eapply pushed_unique_ext; [apply track_lead_changes_pushed|].
  - intros d a r d0 Hu. by eapply pushed_unique_ext; [apply patch_latest_sync_pushed|].
  - intros c names now stored d Hu. by apply mark_unique.
Qed.

(** X7.  Every operation of the engine keeps the constraint
    [UNIQUE(campaign_id, company_name)] of [pushed_companies]. *)
Theorem pushed_companies_stay_unique (ops : list Op) (db : DB) :
  pushed_unique db → pushed_unique (run_ops ops db).
Proof.
  unfold run_ops. revert db. induction ops as [|op ops IH]; intros db Hu; [done|].
  simpl. by apply IH, run_op_unique.
Qed.

(** A push all followed by a push new, from the empty store. *)
Lemma pushed_companies_stay_unique_witness :
  pushed_unique
    (run_ops [OpPushAll "A" [Readable acme; Readable beta] true true 1;
              OpPushNew "A" [Readable acme; Readable beta; Readable gamma]
                true true 2] empty_db).
Proof.
  apply pushed_companies_stay_unique. unfold pushed_unique. simpl. constructor.
Defined.

(** ** Campaign reconciliation, continued *)

(** *** When [update_campaigns] returns and when it raises *)



Lemma add_loop_returned_NoDup added now l :
  ∀ st st' : DB * Stats,
  for_each (add_campaign_step added now) l st = Returned st' →
  NoDup (filter (λ id, id ∈ added) (map camp_id l)).
Proof.
  induction l as [|x l IH]; intros st st' Hrun; [constructor|].
  rewrite for_each_cons in Hrun.
  apply bind_Returned in Hrun as (s1 & H1 & Hrest). simpl.
  destruct (decide (camp_id x ∈ added)) as [Hxa|Hxa].
  - rewrite filter_cons_True by done. apply NoDup_cons. split; [|by eapply IH].
    intros [_ Hin]%list_elem_of_filter.
    rewrite add_campaign_step_in in H1 by done.
    destruct (campaigns st.1 !! camp_id x); [discriminate|]. injection H1 as <-.
    rewrite (add_loop_raises added now (camp_id x) l Hxa Hin) in Hrest;
      [discriminate|].
    simpl. rewrite lookup_insert_eq. eauto.
  - rewrite filter_cons_False by done. by eapply IH.
Qed.







(** *** Counters, change log and sync history of a reconciliation *)

Lemma update_campaign_step_unchanged current now x (st : DB * Stats) :
  campaign_changed current x = false →
  update_campaign_step current now x st = Returned st.
Proof.
  unfold campaign_changed. intros H.
  destruct (current !! camp_id x) as [[n s]|] eqn:Hc.
  - apply bool_decide_eq_false in H. apply update_campaign_step_same.
    rewrite Hc.
    destruct (decide (n = camp_name x)) as [->|Hn]; [|tauto].
    destruct (decide (s = camp_status x)) as [->|Hs]; [done|tauto].
  - by apply update_campaign_step_absent.
Qed.

Lemma campaign_changed_true current x :
  campaign_changed current x = true →
  ∃ n s, current !! camp_id x = Some (n, s)
         ∧ (n ≠ camp_name x ∨ s ≠ camp_status x).
Proof.
  unfold campaign_changed.
  destruct (current !! camp_id x) as [[n s]|]; [|discriminate].
  intros H%bool_decide_eq_true. eauto.
Qed.

Lemma loop_effect_refl st : loop_effect st st 0 0 0.
Proof. unfold loop_effect. repeat split; lia. Qed.

Lemma loop_effect_trans st1 st2 st3 a r u a' r' u' :
  loop_effect st1 st2 a r u → loop_effect st2 st3 a' r' u' →
  loop_effect st1 st3 (a + a') (r + r') (u + u').
Proof.
  unfold loop_effect.
  intros (?&?&?&?&?&?&?&?&?) (?&?&?&?&?&?&?&?&?).
  repeat split; try congruence; lia.
Qed.

Lemma add_loop_effect added now l :
  ∀ st st' : DB * Stats,
  for_each (add_campaign_step added now) l st = Returned st' →
  loop_effect st st' (length (filter (λ c, camp_id c ∈ added) l)) 0 0.
Proof.
  induction l as [|x l IH]; intros st st' Hrun.
  { injection Hrun as <-. apply loop_effect_refl. }
  rewrite for_each_cons in Hrun.
  apply bind_Returned in Hrun as (s1 & H1 & Hrest).
  apply IH in Hrest.
  destruct (decide (camp_id x ∈ added)) as [Hx|Hx].
  - rewrite filter_cons_True by done.
    rewrite add_campaign_step_in in H1 by done.
    destruct (campaigns st.1 !! camp_id x); [discriminate|]. injection H1 as <-.
    refine (loop_effect_trans _ _ _ 1 0 0 _ 0 0 _ Hrest).
    unfold loop_effect. simpl. rewrite length_app. simpl. repeat split; lia.
  - rewrite filter_cons_False by done.
    rewrite add_campaign_step_out in H1 by done. by injection H1 as <-.
Qed.

Lemma remove_loop_effect current now ids :
  ∀ st st' : DB * Stats,
  for_each (remove_campaign_step current now) ids st = Returned st' →
  loop_effect st st' 0 (length ids) 0.
Proof.
  induction ids as [|i ids IH]; intros st st' Hrun.
  { injection Hrun as <-. apply loop_effect_refl. }
  rewrite for_each_cons in Hrun.
  apply bind_Returned in Hrun as (s1 & H1 & Hrest).
  apply IH in Hrest. unfold remove_campaign_step in H1.
  destruct (current !! i) as [[n t]|]; [|discriminate]. injection H1 as <-.
  refine (loop_effect_trans _ _ _ 0 1 0 0 _ 0 _ Hrest).
  unfold loop_effect. simpl. rewrite length_app. simpl. repeat split; lia.
Qed.

Lemma update_loop_effect current now l :
  ∀ st st' : DB * Stats,
  for_each (update_campaign_step current now) l st = Returned st' →
  loop_effect st st' 0 0
    (length (filter (λ c, campaign_changed current c = true) l)).
Proof.
  induction l as [|x l IH]; intros st st' Hrun.
  { injection Hrun as <-. apply loop_effect_refl. }
  rewrite for_each_cons in Hrun.
  apply bind_Returned in Hrun as (s1 & H1 & Hrest).
  apply IH in Hrest.
  destruct (campaign_changed current x) eqn:Hch.
  - rewrite filter_cons_True by done.
    destruct (campaign_changed_true _ _ Hch) as (n & s & Hc & Hd).
    rewrite (update_campaign_step_diff _ _ _ _ _ _ Hc Hd) in H1.
    injection H1 as <-.
    refine (loop_effect_trans _ _ _ 0 0 1 0 0 _ _ Hrest).
    unfold loop_effect. simpl. rewrite length_app. simpl. repeat split; lia.
  - rewrite filter_cons_False by (by rewrite Hch).
    rewrite update_campaign_step_unchanged in H1 by done. by injection H1 as <-.
Qed.

Lemma length_filter_camp_id (X : gset string) (l : list Campaign) :
  length (filter (λ c, camp_id c ∈ X) l)
  = length (filter (λ id, id ∈ X) (map camp_id l)).
Proof.
  induction l as [|x l IH]; [done|]. simpl.
  rewrite !filter_cons. destruct (decide (camp_id x ∈ X)); simpl; by rewrite IH.
Qed.

Lemma added_count l db (st st' : DB * Stats) now :
  for_each (add_campaign_step
              (added_campaigns (new_campaign_ids l) (current_campaign_ids db)) now)
    l st = Returned st' →
  length (filter (λ c, camp_id c ∈ added_campaigns (new_campaign_ids l)
                                     (current_campaign_ids db)) l)
  = size (added_campaigns (new_campaign_ids l) (current_campaign_ids db)).
Proof.
  intros Hrun. apply add_loop_returned_NoDup in Hrun.
  rewrite length_filter_camp_id.
  rewrite <- (size_list_to_set (C := gset string)) by done.
  f_equal. apply set_eq. intros id.
  rewrite elem_of_list_to_set, list_elem_of_filter.
  unfold added_campaigns. rewrite elem_of_difference, elem_of_new_campaign_ids.
  tauto.
Qed.

(** X9.  When [update_campaigns] returns, [campaigns_added] and
    [campaigns_removed] are the sizes of the two id differences,
    [campaigns_updated] counts the snapshot entries stored under another name
    or status, the lead counters are 0, and the change log has grown by
    exactly [campaigns_added + campaigns_removed + campaigns_updated]
    entries. *)
Theorem update_campaigns_counts (new_campaigns : list Campaign) (now : Z)
    (db db' : DB) (stats : Stats) :
  update_campaigns new_campaigns now db = (db', Returned stats) →
  let new_ids := new_campaign_ids new_campaigns in
  let current_ids := current_campaign_ids db in
  campaigns_added stats = size (added_campaigns new_ids current_ids)
  ∧ campaigns_removed stats = size (removed_campaigns new_ids current_ids)
  ∧ campaigns_updated stats
    = length (filter (λ c, campaign_changed (current_campaigns db) c = true)
                new_campaigns)
  ∧ stats_leads_added stats = 0%nat ∧ stats_leads_removed stats = 0%nat
  ∧ company_count_changes stats = ∅
  ∧ length (change_log db')
    = (length (change_log db) + campaigns_added stats + campaigns_removed stats
       + campaigns_updated stats)%nat.
Proof.
  intros Hrun new_ids current_ids. subst new_ids current_ids.
  unfold update_campaigns in Hrun.
  destruct (update_campaigns_txn new_campaigns now db) as [[d s]|e] eqn:Htxn;
    [|discriminate].
  injection Hrun as -> ->.
  apply update_campaigns_txn_inv in Htxn
    as (st1 & st2 & st3 & H1 & H2 & H3 & _ & Hl & ->).
  pose proof (added_count _ _ _ _ _ H1) as Hadded.
  apply add_loop_effect in H1. apply remove_loop_effect in H2.
  apply update_loop_effect in H3.
  pose proof (loop_effect_trans _ _ _ _ _ _ _ _ _
                (loop_effect_trans _ _ _ _ _ _ _ _ _ H1 H2) H3)
    as (Ha & Hr & Hu & Hla & Hlr & Hcc & Hlen & _).
  simpl in *.
  assert (length (elements (removed_campaigns (new_campaign_ids new_campaigns)
                              (current_campaign_ids db)))
          = size (removed_campaigns (new_campaign_ids new_campaigns)
                    (current_campaign_ids db))) as Hremoved by reflexivity.
  rewrite Hl. repeat split; try done; lia.
Qed.

Lemma update_campaigns_sync_history new_campaigns now db db' stats :
  update_campaigns new_campaigns now db = (db', Returned stats) →
  sync_history db'
  = sync_history db ++
      [mkSyncRow (next_id sy_id (sync_history db)) "incremental"
         (Z.of_nat (length new_campaigns)) 0
         (Z.of_nat (campaigns_added stats)) (Z.of_nat (campaigns_removed stats))
         0 0 0 now None]
  ∧ leads db' = leads db
  ∧ pushed_companies db' = pushed_companies db.
Proof.
  intros Hrun.
  pose proof (update_campaigns_pushed new_campaigns now db) as Hp.
  rewrite Hrun in Hp. simpl in Hp.
  unfold update_campaigns in Hrun.
  destruct (update_campaigns_txn new_campaigns now db) as [[d s]|e] eqn:Htxn;
    [|discriminate].
  injection Hrun as -> ->.
  unfold update_campaigns_txn in Htxn.
  apply bind_Returned in Htxn as (st1 & H1 & Htxn).
  apply bind_Returned in Htxn as (st2 & H2 & Htxn).
  apply bind_Returned in Htxn as (st3 & H3 & Htxn).
  injection Htxn as <- <-.
  apply add_loop_effect in H1. apply remove_loop_effect in H2.
  apply update_loop_effect in H3.
  pose proof (loop_effect_trans _ _ _ _ _ _ _ _ _
                (loop_effect_trans _ _ _ _ _ _ _ _ _ H1 H2) H3)
    as (_ & _ & _ & _ & _ & _ & _ & Hleads & Hsync).
  simpl in *. by rewrite Hsync, Hleads.
Qed.

(** X10.  When [update_campaigns] returns, [sync_history] has exactly one
    more row, of type "incremental", holding the length of the snapshot and
    the added and removed counts, with zero lead counts and no duration; the
    leads and the pushed companies are untouched, and [get_sync_stats] has a
    latest sync to report. *)
Theorem update_campaigns_sync_row (new_campaigns : list Campaign) (now : Z)
    (db db' : DB) (stats : Stats) :
  update_campaigns new_campaigns now db = (db', Returned stats) →
  sync_history db'
  = sync_history db ++
      [mkSyncRow (next_id sy_id (sync_history db)) "incremental"
         (Z.of_nat (length new_campaigns)) 0
         (Z.of_nat (campaigns_added stats)) (Z.of_nat (campaigns_removed stats))
         0 0 0 now None]
  ∧ leads db' = leads db
  ∧ pushed_companies db' = pushed_companies db
  ∧ latest_sync_info (get_sync_stats db') ≠ None.
Proof.
  intros Hrun.
  destruct (update_campaigns_sync_history _ _ _ _ _ Hrun) as (Hs & Hl & Hp).
  repeat split; try done.
  unfold get_sync_stats. simpl. rewrite Hs.
  destruct (sync_history db) as [|r rows]; simpl; [done|].
  destruct (latest_sync (rows ++ _)) as [r'|]; [|done].
  by destruct (sy_sync_timestamp r <? sy_sync_timestamp r').
Qed.

(** *** The store after a reconciliation *)

Lemma total_campaigns_active db :
  total_campaigns (get_sync_stats db) = size (current_campaign_ids db).
Proof.
  unfold get_sync_stats, current_campaign_ids, current_campaigns. simpl.
  by rewrite dom_fmap_L, size_dom.
Qed.

(** X11.  After [update_campaigns] returned for a snapshot with pairwise
    distinct ids, the active campaigns of the store are exactly those of the
    snapshot, under the snapshot's names and statuses, and [get_sync_stats]
    counts as many active campaigns as the snapshot lists. *)
Theorem reconciled_store_matches_snapshot (new_campaigns : list Campaign)
    (now : Z) (db db' : DB) (stats : Stats) :
  NoDup (map camp_id new_campaigns) →
  update_campaigns new_campaigns now db = (db', Returned stats) →
  (∀ c, c ∈ new_campaigns →
        current_campaigns db' !! camp_id c = Some (camp_name c, camp_status c))
  ∧ current_campaign_ids db' = new_campaign_ids new_campaigns
  ∧ total_campaigns (get_sync_stats db') = length new_campaigns.
Proof.
  intros Hnd Hrun. unfold update_campaigns in Hrun.
  destruct (update_campaigns_txn new_campaigns now db) as [[d s]|e] eqn:Htxn;
    [|discriminate].
  injection Hrun as -> ->.
  destruct (first_run_current _ _ _ _ _ Hnd Htxn) as [Hin Hout].
  assert (current_campaign_ids db' = new_campaign_ids new_campaigns) as Hids.
  { apply set_eq. intros id. unfold current_campaign_ids.
    rewrite elem_of_dom, elem_of_new_campaign_ids.
    destruct (decide (id ∈ map camp_id new_campaigns)) as [Hid|Hid].
    - apply list_elem_of_fmap in Hid as (c & -> & Hc). rewrite (Hin c Hc).
      split; [|eauto]. intros _. apply list_elem_of_fmap. eauto.
    - rewrite (Hout id Hid). split; [by intros [? ?]|done]. }
  split; [done|]. split; [done|].
  rewrite total_campaigns_active, Hids. unfold new_campaign_ids.
  rewrite size_list_to_set by done. apply length_map.
Qed.

(** Campaigns A and B reconciled into the empty store. *)
Lemma reconciled_store_matches_snapshot_witness :
  current_campaign_ids db_with_a_b = new_campaign_ids [campaign_a; campaign_b]
  ∧ total_campaigns (get_sync_stats db_with_a_b) = 2%nat.
Proof.
  destruct (reconciled_store_matches_snapshot [campaign_a; campaign_b] 10
              empty_db db_with_a_b (mkStats 2 0 0 0 0 ∅)) as (_ & H1 & H2).
  - apply (bool_decide_unpack _). vm_compute. exact I.
  - vm_compute. reflexivity.
  - split; [exact H1|exact H2].
Defined.

(** ** Lead reconciliation, continued *)

Lemma track_lead_changes_same c n new_leads now db :
  list_to_set (map lead_id new_leads) = dom (current_leads db c) →
  let old_count := old_company_count (current_leads db c) in
  let new_count := new_company_count new_leads in
  let change := Z.of_nat new_count - Z.of_nat old_count in
  track_lead_changes c n new_leads now db
  = (if decide (change = 0) then db
     else with_log_entry db (count_changed_row db c n old_count new_count now),
     mkChanges 0 0 change [] []).
Proof.
  intros Hids old_count new_count change.
  unfold track_lead_changes, track_lead_changes_txn.
  rewrite Hids, difference_diag_L, elements_empty.
  rewrite add_lead_loop_noop by (intros; apply not_elem_of_empty).
  simpl. fold old_count new_count change.
  destruct (decide (change = 0)) as [Hc|Hc].
  - rewrite decide_False by (by intros H). reflexivity.
  - rewrite decide_True by done. reflexivity.
Qed.

Lemma track_lead_changes_differ c n new_leads now db :
  list_to_set (map lead_id new_leads) ≠ dom (current_leads db c) →
  track_lead_changes c n new_leads now db = (db, changes0).
Proof.
  intros Hne.
  destruct (decide (list_to_set (map lead_id new_leads)
                      ∖ dom (current_leads db c) = (∅ : gset string)))
    as [Hadd|Hadd].
  - destruct (decide (dom (current_leads db c)
                        ∖ list_to_set (map lead_id new_leads)
                      = (∅ : gset string))) as [Hrem|Hrem].
    + exfalso. apply Hne. apply set_eq. intros x.
      destruct (decide (x ∈ dom (current_leads db c)));
        destruct (decide (x ∈ (list_to_set (map lead_id new_leads) : gset string)));
        set_solver.
    + apply set_choose_L in Hrem as [id Hid].
      apply elem_of_difference in Hid as [Hcur Hgone].
      apply (track_lead_changes_removed_lead _ _ _ _ _ id); [done|].
      by rewrite elem_of_list_to_set in Hgone.
  - apply set_choose_L in Hadd as [id Hid].
    apply elem_of_difference in Hid as [Hnew Hcur].
    apply elem_of_list_to_set, list_elem_of_fmap in Hnew as (lead & -> & Hin).
    by apply (track_lead_changes_added_lead _ _ _ _ _ lead).
Qed.

(** X12.  [track_lead_changes] has two outcomes.  When the snapshot lists
    exactly the ids of the stored active leads of the campaign, it returns
    the difference of the distinct company counts with zero added and removed
    leads, and appends one [company_count_changed] entry when the difference
    is not zero.  Otherwise it returns the all-zero dict and leaves the store
    as it was. *)
Theorem track_lead_changes_exact (c n : string) (new_leads : list Lead)
    (now : Z) (db : DB) :
  let old_count := old_company_count (current_leads db c) in
  let new_count := new_company_count new_leads in
  let change := Z.of_nat new_count - Z.of_nat old_count in
  track_lead_changes c n new_leads now db
  = if decide (list_to_set (map lead_id new_leads) = dom (current_leads db c))
    then (if decide (change = 0) then db
          else with_log_entry db
                 (count_changed_row db c n old_count new_count now),
          mkChanges 0 0 change [] [])
    else (db, changes0).
Proof.
  intros old_count new_count change. case_decide as Hids.
  - by apply track_lead_changes_same.
  - by apply track_lead_changes_differ.
Qed.

Lemma track_lead_changes_writes c n new_leads now db :
  let r := track_lead_changes c n new_leads now db in
  leads r.1 = leads db ∧ sync_history r.1 = sync_history db
  ∧ change_log db `prefix_of` change_log r.1
  ∧ leads_added r.2 = 0%nat ∧ leads_removed r.2 = 0%nat
  ∧ added_leads r.2 = [] ∧ removed_leads r.2 = [].
Proof.
  simpl.
  destruct (decide (list_to_set (map lead_id new_leads)
                    = dom (current_leads db c))) as [Hids|Hids].
  - rewrite (track_lead_changes_same _ _ _ _ _ Hids). simpl.
    case_decide; simpl; repeat split; try done.
    by apply prefix_app_r.
  - rewrite (track_lead_changes_differ _ _ _ _ _ Hids). done.
Qed.

Lemma update_campaigns_writes l now db :
  leads (update_campaigns l now db).1 = leads db
  ∧ change_log db `prefix_of` change_log (update_campaigns l now db).1
  ∧ length (sync_history (update_campaigns l now db).1)
    = match (update_campaigns l now db).2 with
      | Returned _ => S (length (sync_history db))
      | Raised _ => length (sync_history db)
      end.
Proof.
  unfold update_campaigns.
  destruct (update_campaigns_txn l now db) as [[db' st]|e] eqn:Htxn; [|done].
  simpl. pose proof Htxn as Htxn'.
  apply update_campaigns_txn_inv in Htxn
    as (st1 & st2 & st3 & H1 & H2 & H3 & _ & Hl & _).
  destruct (add_loop_log _ _ _ _ _ H1) as (e1 & Hl1 & _).
  destruct (remove_loop_spec _ _ _ _ _ H2) as (_ & e2 & Hl2 & _).
  destruct (update_loop_log _ _ _ _ _ H3) as (e3 & Hl3 & _).
  unfold update_campaigns_txn in Htxn'.
  rewrite H1 in Htxn'. cbv [mbind outcome_bind] in Htxn'.
  rewrite H2, H3 in Htxn'. injection Htxn' as <- _.
  apply add_loop_effect in H1. apply remove_loop_effect in H2.
  apply update_loop_effect in H3.
  pose proof (loop_effect_trans _ _ _ _ _ _ _ _ _
                (loop_effect_trans _ _ _ _ _ _ _ _ _ H1 H2) H3)
    as (_ & _ & _ & _ & _ & _ & _ & Hleads & Hsync).
  simpl in *. split; [done|]. split.
  - rewrite Hl3, Hl2, Hl1. simpl. exists (e1 ++ e2 ++ e3). by rewrite <- !app_assoc.
  - rewrite length_app, Hsync. simpl. lia.
Qed.




Lemma patch_latest_sync_leads d a r db :
  leads (patch_latest_sync d a r db) = leads db.
Proof. unfold patch_latest_sync. by destruct (latest_sync _). Qed.

Lemma run_op_writes op db :
  leads (run_op op db) = leads db
  ∧ change_log db `prefix_of` change_log (run_op op db).
Proof.
  apply (run_op_inv (λ d, leads d = leads db
                          ∧ change_log db `prefix_of` change_log d)); [| | | |done].
  - intros l now d [Hl Hp].
    destruct (update_campaigns_writes l now d) as (-> & ? & _).
    split; [done|by etrans].
  - intros c n l now d [Hl Hp].
    destruct (track_lead_changes_writes c n l now d) as (-> & _ & ? & _).
    split; [done|by etrans].
  - intros d a r d0 [Hl Hp].
    by rewrite patch_latest_sync_leads, patch_latest_sync_change_log.
  - intros c names now stored d [Hl Hp].
    destruct (mark_frame c names now stored d) as (_ & -> & -> & _). done.
Qed.

(** X13.  No operation of the engine writes the leads table:
    [track_lead_changes] always reports zero added and removed leads and
    empty lead lists, and in every store reached from the empty one
    [get_sync_stats] counts no lead. *)
Theorem leads_table_is_never_written (ops : list Op) (db : DB) (c n : string)
    (new_leads : list Lead) (now : Z) :
  leads (run_ops ops db) = leads db
  ∧ (let r := track_lead_changes c n new_leads now db in
     leads_added r.2 = 0%nat ∧ leads_removed r.2 = 0%nat
     ∧ added_leads r.2 = [] ∧ removed_leads r.2 = [])
  ∧ total_leads (get_sync_stats (run_ops ops empty_db)) = 0%nat.
Proof.
  assert (∀ db0, leads (run_ops ops db0) = leads db0) as H.
  { unfold run_ops. induction ops as [|op ops IH]; intros db0; [done|].
    simpl. rewrite IH. apply run_op_writes. }
  split; [apply H|]. split.
  - destruct (track_lead_changes_writes c n new_leads now db)
      as (_ & _ & _ & ? & ? & ? & ?). done.
  - unfold get_sync_stats. simpl. rewrite H. simpl.
    by rewrite map_filter_empty, map_size_empty.
Qed.

(** *** The change log only grows *)

(** X14.  The change log is append-only: after any sequence of operations
    the old log is a prefix of the new one, and identifiers that increased
    along the table still do. *)
Theorem change_log_is_append_only (ops : list Op) (db : DB) :
  change_log db `prefix_of` change_log (run_ops ops db)
  ∧ (ids_increase (change_log db) → ids_increase (change_log (run_ops ops db))).
Proof.
  unfold run_ops. revert db. induction ops as [|op ops IH]; intros db; [done|].
  simpl. destruct (IH (run_op op db)) as [Hp Hi]. split.
  - etrans; [apply run_op_writes|done].
  - intros Hinc. by apply Hi, run_op_ids.
Qed.

(** ** Campaign rows *)

Lemma update_loop_row current now l :
  NoDup (map camp_id l) →
  ∀ st st' : DB * Stats,
  for_each (update_campaign_step current now) l st = Returned st' →
  ∀ c, c ∈ l →
  campaigns st'.1 !! camp_id c
  = if campaign_changed current c
    then (λ r, mkCampaignRow (camp_name c) (camp_status c) (c_created_at r) now
                 (c_is_active r)) <$> campaigns st.1 !! camp_id c
    else campaigns st.1 !! camp_id c.
Proof.
  induction l as [|x l IH]; intros Hnd st st' Hrun c Hc; [inversion Hc|].
  apply NoDup_cons in Hnd as [Hx Hnd].
  rewrite for_each_cons in Hrun.
  apply bind_Returned in Hrun as (s1 & H1 & Hrest).
  apply elem_of_cons in Hc as [->|Hc].
  - rewrite (update_loop_other _ _ (camp_id x) _ _ _ Hrest) by (by left).
    destruct (campaign_changed current x) eqn:Hch.
    + destruct (campaign_changed_true _ _ Hch) as (n & s & Hcur & Hd).
      rewrite (update_campaign_step_diff _ _ _ _ _ _ Hcur Hd) in H1.
      injection H1 as <-. simpl. by rewrite lookup_alter_eq.
    + rewrite update_campaign_step_unchanged in H1 by done. by injection H1 as <-.
  - assert (camp_id c ≠ camp_id x) as Hne.
    { intros Heq. apply Hx. rewrite <- Heq. apply list_elem_of_fmap. eauto. }
    rewrite (IH Hnd _ _ Hrest c Hc).
    by rewrite (update_step_other _ _ _ _ _ _ H1 Hne).
Qed.

(** X15.  After [update_campaigns] returned for a snapshot with pairwise
    distinct ids, the row of a snapshot campaign is: for a campaign not
    stored before, an active row with the snapshot's name and status; for a
    stored campaign under another name or status, the same row with the new
    name and status and [last_updated] now; for a stored campaign with the
    same name and status, the row as it was. *)
Theorem snapshot_campaign_row (new_campaigns : list Campaign) (now : Z)
    (db db' : DB) (stats : Stats) (c : Campaign) :
  NoDup (map camp_id new_campaigns) →
  update_campaigns new_campaigns now db = (db', Returned stats) →
  c ∈ new_campaigns →
  match campaigns db !! camp_id c with
  | None =>
      ∃ r', campaigns db' !! camp_id c = Some r'
            ∧ c_name r' = camp_name c ∧ c_status r' = camp_status c
            ∧ c_is_active r' = true
  | Some r =>
      campaigns db' !! camp_id c
      = if campaign_changed (current_campaigns db) c
        then Some (mkCampaignRow (camp_name c) (camp_status c) (c_created_at r)
                     now true)
        else Some r
  end.
Proof.
  intros Hnd Hrun Hc. unfold update_campaigns in Hrun.
  destruct (update_campaigns_txn new_campaigns now db) as [[d s]|e] eqn:Htxn;
    [|discriminate].
  injection Hrun as -> ->.
  apply update_campaigns_txn_inv in Htxn
    as (st1 & st2 & st3 & H1 & H2 & H3 & -> & _ & _).
  destruct (remove_loop_spec _ _ _ _ _ H2) as (Hlook & _).
  assert (camp_id c ∈ map camp_id new_campaigns) as Hin
    by (apply list_elem_of_fmap; eauto).
  assert (camp_id c ∉ elements (removed_campaigns (new_campaign_ids new_campaigns)
                                  (current_campaign_ids db))) as Hnr.
  { rewrite elem_of_elements. unfold removed_campaigns.
    rewrite elem_of_difference, elem_of_new_campaign_ids. tauto. }
  rewrite (update_loop_row _ _ _ Hnd _ _ H3 c Hc).
  rewrite Hlook, decide_False by done.
  destruct (campaigns db !! camp_id c) as [r|] eqn:Hr.
  - destruct (c_is_active r) eqn:Ha.
    + rewrite (add_loop_other _ _ (camp_id c) _ _ _ H1).
      * simpl. rewrite Hr. destruct (campaign_changed _ c); simpl; [|done].
        by rewrite Ha.
      * right. unfold added_campaigns. intros [_ Hno]%elem_of_difference.
        apply Hno, elem_of_current_campaign_ids. eauto.
    + exfalso.
      assert (camp_id c ∈ added_campaigns (new_campaign_ids new_campaigns)
                            (current_campaign_ids db)) as Hadded.
      { unfold added_campaigns. apply elem_of_difference. split.
        - by apply elem_of_new_campaign_ids.
        - rewrite elem_of_current_campaign_ids. intros (r' & Hr' & Ha').
          congruence. }
      rewrite (add_loop_raises _ now (camp_id c) new_campaigns Hadded Hin
                 (db, stats0)) in H1; [discriminate H1|].
      simpl. rewrite Hr. eauto.
  - assert (campaign_changed (current_campaigns db) c = false) as ->.
    { unfold campaign_changed. by rewrite current_campaigns_lookup, Hr. }
    exists (mkCampaignRow (camp_name c) (camp_status c) now now true).
    split; [|done].
    apply (add_loop_added _ _ _ Hnd _ _ H1 c Hc).
    unfold added_campaigns. apply elem_of_difference. split.
    + by apply elem_of_new_campaign_ids.
    + rewrite elem_of_current_campaign_ids. intros (r' & Hr' & _).
      simpl in Hr'. congruence.
Qed.

(** Campaign A comes back under another name. *)
Lemma snapshot_campaign_row_witness :
  campaigns (update_campaigns [campaign_a_renamed; campaign_b] 30 db_with_a).1 !! "A"
  = Some (mkCampaignRow "Y" "running" 10 30 true).
Proof.
  pose proof (snapshot_campaign_row [campaign_a_renamed; campaign_b] 30 db_with_a
                (update_campaigns [campaign_a_renamed; campaign_b] 30 db_with_a).1
                (mkStats 1 0 1 0 0 ∅) campaign_a_renamed
                ltac:(apply (bool_decide_unpack _); vm_compute; exact I)
                ltac:(vm_compute; reflexivity)
                ltac:(by left)) as H.
  vm_compute in H. vm_compute. exact H.
Defined.

(** *** No row is ever deleted *)

Lemma row_kept_refl id r (m : gmap string CampaignRow) :
  m !! id = Some r → row_kept id r m.
Proof. intros H. exists r. eauto. Qed.

Lemma add_step_kept added now id r x (s s' : DB * Stats) :
  add_campaign_step added now x s = Returned s' →
  row_kept id r (campaigns s.1) → row_kept id r (campaigns s'.1).
Proof.
  intros Hb (r' & Hr & Hc & Ha).
  destruct (decide (camp_id x ∈ added)) as [Hx|Hx].
  - rewrite add_campaign_step_in in Hb by done.
    destruct (campaigns s.1 !! camp_id x) eqn:Hl; [discriminate|].
    injection Hb as <-. exists r'. split; [|done]. simpl.
    rewrite lookup_insert_ne; [done|]. congruence.
  - rewrite add_campaign_step_out in Hb by done. injection Hb as <-. by exists r'.
Qed.

Lemma remove_step_kept current now id r x (s s' : DB * Stats) :
  remove_campaign_step current now x s = Returned s' →
  row_kept id r (campaigns s.1) → row_kept id r (campaigns s'.1).
Proof.
  intros Hb (r' & Hr & Hc & Ha). unfold remove_campaign_step in Hb.
  destruct (current !! x) as [[n st]|] eqn:Hcur; [|discriminate].
  injection Hb as <-. simpl. unfold row_kept. rewrite lookup_alter.
  case_decide; subst; rewrite Hr; simpl; eauto.
  eexists. split; [done|]. split; [done|]. simpl. discriminate.
Qed.

Lemma update_step_kept current now id r x (s s' : DB * Stats) :
  update_campaign_step current now x s = Returned s' →
  row_kept id r (campaigns s.1) → row_kept id r (campaigns s'.1).
Proof.
  intros Hb (r' & Hr & Hc & Ha).
  destruct (update_campaign_step_cases current now x s) as [He|(n & st & Hcur & Hd)].
  - rewrite He in Hb. injection Hb as <-. by exists r'.
  - rewrite (update_campaign_step_diff _ _ _ _ _ _ Hcur Hd) in Hb.
    injection Hb as <-. simpl. unfold row_kept. rewrite lookup_alter.
    case_decide; subst; rewrite Hr; simpl; eauto.
Qed.

Lemma update_campaigns_kept l now db id r :
  row_kept id r (campaigns db) →
  row_kept id r (campaigns (update_campaigns l now db).1).
Proof.
  intros Hin. unfold update_campaigns.
  destruct (update_campaigns_txn l now db) as [[db' st]|e] eqn:H; [|done].
  simpl. apply update_campaigns_txn_inv in H
    as (st1 & st2 & st3 & H1 & H2 & H3 & -> & _ & _).
  eapply (for_each_inv (λ s, row_kept id r (campaigns s.1))) in H3; [done| |].
  { intros x s s' _. apply update_step_kept. }
  eapply (for_each_inv (λ s, row_kept id r (campaigns s.1))) in H2; [done| |].
  { intros x s s' _. apply remove_step_kept. }
  eapply (for_each_inv (λ s, row_kept id r (campaigns s.1))) in H1; [done| |done].
  intros x s s' _. apply add_step_kept.
Qed.

Lemma run_op_kept op db id r :
  row_kept id r (campaigns db) → row_kept id r (campaigns (run_op op db)).
Proof.
  apply (run_op_inv (λ d, row_kept id r (campaigns d))).
  - intros l now d H. by apply update_campaigns_kept.
  - intros c n l now d H. by rewrite (proj1 (track_lead_changes_frame _ _ _ _ _)).
  - intros d a r0 d0 H. by rewrite patch_latest_sync_campaigns.
  - intros c names now stored d H. by rewrite mark_campaigns.
Qed.

(** X16.  No operation deletes a campaign row, changes its [created_at],
    or makes an inactive row active again. *)
Theorem campaign_rows_are_never_deleted (ops : list Op) (db : DB) (id : string)
    (r : CampaignRow) :
  campaigns db !! id = Some r →
  ∃ r', campaigns (run_ops ops db) !! id = Some r'
        ∧ c_created_at r' = c_created_at r
        ∧ (c_is_active r' = true → c_is_active r = true).
Proof.
  intros Hr.
  assert (∀ db0, row_kept id r (campaigns db0) →
                 row_kept id r (campaigns (run_ops ops db0))) as H.
  { unfold run_ops. induction ops as [|op ops IH]; intros db0 H0; [done|].
    simpl. by apply IH, run_op_kept. }
  apply H. by apply row_kept_refl.
Qed.

(** Campaign A is soft-deleted and campaign B added. *)
Lemma campaign_rows_are_never_deleted_witness :
  ∃ r', campaigns (run_ops [OpUpdateCampaigns false [] 20;
                            OpUpdateCampaigns false [campaign_b] 30]
                     db_with_a) !! "A"
        = Some r'
        ∧ c_created_at r' = 10
        ∧ (c_is_active r' = true → true = true).
Proof.
  apply (campaign_rows_are_never_deleted
           [OpUpdateCampaigns false [] 20; OpUpdateCampaigns false [campaign_b] 30]
           db_with_a
           "A" (mkCampaignRow "X" "running" 10 10 true)).
  vm_compute. reflexivity.
Defined.

(** ** Company names *)

Lemma extract_unique_companies_eq l :
  extract_unique_companies l = list_to_set (omap company_of l).
Proof.
  unfold extract_unique_companies.
  assert (∀ acc : gset string,
            foldl (λ unique_companies lead,
                     match companyName lead with
                     | Some c =>
                         if nonempty c
                         then let company_name := strip c in
                              if nonempty company_name
                              then {[company_name]} ∪ unique_companies
                              else unique_companies
                         else unique_companies
                     | None => unique_companies
                     end) acc l
            = list_to_set (omap company_of l) ∪ acc) as H.
  { induction l as [|x l IH]; intros acc; simpl; [set_solver|].
    rewrite IH. unfold company_of.
    destruct (companyName x) as [c|]; [|done].
    destruct (nonempty c); [|done]. simpl.
    destruct (nonempty (strip c)); [|done]. simpl. set_solver. }
  rewrite H. set_solver.
Qed.

Lemma elem_of_extract l n :
  n ∈ extract_unique_companies l ↔ ∃ lead, lead ∈ l ∧ company_of lead = Some n.
Proof.
  rewrite extract_unique_companies_eq, elem_of_list_to_set, list_elem_of_omap.
  done.
Qed.

Lemma lstrip_head l :
  match lstrip l with [] => True | a :: _ => is_py_space a = false end.
Proof.
  induction l as [|a l IH]; simpl; [done|].
  destruct (is_py_space a) eqn:Ha; [done|]. simpl. done.
Qed.

Lemma lstrip_fixed l :
  match l with [] => True | a :: _ => is_py_space a = false end →
  lstrip l = l.
Proof. destruct l as [|a l]; simpl; [done|]. by intros ->. Qed.

Lemma lstrip_suffix l : ∃ k, l = k ++ lstrip l.
Proof.
  induction l as [|a l [k IH]]; simpl; [by exists []|].
  destruct (is_py_space a).
  - exists (a :: k). simpl. by f_equal.
  - by exists [].
Qed.

Lemma strip_list_idemp l :
  let stripped := rev (lstrip (rev (lstrip l))) in
  rev (lstrip (rev (lstrip stripped))) = stripped.
Proof.
  simpl. set (L := lstrip l). set (M := lstrip (rev L)).
  assert (lstrip (rev M) = rev M) as ->.
  { apply lstrip_fixed.
    destruct (lstrip_suffix (rev L)) as [k Hk]. fold M in Hk.
    assert (L = rev M ++ rev k) as HL.
    { rewrite <- (rev_involutive L), Hk, rev_app_distr. done. }
    pose proof (lstrip_head l) as Hh. fold L in Hh.
    destruct (rev M) as [|a R]; [done|]. rewrite HL in Hh. done. }
  rewrite rev_involutive. f_equal. apply lstrip_fixed. apply lstrip_head.
Qed.

Lemma strip_idemp s : strip (strip s) = strip s.
Proof.
  unfold strip. rewrite list_ascii_of_string_of_list_ascii.
  f_equal. apply strip_list_idemp.
Qed.

(** X17.  Every name in the unique companies of a list of leads is the
    stripped [companyName] of one of the leads, is not empty, and has no
    leading or trailing whitespace left to strip. *)
Theorem extracted_names_are_clean (l : list Lead) (n : string) :
  n ∈ extract_unique_companies l →
  n ≠ EmptyString ∧ strip n = n
  ∧ ∃ lead c, lead ∈ l ∧ companyName lead = Some c ∧ n = strip c.
Proof.
  intros (lead & Hin & Hc)%elem_of_extract. unfold company_of in Hc.
  destruct (companyName lead) as [c|] eqn:Hname; [|discriminate].
  destruct (nonempty c); [|discriminate].
  destruct (nonempty (strip c)) eqn:Hne; [|discriminate].
  injection Hc as <-. split; [|split].
  - intros Heq. rewrite Heq in Hne. discriminate.
  - apply strip_idemp.
  - eauto.
Qed.

(** A company name with blanks around it. *)
Lemma extracted_names_are_clean_witness :
  strip "Acme" = "Acme".
Proof.
  refine (proj1 (proj2 (extracted_names_are_clean
                          [mkLead "1" None None None (Some " Acme ") None None
                             None None] "Acme" _))).
  apply (bool_decide_unpack _). vm_compute. exact I.
Defined.

(** X18.  The unique companies of two lists of leads put together are the
    union of their unique companies, and do not depend on the order of the
    leads. *)
Theorem extract_unique_companies_union (l1 l2 : list Lead) :
  extract_unique_companies (l1 ++ l2)
  = extract_unique_companies l1 ∪ extract_unique_companies l2
  ∧ (l1 ≡ₚ l2 → extract_unique_companies l1 = extract_unique_companies l2).
Proof.
  split.
  - rewrite !extract_unique_companies_eq, omap_app. apply list_to_set_app_L.
  - intros Hp. apply set_eq. intros n. rewrite !elem_of_extract.
    by setoid_rewrite Hp.
Qed.

(** X19.  A campaign qualifies for tracking exactly when its leads yield at
    least two distinct stripped company names (the flag
    [has_company_column] adds nothing), and
    [get_campaigns_with_company_data] keeps exactly the fetched campaigns
    that do. *)
Theorem qualifying_guard (fetched : list (Campaign * list Lead)) :
  (∀ l, qualifies l = true ↔ (2 ≤ size (extract_unique_companies l))%nat)
  ∧ (∀ x, x ∈ get_campaigns_with_company_data fetched
          ↔ x ∈ fetched ∧ (2 ≤ size (extract_unique_companies x.2))%nat).
Proof.
  assert (∀ l, qualifies l = true ↔ (2 ≤ size (extract_unique_companies l))%nat)
    as H.
  { intros l. unfold qualifies. rewrite andb_true_iff, bool_decide_eq_true.
    split; [intros [_ ?]; lia|]. intros Hsize. split; [|lia].
    destruct (size_pos_elem_of (extract_unique_companies l)) as [n Hn]; [lia|].
    apply elem_of_extract in Hn as (lead & Hin & Hc).
    apply existsb_exists. exists lead. split; [by apply list_elem_of_In|].
    unfold company_of in Hc. destruct (companyName lead) as [c|]; [|discriminate].
    simpl. by destruct (nonempty c). }
  split; [done|]. intros x. unfold get_campaigns_with_company_data.
  by rewrite list_elem_of_filter, H, (comm and).
Qed.

(** ** The change-log query, continued *)

(** X20.  [get_change_log] returns no entry for a limit outside the 64-bit
    range, every entry for a negative limit, and otherwise the smaller of
    the limit and the number of entries. *)
Theorem get_change_log_length (limit : Z) (db : DB) :
  length (get_change_log limit db)
  = if decide (limit < - 2 ^ 63 ∨ 2 ^ 63 ≤ limit) then 0%nat
    else if decide (limit < 0) then length (change_log db)
    else Nat.min (Z.to_nat limit) (length (change_log db)).
Proof.
  unfold get_change_log, get_change_log_rows, select_change_log, sql_limit.
  rewrite length_map.
  pose proof (Permutation_length (order_by_timestamp_desc_Permutation
                                    (change_log db))) as Hlen.
  destruct (decide (limit < - 2 ^ 63 ∨ 2 ^ 63 ≤ limit)) as [Hout|Hin].
  - destruct Hout as [Hlo|Hhi].
    + by rewrite (proj2 (Z.ltb_lt limit (- 2 ^ 63))) by lia.
    + rewrite (proj2 (Z.leb_le (2 ^ 63) limit)) by lia.
      by rewrite orb_true_r.
  - rewrite (proj2 (Z.ltb_ge limit (- 2 ^ 63))) by lia.
    rewrite (proj2 (Z.leb_gt (2 ^ 63) limit)) by lia. simpl.
    destruct (decide (limit < 0)) as [Hneg|Hpos].
    + by rewrite (proj2 (Z.ltb_lt limit 0)) by lia.
    + rewrite (proj2 (Z.ltb_ge limit 0)) by lia.
      by rewrite length_take, Hlen.
Qed.

(** Campaign A renamed and campaign B added. *)
Lemma update_campaigns_counts_witness :
  campaigns_added (mkStats 1 0 1 0 0 ∅) = 1%nat
  ∧ campaigns_removed (mkStats 1 0 1 0 0 ∅) = 0%nat
  ∧ length (change_log (update_campaigns [campaign_a_renamed; campaign_b] 30
                          db_with_a).1) = 3%nat.
Proof.
  destruct (update_campaigns_counts [campaign_a_renamed; campaign_b] 30 db_with_a
              (update_campaigns [campaign_a_renamed; campaign_b] 30 db_with_a).1
              (mkStats 1 0 1 0 0 ∅))
    as (Ha & Hr & _ & _ & _ & _ & Hlen).
  - vm_compute. reflexivity.
  - split; [reflexivity|]. split; [reflexivity|]. rewrite Hlen. reflexivity.
Defined.

(** A second reconciliation of the store with campaign A. *)
Lemma update_campaigns_sync_row_witness :
  length (sync_history (update_campaigns [campaign_b] 30 db_with_a).1) = 2%nat.
Proof.
  destruct (update_campaigns_sync_row [campaign_b] 30 db_with_a
              (update_campaigns [campaign_b] 30 db_with_a).1
              (mkStats 1 1 0 0 0 ∅)) as (Hs & _).
  - vm_compute. reflexivity.
  - rewrite Hs. reflexivity.
Defined.

(** ** The reconciliation pass and the sync statistics *)


















(** ** Push operations on what the export hands on *)

Lemma read_leads_unreadable before error after acc :
  for_each (λ x lead_list,
              match x with
              | Readable lead => Returned (lead_list ++ [lead])
              | Unreadable error => Raised (AttributeError error)
              end) (map Readable before ++ Unreadable error :: after) acc
  = Raised (AttributeError error).
Proof.
  revert acc. induction before as [|x l IH]; intros acc; simpl; [done|]. apply IH.
Qed.

(** X23.  When the export holds an element the extraction loop cannot read,
    [push_all_companies] and [push_new_companies] answer with the text of the
    exception the first such element raises and leave the store as it was,
    whatever the delivery and the mark would do; on an export of readable
    leads they are the operations on those leads. *)
Theorem unreadable_export_is_answered (c : string) (before : list Lead)
    (error : string) (after : list Exported) (l : list Lead) (ok stored : bool)
    (now : Z) (db : DB) :
  let exported := map Readable before ++ Unreadable error :: after in
  push_all_exported c exported ok stored now db = (db, Returned (PushFail error))
  ∧ push_new_exported c exported ok stored now db
    = (db, Returned (PushFail error))
  ∧ push_all_exported c (map Readable l) ok stored now db
    = push_all_companies c l ok stored now db
  ∧ push_new_exported c (map Readable l) ok stored now db
    = push_new_companies c l ok stored now db.
Proof.
  unfold push_all_exported, push_new_exported, read_leads.
  rewrite read_leads_unreadable, read_leads_app. done.
Qed.
